(** * The automation orchestrator of rpi-ngnix: queue, dispatch, retries, reports

    A shallow embedding of [automation_scripts/orchestrator.js]
    (class [AIAutomationOrchestrator]) and the properties of its task
    queue, its bounded dispatch, its retry policy, its scheduler and its
    report readers, and of the scoring functions of the probe script
    [advanced_ai_automation.js] (class [AdvancedAIAutomation]), whose
    reports the orchestrator reads.

    The orchestrator runs on the single thread of the Node.js event loop.
    Every piece of code between two suspension points runs to its end
    before another starts, so the embedding has one transition per such
    piece: a call of [queueTask], the resumption of a [processQueue]
    activation after [await this.executeTask(task)], the firing of a
    retry timer, and a write of a probe process into the reports
    directory. *)

From stdpp Require Import gmap strings list fin_maps sorting.
From Stdlib Require Import ZArith QArith Qround Ascii DecimalString.
From Stdlib Require DecimalPos DecimalZ.

Set Warnings "-register-all,-clear-no-such-hyp".
Local Open Scope string_scope.
Local Open Scope list_scope.
Local Open Scope Z_scope.

(** ** JavaScript values, as far as the orchestrator looks at them

    Numbers are integers here: task priorities, retry counts, millisecond
    timestamps, scores and exit codes.  Fractions, NaN and the infinities
    appear only where the code computes them ([MaxResult] below). *)

Inductive JsVal :=
| JUndefined
| JNull
| JBool (b : bool)
| JNum (n : Z)
| JStr (s : string)
| JArr (items : list JsVal)
| JObj (fields : list (string * JsVal)).

(** [x || d] where [x] is an optional number: [undefined] and [0] are
    falsy, every other integer is truthy. *)
Definition orDefault (x : option Z) (d : Z) : Z :=
  match x with
  | Some v => if v =? 0 then d else v
  | None => d
  end.

(** ** Task descriptors *)

Module Options.
(** The options bag of [queueTask(taskType, options = {})]; a field that
    the caller left out is [None]. *)
Record t := mk {
  priority : option Z;
  maxRetries : option Z;
  timeout : option Z
}.
Definition empty : t := mk None None None.
End Options.

Module Task.
Record t := mk {
  id : string;
  type : string;
  options : Options.t;
  priority : Z;
  retryCount : Z;
  maxRetries : Z;
  createdAt : Z
}.

(** [task.retryCount++] *)
Definition retried (k : t) : t :=
  mk (id k) (type k) (options k) (priority k) (retryCount k + 1)
     (maxRetries k) (createdAt k).
End Task.

(** ['task_' + Date.now() + '_' + Math.random().toString(36).substr(2, 9)];
    the clock reading and the random suffix come from the environment. *)
Definition generateTaskId (now : Z) (suffix : string) : string :=
  "task_" +:+ NilZero.string_of_int (Z.to_int now) +:+ "_" +:+ suffix.

(** The object literal built at the start of [queueTask]. *)
Definition newTask (taskId taskType : string) (options : Options.t) (now : Z)
  : Task.t :=
  Task.mk taskId taskType options
          (orDefault (Options.priority options) 5)
          0
          (orDefault (Options.maxRetries options) 3)
          now.

(** ** The execution backend *)

(** How the spawned child ends, seen from [executeTask]: the first of the
    ['close'] event (exit code, or none when a signal ended the child),
    the ['error'] event and the timeout timer settles the promise. *)
Inductive ChildOutcome :=
| Closed (code : option Z) (stdout stderr : string) (now : Z)
| SpawnFailed (message : string)
| TimerElapsed.

Inductive TaskError :=
| UnknownTaskType (taskType : string)
| ExitFailure (code : option Z) (stderr : string)
| SpawnError (message : string)
| TaskTimeout.

Record TaskResult := mkResult {
  success : bool;
  output : string;
  duration : Z
}.

(** The [switch (type)] of [executeTask]: the script and argument of every
    known task type, relative to the scripts directory. *)
Definition commandFor (taskType : string) : option (string * string) :=
  if String.eqb taskType "health" then Some ("automation.js", "health")
  else if String.eqb taskType "security" then Some ("advanced_ai_automation.js", "security")
  else if String.eqb taskType "performance" then Some ("advanced_ai_automation.js", "performance")
  else if String.eqb taskType "content" then Some ("advanced_ai_automation.js", "content")
  else if String.eqb taskType "visual" then Some ("advanced_ai_automation.js", "visual")
  else if String.eqb taskType "all" then Some ("advanced_ai_automation.js", "all")
  else None.


(** [executeTask(task)]: the promise resolves with a result or rejects with
    an error.  For an unknown type the [default] branch rejects before a
    child is spawned, whatever the child would have done. *)
Definition executeTask (k : Task.t) (child : ChildOutcome)
  : TaskResult + TaskError :=
  match commandFor (Task.type k) with
  | None => inr (UnknownTaskType (Task.type k))
  | Some _ =>
      match child with
      | Closed (Some 0) out _ now => inl (mkResult true out (now - Task.createdAt k))
      | Closed code _ err _ => inr (ExitFailure code err)
      | SpawnFailed msg => inr (SpawnError msg)
      | TimerElapsed => inr TaskTimeout
      end
  end.

(** ** The orchestrator state *)

(** What the orchestrator announces, with the task object as it is at that
    moment: the three [emit] calls and the retry line of [console.log]. *)
Inductive Notice :=
| taskStarted (k : Task.t)
| taskCompleted (k : Task.t) (result : TaskResult)
| taskFailed (k : Task.t) (error : TaskError)
| retrying (k : Task.t).

(** A file of the reports directory: its name and its content as
    [JSON.parse] reads it, [None] when reading or parsing throws. *)
Definition ReportFile : Type := string * option JsVal.

Record State := mkState {
  taskQueue : list Task.t;
  runningTasks : gmap string Task.t;
  maxConcurrentTasks : nat;
  (** the [processQueue] activations suspended at [await executeTask(task)],
      each with its [task] *)
  awaiting : list Task.t;
  (** the pending [setTimeout(() => this.processQueue(), 5000)] *)
  retryTimers : nat;
  (** the notices so far, oldest first *)
  notices : list Notice;
  (** the files of [reportsDir], in [readdir] order *)
  reportsDir : list ReportFile
}.

(** The constructor: empty queue, empty map; the source sets
    [maxConcurrentTasks] to 3, tests set it to other bounds. *)
Definition newOrchestrator (bound : nat) : State :=
  mkState [] ∅ bound [] 0%nat [] [].

Definition defaultOrchestrator : State := newOrchestrator 3.

(** ** The task queue *)

(** [taskQueue.sort((a, b) => a.priority - b.priority)].  The sort of
    ECMAScript 2019 is stable; with a consistent comparator its result is
    the one of a stable insertion sort. *)
Fixpoint insertByPriority (k : Task.t) (q : list Task.t) : list Task.t :=
  match q with
  | [] => [k]
  | h :: q' =>
      if Task.priority k <=? Task.priority h then k :: h :: q'
      else h :: insertByPriority k q'
  end.

Fixpoint sortByPriority (q : list Task.t) : list Task.t :=
  match q with
  | [] => []
  | k :: q' => insertByPriority k (sortByPriority q')
  end.

(** [processQueue()], up to its [await]: nothing when the running map is
    full or the queue is empty; otherwise [shift] the head, enter it in
    the map under its id, announce it and suspend on its execution. *)
Definition processQueue (s : State) : State :=
  if (maxConcurrentTasks s <=? size (runningTasks s))%nat then s
  else
    match taskQueue s with
    | [] => s
    | k :: q =>
        mkState q (<[Task.id k := k]> (runningTasks s)) (maxConcurrentTasks s)
                (awaiting s ++ [k]) (retryTimers s)
                (notices s ++ [taskStarted k]) (reportsDir s)
    end.

(** [queueTask(taskType, options)]: [push], [sort], [processQueue]; the
    returned id comes with the new state. *)
Definition queueTask (taskId taskType : string) (options : Options.t)
    (now : Z) (s : State) : string * State :=
  let k := newTask taskId taskType options now in
  (taskId,
   processQueue
     (mkState (sortByPriority (taskQueue s ++ [k])) (runningTasks s)
              (maxConcurrentTasks s) (awaiting s) (retryTimers s)
              (notices s) (reportsDir s))).

(** The handlers of ['taskCompleted'] and ['taskFailed']: delete the id
    from the running map and call [processQueue]. *)
Definition releaseSlot (k : Task.t) (n : Notice) (rest : list Task.t)
    (s : State) : State :=
  processQueue
    (mkState (taskQueue s) (delete (Task.id k) (runningTasks s))
             (maxConcurrentTasks s) rest (retryTimers s)
             (notices s ++ [n]) (reportsDir s)).

(** The rest of [processQueue], after the [await]: the activation of task
    [k] resumes with the settled promise. *)
Definition resume (k : Task.t) (rest : list Task.t)
    (settled : TaskResult + TaskError) (s : State) : State :=
  match settled with
  | inl result => releaseSlot k (taskCompleted k result) rest s
  | inr error =>
      if Task.retryCount k <? Task.maxRetries k then
        let k' := Task.retried k in
        mkState (k' :: taskQueue s) (delete (Task.id k) (runningTasks s))
                (maxConcurrentTasks s) rest (S (retryTimers s))
                (notices s ++ [retrying k']) (reportsDir s)
      else releaseSlot k (taskFailed k error) rest s
  end.

(** [stopAllTasks()]: empties the queue and the running map; the
    suspended activations and the children stay. *)
Definition stopAllTasks (s : State) : State :=
  mkState [] ∅ (maxConcurrentTasks s) (awaiting s) (retryTimers s)
          (notices s) (reportsDir s).

(** ** Transitions *)

Inductive Action :=
| Enqueue (idNow : Z) (suffix : string) (taskType : string)
          (options : Options.t) (now : Z)
| Settle (i : nat) (child : ChildOutcome)
| TimerFires
| ProbeWrites (file : ReportFile).

(** [fs.writeFile(path, content)]: an existing name is overwritten where it
    stands, a new name is listed last. *)
Fixpoint writeFile (name : string) (content : option JsVal)
    (dir : list ReportFile) : list ReportFile :=
  match dir with
  | [] => [(name, content)]
  | (n, c) :: dir' =>
      if String.eqb n name then (n, content) :: dir'
      else (n, c) :: writeFile name content dir'
  end.

Definition step (s : State) (a : Action) : option State :=
  match a with
  | Enqueue idNow suffix taskType options now =>
      Some (snd (queueTask (generateTaskId idNow suffix) taskType options now s))
  | Settle i child =>
      match awaiting s !! i with
      | Some k => Some (resume k (delete i (awaiting s)) (executeTask k child) s)
      | None => None
      end
  | TimerFires =>
      match retryTimers s with
      | O => None
      | S n =>
          Some (processQueue
                  (mkState (taskQueue s) (runningTasks s) (maxConcurrentTasks s)
                           (awaiting s) n (notices s) (reportsDir s)))
      end
  | ProbeWrites (name, content) =>
      Some (mkState (taskQueue s) (runningTasks s) (maxConcurrentTasks s)
                    (awaiting s) (retryTimers s) (notices s)
                    (writeFile name content (reportsDir s)))
  end.

Fixpoint run (s : State) (acts : list Action) : option State :=
  match acts with
  | [] => Some s
  | a :: acts' =>
      match step s a with
      | Some s' => run s' acts'
      | None => None
      end
  end.

(** ** The scheduler *)

(** An entry of [config.scheduling].  [automation_config/config.json] gives
    every entry a [priority]; the table that [loadConfig] writes when the
    configuration file is absent has none. *)
Record ScheduleEntry := mkEntry {
  interval : Z;
  enabled : bool;
  entryPriority : option Z
}.

(** The fallback table of [loadConfig]. *)
Definition defaultScheduling : list (string * ScheduleEntry) :=
  [ ("healthCheck", mkEntry 300 true None);
    ("securityScan", mkEntry 3600 true None);
    ("performanceTest", mkEntry 1800 true None);
    ("contentAnalysis", mkEntry 7200 true None);
    ("visualRegression", mkEntry 86400 true None) ].

(** The [scheduling] table of [automation_config/config.json]. *)
Definition configJsonScheduling : list (string * ScheduleEntry) :=
  [ ("healthCheck", mkEntry 300 true (Some 1));
    ("securityScan", mkEntry 3600 true (Some 2));
    ("performanceTest", mkEntry 1800 true (Some 3));
    ("contentAnalysis", mkEntry 7200 true (Some 4));
    ("visualRegression", mkEntry 86400 true (Some 5)) ].

(** A timer armed by [setInterval]: its period in milliseconds and the
    arguments of the [queueTask] call of its callback. *)
Record IntervalTimer := mkTimer {
  periodMs : Z;
  timerTask : string;
  timerOptions : Options.t
}.

(** [startScheduler()]: one [setInterval] per enabled entry, whose callback
    is [this.queueTask(taskType, { priority: 3 })]. *)
Definition startScheduler (scheduling : list (string * ScheduleEntry))
  : list IntervalTimer :=
  omap (fun '(taskType, schedule) =>
          if enabled schedule
          then Some (mkTimer (interval schedule * 1000) taskType
                             (Options.mk (Some 3) None None))
          else None)
       scheduling.

(** One firing of a timer: the [queueTask] call of its callback. *)
Definition timerFiring (tm : IntervalTimer) (idNow : Z) (suffix : string)
    (now : Z) : Action :=
  Enqueue idNow suffix (timerTask tm) (timerOptions tm) now.

(** ** Reading JavaScript values *)

Definition truthy (v : JsVal) : bool :=
  match v with
  | JUndefined | JNull => false
  | JBool b => b
  | JNum n => negb (n =? 0)
  | JStr s => negb (String.eqb s "")
  | JArr _ | JObj _ => true
  end.

(** [a || b] *)
Definition jsOr (a b : JsVal) : JsVal := if truthy a then a else b.

Fixpoint lookupField {A} (name : string) (fields : list (string * A))
  : option A :=
  match fields with
  | [] => None
  | (n, v) :: fields' =>
      if String.eqb n name then Some v else lookupField name fields'
  end.

(** [v.name] on a value that is neither [null] nor [undefined]: an own
    field of an object, the [length] of an array or a string (for a
    string of ASCII characters, the number of its characters). *)
Definition member (v : JsVal) (name : string) : JsVal :=
  match v with
  | JObj fields => default JUndefined (lookupField name fields)
  | JArr items =>
      if String.eqb name "length" then JNum (Z.of_nat (length items))
      else JUndefined
  | JStr s =>
      if String.eqb name "length" then JNum (Z.of_nat (String.length s))
      else JUndefined
  | _ => JUndefined
  end.

(** [v?.name] *)
Definition optMember (v : JsVal) (name : string) : JsVal :=
  match v with
  | JUndefined | JNull => JUndefined
  | _ => member v name
  end.

(** [v.name], which throws a TypeError on [null] and [undefined]. *)
Definition strictMember (v : JsVal) (name : string) : option JsVal :=
  match v with
  | JUndefined | JNull => None
  | _ => Some (member v name)
  end.

(** [v[0]], which throws a TypeError on [null] and [undefined]. *)
Definition first (v : JsVal) : option JsVal :=
  match v with
  | JUndefined | JNull => None
  | JArr items => Some (hd JUndefined items)
  | JStr (String c _) => Some (JStr (String c ""))
  | JObj fields => Some (default JUndefined (lookupField "0" fields))
  | _ => Some JUndefined
  end.

Definition decimal (n : Z) : string := NilZero.string_of_int (Z.to_int n).

(** ToString, as the [+] of [x + 'ms'] applies it: an array joins its
    items with commas, [null] and [undefined] items being empty; a number
    is printed in plain decimal, as JavaScript prints the integers below
    10^21 in absolute value. *)
Fixpoint toStr (v : JsVal) : string :=
  match v with
  | JUndefined => "undefined"
  | JNull => "null"
  | JBool true => "true"
  | JBool false => "false"
  | JNum n => decimal n
  | JStr s => s
  | JArr items =>
      (fix join (l : list JsVal) : string :=
         match l with
         | [] => ""
         | x :: l' =>
             let sx := match x with
                       | JUndefined | JNull => ""
                       | _ => toStr x
                       end in
             match l' with
             | [] => sx
             | _ => sx +:+ "," +:+ join l'
             end
         end) items
  | JObj _ => "[object Object]"
  end.

(** [x + 'ms'] *)
Definition plusMs (x : JsVal) : JsVal := JStr (toStr x +:+ "ms").

(** ** The reports directory *)

(** [report.split('_')[0]]: the name up to its first underscore. *)
Fixpoint typeOfReport (name : string) : string :=
  match name with
  | EmptyString => EmptyString
  | String c rest =>
      if Ascii.eqb c "_"%char then EmptyString
      else String c (typeOfReport rest)
  end.

(** [obj[key] = value] on an object kept as its list of fields. *)
Fixpoint setField {A} (name : string) (v : A) (fields : list (string * A))
  : list (string * A) :=
  match fields with
  | [] => [(name, v)]
  | (n, w) :: fields' =>
      if String.eqb n name then (n, v) :: fields'
      else (n, w) :: setField name v fields'
  end.

(** The first loop of [getStatus]: per type, the greatest file name in the
    order of [>] on strings. *)
Definition latestStep (latestReports : list (string * string))
    (report : string) : list (string * string) :=
  let type := typeOfReport report in
  match lookupField type latestReports with
  | None => setField type report latestReports
  | Some cur =>
      if String.eqb cur "" || String.ltb cur report
      then setField type report latestReports
      else latestReports
  end.

Definition latestReportsOf (dir : list ReportFile) : list (string * string) :=
  fold_left latestStep (map fst dir) [].

(** [JSON.parse(await fs.readFile(...))] of a listed file. *)
Definition readReport (dir : list ReportFile) (name : string) : option JsVal :=
  mjoin (lookupField name dir).

(** The body of the inner [try] of [getStatus] for one type; [None] when
    it throws, which happens before any field of [status] is assigned. *)
Definition statusFields (type : string) (reportData : JsVal)
  : option (list (string * JsVal)) :=
  if String.eqb type "performance" then
    r ← first reportData;
    Some [ ("perf-score",
            jsOr (optMember (optMember r "performanceScore") "score") (JStr "--"));
           ("perf-load", jsOr (plusMs (optMember r "loadTime")) (JStr "--")) ]
  else if String.eqb type "security" then
    r ← first reportData;
    Some [ ("security-score",
            jsOr (optMember (optMember r "securityScore") "score") (JStr "--"));
           ("security-vulns",
            jsOr (optMember (optMember r "jsSecurityIssues") "length") (JNum 0)) ]
  else if String.eqb type "content" then
    r ← first reportData;
    Some [ ("ai-content",
            jsOr (optMember (optMember r "aiScore") "score") (JStr "--"));
           ("ai-seo",
            if truthy (optMember (optMember (optMember r "pageData") "seo") "title")
            then JStr "Good" else JStr "Poor") ]
  else Some [].

Definition assignAll {A} (updates fields : list (string * A))
  : list (string * A) :=
  fold_left (fun acc '(n, v) => setField n v acc) updates fields.

(** [getStatus()]: the second loop goes over the latest file of each type
    and skips the files that cannot be read. *)
Definition getStatus (dir : list ReportFile) : list (string * JsVal) :=
  fold_left
    (fun status '(type, reportFile) =>
       match readReport dir reportFile with
       | Some reportData =>
           match statusFields type reportData with
           | Some updates => assignAll updates status
           | None => status
           end
       | None => status
       end)
    (latestReportsOf dir) [].

(** ** The comprehensive report *)

Record ReportEntry := mkReportEntry {
  file : string;
  timestamp : JsVal;
  data : JsVal
}.

(** A number that [Math.max] can return. *)
Inductive JsNumber :=
| NaN
| NegInfinity
| Finite (n : Z).

Definition digitOf (c : ascii) : option Z :=
  let n := Z.of_nat (nat_of_ascii c) in
  if (48 <=? n) && (n <=? 57) then Some (n - 48) else None.

Fixpoint digitsFrom (acc : Z) (s : string) : option Z :=
  match s with
  | EmptyString => Some acc
  | String c rest =>
      match digitOf c with
      | Some d => digitsFrom (10 * acc + d) rest
      | None => None
      end
  end.

(** StringToNumber on the strings that spell an integer in decimal; the
    empty string is 0; every other string counts as NaN here ([None]). *)
Definition parseNumber (s : string) : option Z :=
  match s with
  | EmptyString => Some 0
  | String "-"%char (String c rest) => Z.opp <$> digitsFrom 0 (String c rest)
  | String "+"%char (String c rest) => digitsFrom 0 (String c rest)
  | _ => digitsFrom 0 s
  end.

(** ToNumber, as the [-] of the timestamp comparator and [Math.max] apply
    it; [None] is NaN. *)
Definition toNumber (v : JsVal) : option Z :=
  match v with
  | JUndefined => None
  | JNull => Some 0
  | JBool b => Some (if b then 1 else 0)
  | JNum n => Some n
  | JStr _ | JArr _ | JObj _ => parseNumber (toStr v)
  end.

(** [(a, b) => b.timestamp - a.timestamp]; the sort reads NaN as +0. *)
Definition timestampDiff (a b : ReportEntry) : Z :=
  match toNumber (timestamp b), toNumber (timestamp a) with
  | Some x, Some y => x - y
  | _, _ => 0
  end.

(** [reportData[type].sort(...)]: stable, latest timestamp first. *)
Fixpoint insertByTimestamp (e : ReportEntry) (l : list ReportEntry)
  : list ReportEntry :=
  match l with
  | [] => [e]
  | h :: l' =>
      if timestampDiff e h <=? 0 then e :: h :: l'
      else h :: insertByTimestamp e l'
  end.

Fixpoint sortByTimestamp (l : list ReportEntry) : list ReportEntry :=
  match l with
  | [] => []
  | e :: l' => insertByTimestamp e (sortByTimestamp l')
  end.

(** A property name that is an array index: the canonical decimal spelling
    of an integer from 0 to 2^32 - 2. *)
Definition arrayIndex (name : string) : option Z :=
  match name with
  | EmptyString => None
  | _ =>
      match digitsFrom 0 name with
      | Some n =>
          if String.eqb (decimal n) name && (n <? 4294967295) then Some n
          else None
      | None => None
      end
  end.

Definition isArrayIndex {A} (field : string * A) : bool :=
  match arrayIndex (fst field) with
  | Some _ => true
  | None => false
  end.

Definition indexOf {A} (field : string * A) : Z :=
  default 0 (arrayIndex (fst field)).

Fixpoint insertByIndex {A} (field : string * A) (l : list (string * A))
  : list (string * A) :=
  match l with
  | [] => [field]
  | h :: l' =>
      if indexOf field <? indexOf h then field :: h :: l'
      else h :: insertByIndex field l'
  end.

(** The own properties of an object, kept as the list of its fields in
    the order of their creation, in the order in which [Object.keys],
    [Object.values], [Object.entries] and [JSON.stringify] go through
    them: the array indices in ascending order, then the other names in
    the order of their creation. *)
Definition propertyOrder {A} (fields : list (string * A))
  : list (string * A) :=
  foldr insertByIndex [] (List.filter isArrayIndex fields)
  ++ List.filter (fun field => negb (isArrayIndex field)) fields.

(** The names that every object inherits from [Object.prototype]: for such
    a type [reportData[type]] is truthy from the start and has no [push],
    so the call throws, after its argument is evaluated, and the file is
    skipped. *)
Definition inheritedNames : list string :=
  [ "constructor"; "hasOwnProperty"; "isPrototypeOf"; "propertyIsEnumerable";
    "toLocaleString"; "toString"; "valueOf"; "__proto__";
    "__defineGetter__"; "__defineSetter__"; "__lookupGetter__";
    "__lookupSetter__" ].

(** The clock: [clock i] is the value of the i-th call of [Date.now()]. *)
Definition Clock : Type := nat → Z.

(** The body of the first loop of [generateReport] for one file, with the
    groups so far and the number of clock readings so far. *)
Definition collectStep (clock : Clock)
    (acc : list (string * list ReportEntry) * nat) (f : ReportFile)
  : list (string * list ReportEntry) * nat :=
  let '(reportData, tick) := acc in
  match snd f with
  | None => acc
  | Some content =>
      let type := typeOfReport (fst f) in
      if bool_decide (type ∈ inheritedNames) then
        match strictMember content "timestamp" with
        | None => acc
        | Some ts => (reportData, if truthy ts then tick else S tick)
        end
      else
        let group := default [] (lookupField type reportData) in
        let reportData1 := setField type group reportData in
        match strictMember content "timestamp" with
        | None => (reportData1, tick)
        | Some ts =>
            let '(stamp, tick') :=
              if truthy ts then (ts, tick) else (JNum (clock tick), S tick) in
            (setField type (group ++ [mkReportEntry (fst f) stamp content])
                      reportData1,
             tick')
        end
  end.

(** [Math.max(...timestamps)] *)
Fixpoint maxOf (l : list JsVal) : JsNumber :=
  match l with
  | [] => NegInfinity
  | v :: l' =>
      match toNumber v, maxOf l' with
      | None, _ | _, NaN => NaN
      | Some x, NegInfinity => Finite x
      | Some x, Finite y => Finite (Z.max x y)
      end
  end.

Record Summary := mkSummary {
  totalReports : nat;
  reportTypes : list string;
  latestActivity : JsNumber
}.

(** [reports] is the object [reportData], kept as the list of its groups
    in the order of their creation. *)
Record ComprehensiveReport := mkReport {
  generated : Z;
  summary : Summary;
  reports : list (string * list ReportEntry)
}.

(** What [JSON.parse] reads back from [JSON.stringify(v)]: the fields of
    every object in the order of enumeration, without those that are
    [undefined], and [null] for the [undefined] items of an array. *)
Fixpoint reparsed (v : JsVal) : JsVal :=
  match v with
  | JArr items =>
      JArr ((fix items' (l : list JsVal) : list JsVal :=
               match l with
               | [] => []
               | JUndefined :: l' => JNull :: items' l'
               | x :: l' => reparsed x :: items' l'
               end) items)
  | JObj fields =>
      JObj (propertyOrder
              ((fix fields' (l : list (string * JsVal))
                  : list (string * JsVal) :=
                  match l with
                  | [] => []
                  | (_, JUndefined) :: l' => fields' l'
                  | (n, x) :: l' => (n, reparsed x) :: fields' l'
                  end) fields))
  | _ => v
  end.

(** What [JSON.parse] reads back from [JSON.stringify(comprehensiveReport)];
    [stringify] writes NaN and the infinities as [null]. *)
Definition entryJson (e : ReportEntry) : JsVal :=
  JObj [ ("file", JStr (file e)); ("timestamp", reparsed (timestamp e));
         ("data", reparsed (data e)) ].

Definition reportJson (r : ComprehensiveReport) : JsVal :=
  JObj
    [ ("generated", JNum (generated r));
      ("summary",
       JObj [ ("totalReports", JNum (Z.of_nat (totalReports (summary r))));
              ("reportTypes", JArr (JStr <$> reportTypes (summary r)));
              ("latestActivity",
               match latestActivity (summary r) with
               | Finite n => JNum n
               | _ => JNull
               end) ]);
      ("reports",
       JObj (propertyOrder
               (prod_map id (fun g => JArr (entryJson <$> g)) <$> reports r))) ].

Definition comprehensiveName (now : Z) : string :=
  "comprehensive_" +:+ decimal now +:+ ".json".

(** [generateReport()], started after [tick] readings of the clock: the
    report, the reports directory with the report written into it, and
    the number of clock readings afterwards. *)
Definition generateReport (clock : Clock) (tick : nat) (dir : list ReportFile)
  : ComprehensiveReport * list ReportFile * nat :=
  let '(reportData, tick1) := fold_left (collectStep clock) dir ([], tick) in
  let sorted := prod_map id sortByTimestamp <$> reportData in
  let comprehensiveReport :=
    mkReport (clock tick1)
             (mkSummary (length dir) (fst <$> propertyOrder sorted)
                        (maxOf (timestamp
                                  <$> concat (snd <$> propertyOrder sorted))))
             sorted in
  (comprehensiveReport,
   writeFile (comprehensiveName (clock (S tick1)))
             (Some (reportJson comprehensiveReport)) dir,
   S (S tick1)).

(** ** Vocabulary of the properties *)

Definition taskIds (l : list Task.t) : list string := Task.id <$> l.

(** The id that an action hands out. *)
Definition issuedId (a : Action) : option string :=
  match a with
  | Enqueue idNow suffix _ _ _ => Some (generateTaskId idNow suffix)
  | _ => None
  end.

Definition issuedIds (acts : list Action) : list string := omap issuedId acts.

Definition noticeTask (n : Notice) : Task.t :=
  match n with
  | taskStarted k | taskCompleted k _ | taskFailed k _ | retrying k => k
  end.

Definition isStartOf (i : string) (n : Notice) : bool :=
  match n with
  | taskStarted k => String.eqb (Task.id k) i
  | _ => false
  end.

Definition isFailureOf (i : string) (n : Notice) : bool :=
  match n with
  | taskFailed k _ => String.eqb (Task.id k) i
  | _ => false
  end.

(** How many times the task with id [i] was handed to [executeTask], and
    how many terminal failures were announced for it. *)
Definition attempts (i : string) (ns : list Notice) : nat :=
  length (List.filter (isStartOf i) ns).

Definition failures (i : string) (ns : list Notice) : nat :=
  length (List.filter (isFailureOf i) ns).

(** The tasks in the order of their dispatch. *)
Definition dispatched (ns : list Notice) : list Task.t :=
  omap (fun n => match n with taskStarted k => Some k | _ => None end) ns.

(** The ids are in order when no id is handed out twice: every task in the
    queue or in execution has its own id, handed out by some [queueTask],
    and the running map holds exactly the tasks in execution. *)
Record ids_wf (U : gset string) (s : State) : Prop := mk_ids_wf {
  wf_nodup : NoDup (taskIds (awaiting s ++ taskQueue s));
  wf_issued : ∀ k, k ∈ awaiting s ++ taskQueue s → Task.id k ∈ U;
  wf_running : dom (runningTasks s) = list_to_set (taskIds (awaiting s))
}.

(** ** Example runs *)

Definition exitedOk : ChildOutcome := Closed (Some 0) "ok" "" 1700000009000.
Definition exitedWith1 : ChildOutcome := Closed (Some 1) "" "boom" 1700000009000.

(** Five tasks queued on an orchestrator with two slots; then the first
    running task completes and the next one fails. *)
Definition fiveQueued : list Action :=
  [ Enqueue 1700000000001 "k3j9x0q2a" "health" Options.empty 1700000000001;
    Enqueue 1700000000002 "m1n8b7v4c" "security" Options.empty 1700000000002;
    Enqueue 1700000000003 "z5t6r2w1e" "performance" Options.empty 1700000000003;
    Enqueue 1700000000004 "p0o9i8u7y" "content" Options.empty 1700000000004;
    Enqueue 1700000000005 "a2s3d4f5g" "visual" Options.empty 1700000000005;
    Settle 0 exitedOk;
    Settle 1 exitedWith1 ].

(** Five tasks queued, the first two by calls of [queueTask] within one
    millisecond that draw the same random suffix. *)
Definition collidingIds : list Action :=
  [ Enqueue 1700000000001 "k3j9x0q2a" "health" Options.empty 1700000000001;
    Enqueue 1700000000001 "k3j9x0q2a" "security" Options.empty 1700000000001;
    Enqueue 1700000000003 "z5t6r2w1e" "performance" Options.empty 1700000000003;
    Enqueue 1700000000004 "p0o9i8u7y" "content" Options.empty 1700000000004;
    Enqueue 1700000000005 "a2s3d4f5g" "visual" Options.empty 1700000000005 ].

(** ** Order of the queue *)

Definition byPriority (a b : Task.t) : Prop := Task.priority a ≤ Task.priority b.


Definition hasPriority (p : Z) (k : Task.t) : bool := Task.priority k =? p.



(** Where a task pushed at the end of a sorted queue lands: behind every
    task whose priority value is not greater. *)
Fixpoint placeLast (k : Task.t) (q : list Task.t) : list Task.t :=
  match q with
  | [] => [k]
  | h :: q' =>
      if Task.priority h <=? Task.priority k then h :: placeLast k q'
      else k :: h :: q'
  end.

Definition withPriority (p : Z) : Options.t := Options.mk (Some p) None None.

Definition slowTask : Task.t :=
  newTask (generateTaskId 1700000000001 "k3j9x0q2a") "performance"
          (withPriority 5) 1700000000001.

Definition urgentTask : Task.t :=
  newTask (generateTaskId 1700000000002 "m1n8b7v4c") "health"
          (withPriority 1) 1700000000002.



(** The task made by an enqueue action. *)
Definition enqueuedTask (a : Action) : option Task.t :=
  match a with
  | Enqueue idNow suffix taskType options now =>
      Some (newTask (generateTaskId idNow suffix) taskType options now)
  | _ => None
  end.

Definition enqueuedTasks (acts : list Action) : list Task.t :=
  omap enqueuedTask acts.

Definition knownType (taskType : string) : bool :=
  match commandFor taskType with Some _ => true | None => false end.

(** A task of an unknown type, with the default options. *)
Definition bogusTask : Task.t :=
  newTask (generateTaskId 1700000000001 "k3j9x0q2a") "bogus" Options.empty
          1700000000001.

(** No child is spawned for it: [executeTask] rejects whatever outcome the
    settle step names. *)
Definition bogusFirstAttempt : list Action :=
  [ Enqueue 1700000000001 "k3j9x0q2a" "bogus" Options.empty 1700000000001;
    Settle 0 exitedOk ].



(** An enqueue of a task of a known type. *)
Definition enqueuesKnown (a : Action) : bool :=
  match a with
  | Enqueue _ _ taskType _ _ => knownType taskType
  | _ => false
  end.

(** The child exits with code 0. *)
Definition exitsOk (c : ChildOutcome) : bool :=
  match c with
  | Closed (Some 0) _ _ _ => true
  | _ => false
  end.

(** Priorities 5, 1 and 3, enqueued in that order. *)
Definition enqueue513 : list Action :=
  [ Enqueue 1700000000001 "k3j9x0q2a" "performance" (withPriority 5) 1700000000001;
    Enqueue 1700000000002 "m1n8b7v4c" "health" (withPriority 1) 1700000000002;
    Enqueue 1700000000003 "z5t6r2w1e" "security" (withPriority 3) 1700000000003 ].

Definition occupySlot : Action :=
  Enqueue 1700000000000 "q1w2e3r4t" "all" (withPriority 7) 1700000000000.

(** ** Retry accounting *)

(** What links the tasks in execution [aw], the queue [q] and the notices
    [ns] when the ids in [U] are the ones handed out so far: a queued task
    was attempted as many times as its retry count says, a task in
    execution once more, and a task whose terminal failure was announced
    is gone for good. *)
Record retry_inv (U : gset string) (aw q : list Task.t) (ns : list Notice)
  : Prop := mk_retry_inv {
  ri_nodup : NoDup (taskIds (aw ++ q));
  ri_issued : ∀ k, k ∈ aw ++ q → Task.id k ∈ U;
  ri_bounds : ∀ k, k ∈ aw ++ q →
    0 ≤ Task.retryCount k
    ∧ (0 ≤ Task.maxRetries k → Task.retryCount k ≤ Task.maxRetries k);
  ri_queue : ∀ k, k ∈ q →
    Z.of_nat (attempts (Task.id k) ns) = Task.retryCount k
    ∧ failures (Task.id k) ns = 0%nat;
  ri_await : ∀ k, k ∈ aw →
    Z.of_nat (attempts (Task.id k) ns) = Task.retryCount k + 1
    ∧ failures (Task.id k) ns = 0%nat;
  ri_failed : ∀ k e, taskFailed k e ∈ ns →
    (Task.id k ∉ taskIds (aw ++ q))
    ∧ Z.of_nat (attempts (Task.id k) ns) = Task.retryCount k + 1
    ∧ failures (Task.id k) ns = 1%nat
    ∧ Task.maxRetries k ≤ Task.retryCount k
    ∧ (0 ≤ Task.maxRetries k → Task.retryCount k = Task.maxRetries k);
  ri_unissued : ∀ i, i ∉ U → attempts i ns = 0%nat ∧ failures i ns = 0%nat
}.

Definition retry_wf (U : gset string) (s : State) : Prop :=
  retry_inv U (awaiting s) (taskQueue s) (notices s).

(** The promise of [executeTask] rejects. *)
Definition rejects (k : Task.t) (c : ChildOutcome) : bool :=
  match executeTask k c with
  | inr _ => true
  | inl _ => false
  end.

(** One round per further attempt: the retry timer fires and dispatches
    the task, then its execution settles. *)
Definition retryRounds (children : list ChildOutcome) : list Action :=
  children ≫= (fun c => [TimerFires; Settle 0 c]).

(** The notices of [n] retries of task [k]. *)
Fixpoint retryNotices (k : Task.t) (n : nat) : list Notice :=
  match n with
  | O => []
  | S n' =>
      retrying (Task.retried k) :: taskStarted (Task.retried k)
      :: retryNotices (Task.retried k) n'
  end.

Definition isProbeWrite (a : Action) : bool :=
  match a with
  | ProbeWrites _ => true
  | _ => false
  end.

(** All four attempts of the task of an unknown type. *)
Definition bogusToTheEnd : list Action :=
  bogusFirstAttempt ++ retryRounds [exitedOk; exitedOk; exitedOk].

(** ** Example reports *)

(** A performance report as the probe writes it: one result per target,
    here a single target. *)
Definition performanceRun (score loadTime stamp : Z) : JsVal :=
  JArr [ JObj [ ("url", JStr "https://localhost:8443");
                ("name", JStr "local");
                ("timestamp", JNum stamp);
                ("loadTime", JNum loadTime);
                ("performanceScore",
                 JObj [("score", JNum score); ("category", JStr "fair")]);
                ("status", JStr "success") ] ].

(** The result that the probe records for a target whose page failed to
    load: no [loadTime], no [performanceScore]. *)
Definition performanceRunFailed : JsVal :=
  JArr [ JObj [ ("url", JStr "https://localhost:8443");
                ("name", JStr "local");
                ("error", JStr "net::ERR_CONNECTION_REFUSED");
                ("status", JStr "failed") ] ].

(** Three performance reports, listed out of order: scores 50, 70, 60 at
    times t1 < t2 < t3. *)
Definition threeRuns : list ReportFile :=
  [ ("performance_1700000002000.json", Some (performanceRun 70 1520 1700000001990));
    ("performance_1700000003000.json", Some (performanceRun 60 1840 1700000002990));
    ("performance_1700000001000.json", Some (performanceRun 50 2310 1700000000990)) ].

(** A fourth, later report whose first result is a failed target. *)
Definition fourRuns : list ReportFile :=
  threeRuns ++ [("performance_1700000004000.json", Some performanceRunFailed)].

(** The task that a firing of a timer enqueues. *)
Definition firedTask (tm : IntervalTimer) (idNow : Z) (suffix : string)
    (now : Z) : Task.t :=
  newTask (generateTaskId idNow suffix) (timerTask tm) (timerOptions tm) now.


(** ** Two reports in a row *)

Definition notComprehensive (type : string) : bool :=
  negb (String.eqb type "comprehensive").

(** The groups of a report other than the group of the comprehensive
    reports themselves. *)
Definition otherGroups (groups : list (string * list ReportEntry))
  : list (string * list ReportEntry) :=
  List.filter (fun g => notComprehensive (fst g)) groups.

(** The files other than comprehensive reports. *)
Definition otherFiles (dir : list ReportFile) : list ReportFile :=
  List.filter (fun f => notComprehensive (typeOfReport (fst f))) dir.

(** The content has a truthy [timestamp] of its own, or reading its
    [timestamp] throws: [generateReport] does not consult the clock for
    it. *)
Definition ownTimestamp (content : JsVal) : bool :=
  match strictMember content "timestamp" with
  | Some ts => truthy ts
  | None => true
  end.

Definition stampedFile (f : ReportFile) : bool :=
  match snd f with
  | Some content => ownTimestamp content
  | None => true
  end.

(** The first loop of [generateReport] where no file needs the clock. *)
Definition collectStamped (groups : list (string * list ReportEntry))
    (f : ReportFile) : list (string * list ReportEntry) :=
  fst (collectStep (fun _ => 0) (groups, O) f).

Definition groupNames (groups : list (string * list ReportEntry))
  : list string :=
  List.map fst groups.

Definition filesOfGroup (type : string)
    (groups : list (string * list ReportEntry)) : list string :=
  List.map file (default [] (lookupField type groups)).

(** A visual regression report: an object with a timestamp of its own. *)
Definition visualRun (stamp : Z) : JsVal :=
  JObj [("timestamp", JNum stamp); ("comparisons", JArr [])].

Definition oneVisualRun : list ReportFile :=
  [("visual_regression_1700000001000.json", Some (visualRun 1700000000990))].

(** Three visual regression reports, listed out of order. *)
Definition threeVisualRuns : list ReportFile :=
  [ ("visual_regression_1700000002000.json", Some (visualRun 1700000001990));
    ("visual_regression_1700000003000.json", Some (visualRun 1700000002990));
    ("visual_regression_1700000001000.json", Some (visualRun 1700000000990)) ].

(** A clock that advances by one millisecond per reading. *)
Definition tickingClock : Clock := fun i => 1700000005000 + Z.of_nat i.

(** [generateReport()] called twice in a row: the [reports] of the first
    and of the second call. *)
Definition reportsTwice (clock : Clock) (tick : nat) (dir : list ReportFile)
  : list (string * list ReportEntry) * list (string * list ReportEntry) :=
  let '(r1, dir1, tick1) := generateReport clock tick dir in
  let '(r2, _, _) := generateReport clock tick1 dir1 in
  (reports r1, reports r2).

(** ** Accounting of tasks and slots *)

Definition isCompletion (n : Notice) : bool :=
  match n with
  | taskCompleted _ _ => true
  | _ => false
  end.

Definition isTerminalFailure (n : Notice) : bool :=
  match n with
  | taskFailed _ _ => true
  | _ => false
  end.

Definition completions (ns : list Notice) : nat :=
  length (List.filter isCompletion ns).

Definition terminalFailures (ns : list Notice) : nat :=
  length (List.filter isTerminalFailure ns).

(** The tasks that the orchestrator has taken and not yet lost sight of:
    queued, in execution, completed or failed for good. *)
Definition accounted (s : State) : nat :=
  (length (taskQueue s) + length (awaiting s)
   + completions (notices s) + terminalFailures (notices s))%nat.

(** The task as [queueTask] built it: a retry changes the retry count of
    the task object and nothing else. *)
Definition asEnqueued (k : Task.t) : Task.t :=
  Task.mk (Task.id k) (Task.type k) (Task.options k) (Task.priority k) 0
          (Task.maxRetries k) (Task.createdAt k).

(** The tasks whose completion and whose terminal failure were announced,
    oldest first. *)
Definition completedTasks (ns : list Notice) : list Task.t :=
  omap (fun n => match n with taskCompleted k _ => Some k | _ => None end) ns.

Definition failedTasks (ns : list Notice) : list Task.t :=
  omap (fun n => match n with taskFailed k _ => Some k | _ => None end) ns.

(** Where the tasks are: in the queue, in execution, completed, or failed
    for good. *)
Definition whereabouts (s : State) : list Task.t :=
  taskQueue s ++ awaiting s
  ++ completedTasks (notices s) ++ failedTasks (notices s).

(** The queued tasks that could run at once: as many as there are free
    slots, at most. *)
Definition idleSlots (s : State) : nat :=
  Nat.min (maxConcurrentTasks s - length (awaiting s)) (length (taskQueue s)).

Definition isEnqueue (a : Action) : bool :=
  match a with
  | Enqueue _ _ _ _ _ => true
  | _ => false
  end.

(** The task of [occupySlot] and the orchestrator with one slot, taken by
    it. *)
Definition allTask : Task.t :=
  newTask (generateTaskId 1700000000000 "q1w2e3r4t") "all" (withPriority 7)
          1700000000000.

Definition occupiedState : State :=
  mkState [] {[Task.id allTask := allTask]} 1 [allTask] 0 [taskStarted allTask] [].

(** The orchestrator after [retryBeforeUrgent]: the failed task is back
    at the head of the queue and its retry timer is pending. *)
Definition retryPendingState : State :=
  mkState [Task.retried slowTask; urgentTask] ∅ 1 [] 1
          [taskStarted slowTask; retrying (Task.retried slowTask)] [].

(** ** Names *)

Fixpoint hasUnderscore (s : string) : bool :=
  match s with
  | EmptyString => false
  | String c rest => Ascii.eqb c "_"%char || hasUnderscore rest
  end.

(** What follows the first underscore of a name. *)
Fixpoint afterUnderscore (name : string) : string :=
  match name with
  | EmptyString => EmptyString
  | String c rest =>
      if Ascii.eqb c "_"%char then rest else afterUnderscore rest
  end.

(** The fields of the status that belong to a report type. *)
Definition statusKeys (type : string) : list string :=
  if String.eqb type "performance" then ["perf-score"; "perf-load"]
  else if String.eqb type "security" then ["security-score"; "security-vulns"]
  else if String.eqb type "content" then ["ai-content"; "ai-seo"]
  else [].

(** What the second loop of [getStatus] assigns for one entry of
    [latestReports]: nothing when the file cannot be read or the [try]
    block throws. *)
Definition statusOf (dir : list ReportFile) (entry : string * string)
  : list (string * JsVal) :=
  match readReport dir (snd entry) with
  | Some reportData => default [] (statusFields (fst entry) reportData)
  | None => []
  end.

(** The field [key] that [getStatus] derives from the content of a file
    of the given type: none when the file cannot be read or the [try]
    block throws. *)
Definition fieldOfReport (type key : string) (content : option JsVal)
  : option JsVal :=
  match content with
  | Some reportData =>
      match statusFields type reportData with
      | Some updates => lookupField key updates
      | None => None
      end
  | None => None
  end.

(** The first loop of [getStatus] after the names [seen]: every type seen
    has its greatest name, and no other type has one. *)
Definition latest_inv (seen : list string) (acc : list (string * string))
  : Prop :=
  (∀ t n, lookupField t acc = Some n →
          n ∈ seen ∧ typeOfReport n = t
          ∧ ∀ m, m ∈ seen → typeOfReport m = t → String.leb m n = true)
  ∧ (∀ t, lookupField t acc = None → ∀ m, m ∈ seen → typeOfReport m ≠ t)
  ∧ NoDup (fst <$> acc).

(** ** Vocabulary of the comprehensive report *)

(** All the entries of a report, group after group. *)
Definition entriesOf (groups : list (string * list ReportEntry))
  : list ReportEntry :=
  concat (snd <$> groups).

(** A file that the first loop of [generateReport] lists: it can be read,
    its type is not a name inherited from [Object.prototype], and reading
    its [timestamp] does not throw. *)
Definition listed (f : ReportFile) : bool :=
  match snd f with
  | Some content =>
      negb (bool_decide (typeOfReport (fst f) ∈ inheritedNames))
      && match strictMember content "timestamp" with
         | Some _ => true
         | None => false
         end
  | None => false
  end.

(** The groups collected from the files [seen]: each entry is a file of
    [seen] under its type, each listed file of [seen] has its entry, and
    there are no more entries than files. *)
Definition collect_inv (seen : list ReportFile)
    (groups : list (string * list ReportEntry)) : Prop :=
  NoDup (fst <$> groups)
  ∧ (∀ type g e, lookupField type groups = Some g → e ∈ g →
                 typeOfReport (file e) = type
                 ∧ (file e, Some (data e)) ∈ seen)
  ∧ (∀ f, f ∈ seen → listed f = true →
          ∃ g e, lookupField (typeOfReport (fst f)) groups = Some g
                 ∧ e ∈ g ∧ file e = fst f ∧ snd f = Some (data e))
  ∧ (length (entriesOf groups) ≤ length seen)%nat.

(** The timestamp of an entry as a number, when it is one. *)
Definition stampOf (e : ReportEntry) : Z := default 0 (toNumber (timestamp e)).

Definition numericStamp (e : ReportEntry) : Prop :=
  is_Some (toNumber (timestamp e)).

Definition newerFirst (a b : ReportEntry) : Prop := stampOf b ≤ stampOf a.

(** ** Terminal outcomes *)

(** The notice is the terminal outcome of the task with id [i]. *)
Definition isOutcomeOf (i : string) (n : Notice) : bool :=
  match n with
  | taskCompleted k _ | taskFailed k _ => String.eqb (Task.id k) i
  | _ => false
  end.

Definition outcomes (i : string) (ns : list Notice) : nat :=
  length (List.filter (isOutcomeOf i) ns).

(** A task that is queued or in execution has no outcome yet, no id has
    more than one outcome, and an id that was not handed out has none. *)
Definition outcome_inv (U : gset string) (s : State) : Prop :=
  (∀ k, k ∈ awaiting s ++ taskQueue s → outcomes (Task.id k) (notices s) = 0%nat)
  ∧ (∀ i, (outcomes i (notices s) ≤ 1)%nat)
  ∧ (∀ i, i ∉ U → outcomes i (notices s) = 0%nat).

(** ** The configuration as it is parsed from disk *)

(** [Object.entries(v)]; [None] when it throws, on [null] and [undefined].
    An object gives its own fields in the order of enumeration, an array
    and a string (of ASCII characters) their items under their indices;
    numbers and booleans have no entries. *)
Definition objectEntries (v : JsVal) : option (list (string * JsVal)) :=
  match v with
  | JUndefined | JNull => None
  | JObj fields => Some (propertyOrder fields)
  | JArr items => Some (imap (fun i x => (decimal (Z.of_nat i), x)) items)
  | JStr s =>
      Some (imap (fun i c => (decimal (Z.of_nat i), JStr (String c "")))
                 (String.list_ascii_of_string s))
  | JBool _ | JNum _ => Some []
  end.

(** The object that [loadConfig] builds when [orchestrator_config.json]
    cannot be read or parsed. *)
Definition defaultConfig : JsVal :=
  JObj
    [ ("scheduling",
       JObj [ ("healthCheck",
               JObj [("interval", JNum 300); ("enabled", JBool true)]);
              ("securityScan",
               JObj [("interval", JNum 3600); ("enabled", JBool true)]);
              ("performanceTest",
               JObj [("interval", JNum 1800); ("enabled", JBool true)]);
              ("contentAnalysis",
               JObj [("interval", JNum 7200); ("enabled", JBool true)]);
              ("visualRegression",
               JObj [("interval", JNum 86400); ("enabled", JBool true)]) ]);
      ("notifications",
       JObj [("webhook", JNull); ("email", JNull); ("slack", JNull)]);
      ("thresholds",
       JObj [ ("performanceScore", JNum 70); ("securityScore", JNum 80);
              ("contentScore", JNum 60) ]);
      ("ai",
       JObj [ ("enablePredictiveAnalytics", JBool true);
              ("enableAnomalyDetection", JBool true);
              ("learningMode", JBool true) ]) ].

(** A [setInterval] call of [startScheduler] on the parsed configuration:
    the delay [schedule.interval * 1000], [None] when it is NaN, and the
    arguments of the [queueTask] call of the callback. *)
Record ArmedInterval := mkArmed {
  delay : option Z;
  armedTask : string;
  armedOptions : Options.t
}.

(** How a call ends. *)
Inductive Completion := Returned | Threw.

Module Parsed.

(** [loadConfig()]: [configFile] is what [JSON.parse] makes of the file,
    [None] when reading or parsing throws.  The result is [this.config]
    and, when the default is taken, the content written back to the file
    (the write is taken to succeed). *)
Definition loadConfig (configFile : option JsVal) : JsVal * option JsVal :=
  match configFile with
  | Some config => (config, None)
  | None => (defaultConfig, Some defaultConfig)
  end.

(** The [forEach] of [startScheduler] over the entries: the timers armed,
    in order, up to the entry on which [schedule.enabled] throws. *)
Fixpoint armAll (entries : list (string * JsVal))
  : list ArmedInterval * Completion :=
  match entries with
  | [] => ([], Returned)
  | (taskType, schedule) :: rest =>
      match strictMember schedule "enabled" with
      | None => ([], Threw)
      | Some isEnabled =>
          if truthy isEnabled then
            let tm := mkArmed (Z.mul 1000 <$> toNumber (member schedule "interval"))
                              taskType (Options.mk (Some 3) None None) in
            (tm :: fst (armAll rest), snd (armAll rest))
          else armAll rest
      end
  end.

(** [startScheduler()] on [this.config]. *)
Definition startScheduler (config : JsVal) : list ArmedInterval * Completion :=
  match strictMember config "scheduling" with
  | None => ([], Threw)
  | Some scheduling =>
      match objectEntries scheduling with
      | None => ([], Threw)
      | Some entries => armAll entries
      end
  end.

End Parsed.

(** The JSON of a schedule table, and the timer of the table read as the
    [setInterval] call that arms it. *)
Definition scheduleJson (e : ScheduleEntry) : JsVal :=
  JObj ([("interval", JNum (interval e)); ("enabled", JBool (enabled e))]
        ++ match entryPriority e with
           | Some p => [("priority", JNum p)]
           | None => []
           end).

Definition schedulingJson (table : list (string * ScheduleEntry)) : JsVal :=
  JObj (prod_map id scheduleJson <$> table).

Definition armed (tm : IntervalTimer) : ArmedInterval :=
  mkArmed (Some (periodMs tm)) (timerTask tm) (timerOptions tm).

(** A configuration that holds the table under [scheduling], whatever its
    other fields. *)
Definition configWith (scheduling : JsVal) (others : list (string * JsVal))
  : JsVal :=
  JObj (("scheduling", scheduling) :: others).

(** ** The probe: what [advanced_ai_automation.js] measures and scores

    The measures that the probe counts are integers: milliseconds between
    two readings of [Date.now()], numbers of requests, bytes.  The largest
    contentful paint is a high-resolution time and the size in megabytes a
    quotient; both are rationals here. *)

(** [x > c] on numbers. *)
Definition above (x : Q) (c : Z) : bool := negb (Qle_bool x (inject_Z c)).

Module ResourceAnalysis.
(** [byType] keeps, per initiator type, the [count] of the resources. *)
Record t := mk {
  totalRequests : Z;
  totalSize : Z;
  byType : list (string * Z)
}.
End ResourceAnalysis.

(** What [calculatePerformanceScore] and
    [generatePerformanceRecommendations] read of [data]: [loadTime],
    [resourceAnalysis] and [webVitals.lcp]. *)
Module PerformanceData.
Record t := mk {
  loadTime : Z;
  resourceAnalysis : ResourceAnalysis.t;
  lcp : Q
}.
End PerformanceData.

Module PerformanceScore.
Record t := mk {
  score : Z;
  category : string;
  recommendations : list string
}.
End PerformanceScore.

(** [data.resourceAnalysis.totalSize / 1024 / 1024] *)
Definition totalSizeMB (data : PerformanceData.t) : Q :=
  (inject_Z (ResourceAnalysis.totalSize (PerformanceData.resourceAnalysis data))
   / inject_Z 1024 / inject_Z 1024)%Q.

(** [byType.<type>?.count > c] *)
Definition countAbove (type : string) (c : Z) (data : PerformanceData.t)
  : bool :=
  match lookupField type
          (ResourceAnalysis.byType (PerformanceData.resourceAnalysis data)) with
  | Some n => c <? n
  | None => false
  end.

(** [recommendations.push(r)] under a condition. *)
Definition pushIf {A} (c : bool) (r : A) (l : list A) : list A :=
  if c then l ++ [r] else l.

Definition generatePerformanceRecommendations (data : PerformanceData.t)
  : list string :=
  let requests :=
    ResourceAnalysis.totalRequests (PerformanceData.resourceAnalysis data) in
  let recommendations := [] in
  let recommendations :=
    pushIf (3000 <? PerformanceData.loadTime data)
           "Optimize page load time - currently over 3 seconds"
           recommendations in
  let recommendations :=
    pushIf (50 <? requests) "Reduce number of HTTP requests" recommendations in
  let recommendations :=
    pushIf (above (totalSizeMB data) 2)
           "Optimize resource sizes - consider compression" recommendations in
  let recommendations :=
    pushIf (countAbove "script" 10 data)
           "Consider bundling JavaScript files" recommendations in
  let recommendations :=
    pushIf (countAbove "img" 20 data)
           "Optimize images - consider lazy loading" recommendations in
  recommendations.

Definition calculatePerformanceScore (data : PerformanceData.t)
  : PerformanceScore.t :=
  let loadTime := PerformanceData.loadTime data in
  let requests :=
    ResourceAnalysis.totalRequests (PerformanceData.resourceAnalysis data) in
  let lcp := PerformanceData.lcp data in
  let score := 100 in
  (* Load time scoring *)
  let score :=
    if 3000 <? loadTime then score - 20
    else if 2000 <? loadTime then score - 10
    else if 1000 <? loadTime then score - 5
    else score in
  (* Resource count scoring *)
  let score :=
    if 100 <? requests then score - 15
    else if 50 <? requests then score - 10
    else score in
  (* Total size scoring *)
  let score :=
    if above (totalSizeMB data) 5 then score - 15
    else if above (totalSizeMB data) 2 then score - 10
    else if above (totalSizeMB data) 1 then score - 5
    else score in
  (* LCP scoring *)
  let score :=
    if above lcp 4000 then score - 20
    else if above lcp 2500 then score - 10
    else score in
  PerformanceScore.mk
    (Z.max score 0)
    (if 90 <=? score then "excellent"
     else if 70 <=? score then "good"
     else if 50 <=? score then "fair"
     else "poor")
    (generatePerformanceRecommendations data).

(** A result of [performanceBenchmark] for a target that loaded, as
    [JSON.parse] reads it back from the report file: the fields that
    [getStatus] looks at hold the load time and the score. *)
Definition performanceScoreJson (s : PerformanceScore.t) : JsVal :=
  JObj [ ("score", JNum (PerformanceScore.score s));
         ("category", JStr (PerformanceScore.category s));
         ("recommendations", JArr (JStr <$> PerformanceScore.recommendations s)) ].

Definition recordsPerformance (fields : list (string * JsVal))
    (data : PerformanceData.t) : Prop :=
  lookupField "loadTime" fields = Some (JNum (PerformanceData.loadTime data))
  ∧ lookupField "performanceScore" fields
    = Some (performanceScoreJson (calculatePerformanceScore data)).

(** One page is no better than another in any measure that is scored. *)
Definition noBetter (d d' : PerformanceData.t) : Prop :=
  PerformanceData.loadTime d ≤ PerformanceData.loadTime d'
  ∧ ResourceAnalysis.totalRequests (PerformanceData.resourceAnalysis d)
    ≤ ResourceAnalysis.totalRequests (PerformanceData.resourceAnalysis d')
  ∧ ResourceAnalysis.totalSize (PerformanceData.resourceAnalysis d)
    ≤ ResourceAnalysis.totalSize (PerformanceData.resourceAnalysis d')
  ∧ (PerformanceData.lcp d <= PerformanceData.lcp d')%Q.

Definition fastPage : PerformanceData.t :=
  PerformanceData.mk 640 (ResourceAnalysis.mk 12 350000 [("script", 4)])
                     (inject_Z 900).

Definition slowPage : PerformanceData.t :=
  PerformanceData.mk 3400
    (ResourceAnalysis.mk 140 6800000 [("script", 31); ("img", 64)])
    (Qmake 90011 2).

(** The four deductions of [calculatePerformanceScore], each by its own
    measure. *)
Definition loadTimePenalty (data : PerformanceData.t) : Z :=
  let loadTime := PerformanceData.loadTime data in
  if 3000 <? loadTime then 20
  else if 2000 <? loadTime then 10
  else if 1000 <? loadTime then 5
  else 0.

Definition requestsPenalty (data : PerformanceData.t) : Z :=
  let requests :=
    ResourceAnalysis.totalRequests (PerformanceData.resourceAnalysis data) in
  if 100 <? requests then 15 else if 50 <? requests then 10 else 0.

Definition sizePenalty (data : PerformanceData.t) : Z :=
  if above (totalSizeMB data) 5 then 15
  else if above (totalSizeMB data) 2 then 10
  else if above (totalSizeMB data) 1 then 5
  else 0.

Definition lcpPenalty (data : PerformanceData.t) : Z :=
  if above (PerformanceData.lcp data) 4000 then 20
  else if above (PerformanceData.lcp data) 2500 then 10
  else 0.

(** *** The content score *)

(** A string of the page, as its sequence of UTF-16 code units: [.length]
    is the length of the sequence, and the string is truthy when the
    sequence is not empty. *)
Definition Text : Type := list N.

Definition textLength (t : Text) : Z := Z.of_nat (length t).

Definition nonEmpty (t : Text) : bool :=
  match t with
  | [] => false
  | _ :: _ => true
  end.

Module Image.
Record t := mk {
  src : Text;
  alt : Text
}.
End Image.

(** What [calculateAIScore] and [generateRecommendations] read of
    [pageData]: [seo.title], [seo.metaDescription], [seo.hasH1],
    [content.wordCount], [content.headings] (tag and text),
    [content.images], [technical.scripts] and [technical.stylesheets]. *)
Module PageData.
Record t := mk {
  title : Text;
  metaDescription : Text;
  hasH1 : bool;
  wordCount : Z;
  headings : list (Text * Text);
  images : list Image.t;
  scripts : Z;
  stylesheets : Z
}.
End PageData.

(** The result of [calculateAIScore] and of [calculateSecurityScore]. *)
Module Score.
Record t := mk {
  score : Z;
  percentage : Z;
  category : string
}.
End Score.

(** [Math.round((Math.min(score, maxScore) / maxScore) * 100)]: the
    quotient is taken exactly and rounded half up.  On the integers up to
    [maxScore] that the scores are, the error of the double-precision
    quotient is far below the half that the rounding absorbs. *)
Definition percentageOf (score maxScore : Z) : Z :=
  Qfloor (inject_Z (Z.min score maxScore) / inject_Z maxScore * inject_Z 100
          + Qmake 1 2)%Q.

Definition imagesWithAlt (pageData : PageData.t) : list Image.t :=
  List.filter (fun img => nonEmpty (Image.alt img)) (PageData.images pageData).

Definition imagesWithoutAlt (pageData : PageData.t) : list Image.t :=
  List.filter (fun img => negb (nonEmpty (Image.alt img)))
              (PageData.images pageData).

Definition calculateAIScore (pageData : PageData.t) : Score.t :=
  let title := PageData.title pageData in
  let metaDescription := PageData.metaDescription pageData in
  let images := PageData.images pageData in
  let score := 0 in
  let maxScore := 100 in
  (* SEO scoring *)
  let score :=
    if nonEmpty title && (10 <? textLength title) then score + 15 else score in
  let score :=
    if nonEmpty metaDescription && (50 <? textLength metaDescription)
    then score + 15 else score in
  let score := if PageData.hasH1 pageData then score + 10 else score in
  (* Content quality *)
  let score :=
    if 300 <? PageData.wordCount pageData then score + 20 else score in
  let score :=
    if (2 <? length (PageData.headings pageData))%nat then score + 10
    else score in
  let score := if (0 <? length images)%nat then score + 10 else score in
  (* Technical performance *)
  let score := if PageData.scripts pageData <? 10 then score + 10 else score in
  let score :=
    if PageData.stylesheets pageData <? 5 then score + 5 else score in
  (* Accessibility *)
  let score :=
    if (length (imagesWithAlt pageData) =? length images)%nat
       && (0 <? length images)%nat
    then score + 5 else score in
  Score.mk
    (Z.min score maxScore)
    (percentageOf score maxScore)
    (if 80 <=? score then "excellent"
     else if 60 <=? score then "good"
     else if 40 <=? score then "fair"
     else "poor").

Module Recommendation.
Record t := mk {
  type : string;
  priority : string;
  message : string
}.
End Recommendation.

Definition generateRecommendations (pageData : PageData.t)
  : list Recommendation.t :=
  let title := PageData.title pageData in
  let metaDescription := PageData.metaDescription pageData in
  let recommendations := [] in
  (* SEO recommendations *)
  let recommendations :=
    pushIf (negb (nonEmpty title) || (textLength title <? 30))
           (Recommendation.mk "seo" "high"
              "Optimize page title (30-60 characters recommended)")
           recommendations in
  let recommendations :=
    pushIf (negb (nonEmpty metaDescription)
            || (textLength metaDescription <? 120))
           (Recommendation.mk "seo" "high"
              "Add or improve meta description (120-160 characters)")
           recommendations in
  let recommendations :=
    pushIf (negb (PageData.hasH1 pageData))
           (Recommendation.mk "seo" "medium"
              "Add H1 heading for better SEO structure")
           recommendations in
  (* Performance recommendations *)
  let recommendations :=
    pushIf (15 <? PageData.scripts pageData)
           (Recommendation.mk "performance" "medium"
              "Consider reducing number of JavaScript files")
           recommendations in
  (* Accessibility recommendations *)
  let withoutAlt := length (imagesWithoutAlt pageData) in
  let recommendations :=
    pushIf (0 <? withoutAlt)%nat
           (Recommendation.mk "accessibility" "high"
              ("Add alt attributes to " +:+ decimal (Z.of_nat withoutAlt)
               +:+ " images"))
           recommendations in
  (* Content recommendations *)
  let recommendations :=
    pushIf (PageData.wordCount pageData <? 300)
           (Recommendation.mk "content" "low"
              "Consider adding more content for better SEO")
           recommendations in
  recommendations.

(** The score as [JSON.parse] reads it back from a report file. *)
Definition scoreJson (s : Score.t) : JsVal :=
  JObj [ ("score", JNum (Score.score s));
         ("percentage", JNum (Score.percentage s));
         ("category", JStr (Score.category s)) ].

(** Nothing on the page earns a point. *)
Definition earnsNothing (p : PageData.t) : Prop :=
  textLength (PageData.title p) ≤ 10
  ∧ textLength (PageData.metaDescription p) ≤ 50
  ∧ PageData.hasH1 p = false
  ∧ PageData.wordCount p ≤ 300
  ∧ (length (PageData.headings p) ≤ 2)%nat
  ∧ PageData.images p = []
  ∧ 10 ≤ PageData.scripts p
  ∧ 5 ≤ PageData.stylesheets p.

(** A text of [n] letters. *)
Definition letters (n : nat) : Text := replicate n 97%N.

(** A page of scripts and style sheets without a word of content. *)
Definition barePage : PageData.t :=
  PageData.mk [] [] false 1 [] [] 24 6.

(** A page that earns every point, with a title of 18 letters. *)
Definition fullPage : PageData.t :=
  PageData.mk (letters 18) (letters 140) true 812
              [(letters 2, letters 9); (letters 2, letters 7);
               (letters 2, letters 12)]
              [Image.mk (letters 20) (letters 6)] 4 2.

(** A page without a recommendation that earns the SEO points only. *)
Definition plainPage : PageData.t :=
  PageData.mk (letters 42) (letters 130) true 300 [] [] 12 7.

(** *** The security score *)

(** The headers of the main response, [response.headers()]: an object of
    strings under lower-case names. *)
Definition Headers : Type := list (string * string).

(** [headers[name]] is truthy: the header is there and is not empty. *)
Definition hasHeader (headers : Headers) (name : string) : bool :=
  match lookupField name headers with
  | Some v => negb (String.eqb v "")
  | None => false
  end.

(** [toLowerCase()] on a string of ASCII characters. *)
Definition lowerAscii (c : ascii) : ascii :=
  let n := nat_of_ascii c in
  if (65 <=? n)%nat && (n <=? 90)%nat then ascii_of_nat (n + 32) else c.

Fixpoint toLowerCase (s : string) : string :=
  match s with
  | EmptyString => EmptyString
  | String c rest => String (lowerAscii c) (toLowerCase rest)
  end.

(** [hay.includes(needle)] *)
Fixpoint includes (needle hay : string) : bool :=
  String.prefix needle hay
  || match hay with
     | EmptyString => false
     | String _ rest => includes needle rest
     end.

Module HeaderAnalysis.
Record t := mk {
  score : Z;
  issues : list string;
  recommendations : list string
}.
End HeaderAnalysis.

(** The table [securityHeaders] of [analyzeSecurityHeaders], in the order
    of [Object.entries]. *)
Definition securityHeaders : list (string * string) :=
  [ ("x-frame-options", "X-Frame-Options header prevents clickjacking");
    ("x-content-type-options", "X-Content-Type-Options prevents MIME sniffing");
    ("x-xss-protection", "X-XSS-Protection enables XSS filtering");
    ("strict-transport-security", "HSTS enforces secure connections");
    ("content-security-policy", "CSP prevents various attacks");
    ("referrer-policy", "Referrer-Policy controls referrer information");
    ("permissions-policy", "Permissions-Policy controls browser features") ].

(** The callback of the [forEach] of [analyzeSecurityHeaders]. *)
Definition checkHeader (headers : Headers) (analysis : HeaderAnalysis.t)
    (entry : string * string) : HeaderAnalysis.t :=
  let '(header, description) := entry in
  if hasHeader headers header || hasHeader headers (toLowerCase header)
  then HeaderAnalysis.mk (HeaderAnalysis.score analysis + 10)
                         (HeaderAnalysis.issues analysis)
                         (HeaderAnalysis.recommendations analysis)
  else HeaderAnalysis.mk
         (HeaderAnalysis.score analysis)
         (HeaderAnalysis.issues analysis ++ ["Missing " +:+ header])
         (HeaderAnalysis.recommendations analysis
          ++ ["Add " +:+ header +:+ ": " +:+ description]).

Definition analyzeSecurityHeaders (headers : Headers) : HeaderAnalysis.t :=
  fold_left (checkHeader headers) securityHeaders (HeaderAnalysis.mk 0 [] []).

(** The result of [analyzeCSP], without the list [directives] of the
    policy (split at [;] and trimmed), which no score reads. *)
Module CspAnalysis.
Record t := mk {
  present : bool;
  score : Z;
  issues : list string;
  recommendations : list string
}.
End CspAnalysis.

(** [headers['content-security-policy'] ||
     headers['content-security-policy-report-only']] *)
Definition cspOf (headers : Headers) : option string :=
  if hasHeader headers "content-security-policy"
  then lookupField "content-security-policy" headers
  else lookupField "content-security-policy-report-only" headers.

Definition analyzeCSP (headers : Headers) : CspAnalysis.t :=
  let absent :=
    CspAnalysis.mk false 0 ["No Content Security Policy found"]
                   ["Implement Content Security Policy"] in
  match cspOf headers with
  | None => absent
  | Some csp =>
      if String.eqb csp "" then absent
      else
        (* Base score for having CSP *)
        let analysis := CspAnalysis.mk true 50 [] [] in
        (* Check for unsafe directives *)
        let analysis :=
          if includes "'unsafe-inline'" csp
          then CspAnalysis.mk true (CspAnalysis.score analysis - 20)
                 (CspAnalysis.issues analysis ++ ["CSP allows unsafe-inline"])
                 (CspAnalysis.recommendations analysis)
          else analysis in
        let analysis :=
          if includes "'unsafe-eval'" csp
          then CspAnalysis.mk true (CspAnalysis.score analysis - 20)
                 (CspAnalysis.issues analysis ++ ["CSP allows unsafe-eval"])
                 (CspAnalysis.recommendations analysis)
          else analysis in
        let analysis :=
          if includes "*" csp
          then CspAnalysis.mk true (CspAnalysis.score analysis - 10)
                 (CspAnalysis.issues analysis
                  ++ ["CSP uses wildcard (*) which is too permissive"])
                 (CspAnalysis.recommendations analysis)
          else analysis in
        analysis
  end.

(** [calculateSecurityScore]; [cspAnalysis.score * 0.5] is the half of a
    score that [analyzeCSP] always gives as a multiple of ten, so the
    points stay integers. *)
Definition calculateSecurityScore (headerAnalysis : HeaderAnalysis.t)
    (cspAnalysis : CspAnalysis.t) (jsIssues formIssues : list string)
  : Score.t :=
  let score := 0 in
  let maxScore := 100 in
  (* Security headers (40 points max) *)
  let score := score + Z.min (HeaderAnalysis.score headerAnalysis) 40 in
  (* CSP analysis (25 points max) *)
  let score := score + Z.min (CspAnalysis.score cspAnalysis / 2) 25 in
  (* JavaScript security (20 points max) *)
  let score := score + Z.max (20 - Z.of_nat (length jsIssues) * 5) 0 in
  (* Form security (15 points max) *)
  let score := score + Z.max (15 - Z.of_nat (length formIssues) * 5) 0 in
  Score.mk
    (Z.min score maxScore)
    (percentageOf score maxScore)
    (if 80 <=? score then "secure"
     else if 60 <=? score then "moderate"
     else if 40 <=? score then "vulnerable"
     else "critical").

(** The score that [advancedSecurityScan] records for a target: both
    analyses read the headers of the main response. *)
Definition securityScoreOf (headers : Headers)
    (jsIssues formIssues : list string) : Score.t :=
  calculateSecurityScore (analyzeSecurityHeaders headers) (analyzeCSP headers)
                         jsIssues formIssues.

(** The names of [securityHeaders] that the response lacks. *)
Definition missingHeaders (headers : Headers) : list string :=
  List.filter (fun header => negb (hasHeader headers header))
              (fst <$> securityHeaders).


(** A policy sent for reporting only. *)
Definition reportOnlyHeaders : Headers :=
  [ ("content-type", "text/html");
    ("x-frame-options", "DENY");
    ("x-content-type-options", "nosniff");
    ("strict-transport-security", "max-age=31536000");
    ("referrer-policy", "no-referrer");
    ("permissions-policy", "camera=()");
    ("content-security-policy-report-only", "default-src 'self'") ].

(** Every header but a policy. *)
Definition noPolicyHeaders : Headers :=
  [ ("x-frame-options", "DENY");
    ("x-content-type-options", "nosniff");
    ("x-xss-protection", "1; mode=block");
    ("strict-transport-security", "max-age=31536000");
    ("referrer-policy", "no-referrer");
    ("permissions-policy", "camera=()") ].


(** The points of [calculateSecurityScore] before the cap. *)
Definition securityPoints (headers : Headers)
    (jsIssues formIssues : list string) : Z :=
  Z.min (HeaderAnalysis.score (analyzeSecurityHeaders headers)) 40
  + Z.min (CspAnalysis.score (analyzeCSP headers) / 2) 25
  + Z.max (20 - Z.of_nat (length jsIssues) * 5) 0
  + Z.max (15 - Z.of_nat (length formIssues) * 5) 0.

(** * Properties of the queue and the dispatcher *)

Lemma insertByPriority_perm k q : insertByPriority k q ≡ₚ k :: q.
Proof.
  induction q as [|h q IH]; simpl; [done|].
  destruct (Task.priority k <=? Task.priority h); [done|].
  rewrite IH. apply Permutation_swap.
Qed.

Lemma sortByPriority_perm q : sortByPriority q ≡ₚ q.
Proof.
  induction q as [|k q IH]; simpl; [done|].
  by rewrite insertByPriority_perm, IH.
Qed.

(** The two ways [processQueue] can go. *)
Lemma processQueue_cases s :
  (processQueue s = s ∧
   ((maxConcurrentTasks s ≤ size (runningTasks s))%nat ∨ taskQueue s = []))
  ∨ (∃ k q,
        taskQueue s = k :: q ∧
        (size (runningTasks s) < maxConcurrentTasks s)%nat ∧
        processQueue s =
          mkState q (<[Task.id k := k]> (runningTasks s)) (maxConcurrentTasks s)
                  (awaiting s ++ [k]) (retryTimers s)
                  (notices s ++ [taskStarted k]) (reportsDir s)).
Proof.
  unfold processQueue.
  destruct (Nat.leb_spec (maxConcurrentTasks s) (size (runningTasks s))).
  - left. auto.
  - destruct (taskQueue s) as [|k q] eqn:Hq.
    + left. auto.
    + right. exists k, q. auto.
Qed.

Lemma processQueue_size s b :
  maxConcurrentTasks s = b →
  (size (runningTasks s) ≤ b)%nat →
  maxConcurrentTasks (processQueue s) = b ∧
  (size (runningTasks (processQueue s)) ≤ b)%nat.
Proof.
  intros <- Hs.
  destruct (processQueue_cases s) as [[-> _]|(k & q & _ & Hlt & ->)]; [done|].
  simpl. split; [done|]. rewrite map_size_insert.
  destruct (runningTasks s !! Task.id k); simpl; lia.
Qed.

Lemma delete_size_le (m : gmap string Task.t) i : (size (delete i m) ≤ size m)%nat.
Proof. rewrite map_size_delete. destruct (m !! i); simpl; lia. Qed.

(** Every transition keeps the bound and the size of the running map
    under it. *)
Lemma step_size s a s' b :
  step s a = Some s' →
  maxConcurrentTasks s = b →
  (size (runningTasks s) ≤ b)%nat →
  maxConcurrentTasks s' = b ∧ (size (runningTasks s') ≤ b)%nat.
Proof.
  intros Hstep Hb Hs.
  destruct a as [idNow suffix ty opts now|i child| |[name content]];
    simpl in Hstep.
  - injection Hstep as <-. by apply processQueue_size.
  - destruct (awaiting s !! i) as [k|]; [|done]. injection Hstep as <-.
    pose proof (delete_size_le (runningTasks s) (Task.id k)) as Hd.
    unfold resume, releaseSlot.
    destruct (executeTask k child) as [r|e];
      [|destruct (Task.retryCount k <? Task.maxRetries k)];
      first [apply processQueue_size; simpl; [done|lia] | simpl; split; [done|lia]].
  - destruct (retryTimers s); [done|]. injection Hstep as <-.
    by apply processQueue_size.
  - by injection Hstep as <-.
Qed.

Lemma run_size acts b : ∀ s s',
  run s acts = Some s' →
  maxConcurrentTasks s = b →
  (size (runningTasks s) ≤ b)%nat →
  maxConcurrentTasks s' = b ∧ (size (runningTasks s') ≤ b)%nat.
Proof.
  induction acts as [|a acts IH]; intros s s' Hrun Hb Hs; simpl in Hrun.
  - by injection Hrun as <-.
  - destruct (step s a) as [s1|] eqn:Hstep; [|done].
    destruct (step_size _ _ _ _ Hstep Hb Hs) as [Hb1 Hs1]. eauto.
Qed.

(** *** Ids *)

Lemma ids_wf_mono U U' s : U ⊆ U' → ids_wf U s → ids_wf U' s.
Proof. intros HU [Hnd Hiss Hrun]. split; [done| |done]. set_solver. Qed.

Lemma processQueue_ids_wf U s : ids_wf U s → ids_wf U (processQueue s).
Proof.
  intros [Hnd Hiss Hrun].
  destruct (processQueue_cases s) as [[-> _]|(k & q & Hq & _ & ->)]; [done|].
  rewrite Hq in *. split; simpl.
  - by rewrite <- app_assoc.
  - intros k'. rewrite <- app_assoc. apply Hiss.
  - rewrite dom_insert_L, Hrun. unfold taskIds.
    rewrite fmap_app, list_to_set_app_L. simpl. set_solver.
Qed.

Lemma enqueue_ids_wf U s k :
  ids_wf U s → Task.id k ∉ U →
  ids_wf ({[Task.id k]} ∪ U)
    (mkState (sortByPriority (taskQueue s ++ [k])) (runningTasks s)
             (maxConcurrentTasks s) (awaiting s) (retryTimers s)
             (notices s) (reportsDir s)).
Proof.
  intros [Hnd Hiss Hrun] Hfresh.
  assert (awaiting s ++ sortByPriority (taskQueue s ++ [k])
            ≡ₚ k :: (awaiting s ++ taskQueue s)) as Hperm.
  { rewrite sortByPriority_perm, app_assoc.
    by rewrite <- Permutation_cons_append. }
  split; simpl.
  - unfold taskIds in *. rewrite Hperm. simpl. apply NoDup_cons. split; [|done].
    intros (k' & Hid & Hin)%list_elem_of_fmap. rewrite Hid in Hfresh.
    by apply Hfresh, Hiss.
  - intros k'. rewrite Hperm. intros [->|Hin]%elem_of_cons; [set_solver|].
    apply elem_of_union_r. by apply Hiss.
  - done.
Qed.

(** A settled activation leaves the running map and the list of
    activations; its task goes nowhere or, for a retry, back to the head
    of the queue under the same id. *)
Lemma settle_ids_wf U s i k q' b t ns d :
  ids_wf U s → awaiting s !! i = Some k →
  (q' = taskQueue s ∨ q' = Task.retried k :: taskQueue s) →
  ids_wf U (mkState q' (delete (Task.id k) (runningTasks s)) b
                    (delete i (awaiting s)) t ns d).
Proof.
  intros [Hnd Hiss Hrun] Hi Hq'.
  pose proof (delete_Permutation _ _ _ Hi) as Hperm.
  assert (NoDup (Task.id k :: taskIds (delete i (awaiting s) ++ taskQueue s)))
    as Hnd'.
  { unfold taskIds in *. by rewrite Hperm in Hnd. }
  apply NoDup_cons in Hnd' as [Hk Hnd'].
  assert (∀ k', k' ∈ delete i (awaiting s) ++ taskQueue s →
                k' ∈ awaiting s ++ taskQueue s) as Hsub.
  { intros k'. rewrite Hperm at 2. set_solver. }
  assert (k ∈ awaiting s ++ taskQueue s) as Hkin.
  { rewrite Hperm. set_solver. }
  split; simpl.
  - destruct Hq' as [->| ->]; [done|].
    unfold taskIds in *. rewrite <- Permutation_middle. simpl.
    by apply NoDup_cons.
  - intros k'. destruct Hq' as [->| ->]; [by eauto|].
    rewrite <- Permutation_middle.
    intros [->|Hin]%elem_of_cons; [exact (Hiss k Hkin)|by eauto].
  - rewrite dom_delete_L, Hrun. unfold taskIds in *.
    rewrite Hperm at 1. simpl.
    assert (Task.id k ∉ Task.id <$> delete i (awaiting s)) as Hk'.
    { intros Hin. apply Hk. rewrite fmap_app. set_solver. }
    set_solver.
Qed.

Lemma step_ids_wf U s a s' :
  ids_wf U s → step s a = Some s' →
  (∀ i, issuedId a = Some i → i ∉ U) →
  ids_wf (list_to_set (issuedIds [a]) ∪ U) s'.
Proof.
  intros Hwf Hstep Hfresh.
  destruct a as [idNow suffix ty opts now|i child| |[name content]];
    simpl in Hstep.
  - injection Hstep as <-. apply processQueue_ids_wf.
    eapply ids_wf_mono;
      [|apply (enqueue_ids_wf U s (newTask (generateTaskId idNow suffix) ty opts now));
        [done|by apply Hfresh]].
    simpl. set_solver.
  - destruct (awaiting s !! i) as [k|] eqn:Hi; [|done]. injection Hstep as <-.
    apply (ids_wf_mono U); [set_solver|].
    unfold resume, releaseSlot.
    destruct (executeTask k child) as [r|e];
      [|destruct (Task.retryCount k <? Task.maxRetries k)];
      try apply processQueue_ids_wf; by eapply settle_ids_wf; eauto.
  - destruct (retryTimers s); [done|]. injection Hstep as <-.
    apply (ids_wf_mono U); [set_solver|].
    apply processQueue_ids_wf. by destruct Hwf.
  - injection Hstep as <-. apply (ids_wf_mono U); [set_solver|].
    by destruct Hwf.
Qed.

Lemma run_ids_wf acts : ∀ U s s',
  ids_wf U s → run s acts = Some s' →
  NoDup (issuedIds acts) → (∀ i, i ∈ issuedIds acts → i ∉ U) →
  ids_wf (list_to_set (issuedIds acts) ∪ U) s'.
Proof.
  induction acts as [|a acts IH]; intros U s s' Hwf Hrun Hnd Hfresh;
    simpl in Hrun.
  - injection Hrun as <-. apply (ids_wf_mono U); [set_solver|done].
  - destruct (step s a) as [s1|] eqn:Hstep; [|done].
    assert (issuedIds (a :: acts) = issuedIds [a] ++ issuedIds acts) as Hsplit.
    { unfold issuedIds. simpl. by destruct (issuedId a). }
    rewrite Hsplit in *. apply NoDup_app in Hnd as (_ & Hdisj & Hnd).
    eapply ids_wf_mono; [|eapply (IH _ s1 s'); [eapply step_ids_wf| | |]; eauto].
    + rewrite list_to_set_app_L. set_solver.
    + intros i Hi. apply Hfresh. unfold issuedIds. simpl. rewrite Hi. set_solver.
    + intros i Hi [Hin|Hin]%elem_of_union.
      * apply elem_of_list_to_set in Hin. by eapply Hdisj.
      * eapply Hfresh; [|done]. set_solver.
Qed.

(** With ids in order the running map has one entry per task in
    execution. *)
Lemma ids_wf_size U s : ids_wf U s → size (runningTasks s) = length (awaiting s).
Proof.
  intros [Hnd _ Hrun].
  rewrite <- size_dom, Hrun, size_list_to_set.
  - unfold taskIds. by rewrite length_fmap.
  - unfold taskIds in Hnd. rewrite fmap_app in Hnd.
    by apply NoDup_app in Hnd as (? & _ & _).
Qed.

Lemma newOrchestrator_ids_wf bound : ids_wf ∅ (newOrchestrator bound).
Proof. split; simpl; [constructor|set_solver|set_solver]. Qed.

(** When no id is handed out twice, the tasks in execution are the
    entries of the running map, so the bound of the map bounds them. *)
Lemma executions_bounded (bound : nat) (acts : list Action) (s : State) :
  run (newOrchestrator bound) acts = Some s →
  NoDup (issuedIds acts) →
  (length (awaiting s) ≤ bound)%nat.
Proof.
  intros Hrun Hnd.
  destruct (run_size acts bound _ _ Hrun eq_refl) as [_ Hsize];
    [simpl; rewrite map_size_empty; lia|].
  pose proof (run_ids_wf acts ∅ _ _ (newOrchestrator_ids_wf bound) Hrun Hnd)
    as Hwf.
  rewrite <- (ids_wf_size _ _ (Hwf ltac:(set_solver))). done.
Qed.

(** C1, as the code has it: in every state that a run of enqueue, settle
    (completion, failure, retry) and timer steps reaches from a new
    orchestrator, the running map has at most [maxConcurrentTasks] entries;
    [processQueue] dispatches only while the map is strictly below the
    bound; and, provided no id is handed out twice, at most
    [maxConcurrentTasks] tasks are in execution at once. *)
Theorem running_set_bounded (bound : nat) (acts : list Action) (s : State) :
  run (newOrchestrator bound) acts = Some s →
  (size (runningTasks s) ≤ bound)%nat
  ∧ (∀ s0, processQueue s0 ≠ s0 →
           (size (runningTasks s0) < maxConcurrentTasks s0)%nat)
  ∧ (NoDup (issuedIds acts) → (length (awaiting s) ≤ bound)%nat).
Proof.
  intros Hrun.
  destruct (run_size acts bound _ _ Hrun eq_refl) as [_ Hsize];
    [simpl; rewrite map_size_empty; lia|].
  split; [done|]. split.
  - intros s0 Hne.
    destruct (processQueue_cases s0) as [[Heq _]|(k & q & _ & Hlt & _)]; done.
  - by apply executions_bounded.
Qed.

Lemma running_set_bounded_witness :
  ∃ s, run (newOrchestrator 2) fiveQueued = Some s
       ∧ (size (runningTasks s) ≤ 2)%nat
       ∧ (length (awaiting s) ≤ 2)%nat
       ∧ length (taskQueue s) = 3%nat.
Proof.
  eexists. split; [vm_compute; reflexivity|].
  edestruct (running_set_bounded 2 fiveQueued) as (Hsize & _ & Hexec);
    [vm_compute; reflexivity|].
  split; [exact Hsize|]. split; [|reflexivity].
  apply Hexec. refine (bool_decide_unpack _ _). vm_compute. exact I.
Defined.

(** C1, as stated, fails on its last sentence: the running map is keyed
    by task id, so two tasks enqueued under one id take one entry of it;
    with two slots and five tasks queued, a third task is dispatched
    beside them: the map has two entries and three tasks are in
    execution, none of them settled. *)
Lemma colliding_ids_exceed_the_bound :
  (size ∘ runningTasks) <$> run (newOrchestrator 2) collidingIds = Some 2%nat
  ∧ awaiting <$> run (newOrchestrator 2) collidingIds
    = Some [ newTask (generateTaskId 1700000000001 "k3j9x0q2a") "health"
                     Options.empty 1700000000001;
             newTask (generateTaskId 1700000000001 "k3j9x0q2a") "security"
                     Options.empty 1700000000001;
             newTask (generateTaskId 1700000000003 "z5t6r2w1e") "performance"
                     Options.empty 1700000000003 ]
  ∧ (length ∘ taskQueue) <$> run (newOrchestrator 2) collidingIds
    = Some 2%nat
  ∧ ¬ NoDup (issuedIds collidingIds).
Proof.
  split; [by vm_compute|]. split; [by vm_compute|]. split; [by vm_compute|].
  intros Hnd. apply NoDup_cons in Hnd as [Hnot _].
  apply Hnot. set_solver.
Qed.

(** *** The sort *)

Lemma insertByPriority_sorted k q :
  StronglySorted byPriority q → StronglySorted byPriority (insertByPriority k q).
Proof.
  induction 1 as [|h q Hq IH Hh]; simpl.
  - repeat constructor.
  - destruct (Z.leb_spec (Task.priority k) (Task.priority h)) as [Hle|Hlt].
    + constructor; [by constructor|]. constructor; [done|].
      eapply Forall_impl; [exact Hh|]. unfold byPriority. intros; simpl in *; lia.
    + constructor; [done|]. rewrite insertByPriority_perm.
      constructor; [unfold byPriority; lia|done].
Qed.

Lemma sortByPriority_sorted q : StronglySorted byPriority (sortByPriority q).
Proof.
  induction q as [|k q IH]; simpl; [constructor|].
  by apply insertByPriority_sorted.
Qed.

Lemma insertByPriority_stable p k q :
  List.filter (hasPriority p) (insertByPriority k q)
  = List.filter (hasPriority p) (k :: q).
Proof.
  induction q as [|h q IH]; [done|]. simpl in *.
  destruct (Z.leb_spec (Task.priority k) (Task.priority h)) as [Hle|Hlt]; [done|].
  simpl. rewrite IH. unfold hasPriority.
  destruct (Z.eqb_spec (Task.priority h) p), (Z.eqb_spec (Task.priority k) p);
    try done; lia.
Qed.

(** Tasks of one priority keep their order through the sort. *)
Lemma sortByPriority_stable p q :
  List.filter (hasPriority p) (sortByPriority q) = List.filter (hasPriority p) q.
Proof.
  induction q as [|k q IH]; [done|]. simpl.
  rewrite insertByPriority_stable. simpl. by rewrite IH.
Qed.


(** *** The shape of the queue *)








Lemma dispatched_app ns ns' : dispatched (ns ++ ns') = dispatched ns ++ dispatched ns'.
Proof. apply omap_app. Qed.






(** *** Enqueueing while every slot is taken *)

Lemma sortByPriority_of_sorted q :
  StronglySorted byPriority q → sortByPriority q = q.
Proof.
  induction 1 as [|k q Hq IH Hk]; [done|]. simpl. rewrite IH.
  destruct q as [|h q]; [done|]. simpl.
  apply Forall_cons in Hk as [Hkh _]. unfold byPriority in Hkh.
  destruct (Z.leb_spec (Task.priority k) (Task.priority h)); [done|lia].
Qed.

Lemma insertByPriority_placeLast x k q :
  insertByPriority x (placeLast k q) = placeLast k (insertByPriority x q).
Proof.
  induction q as [|h q IH]; simpl.
  - by destruct (Task.priority x <=? Task.priority k).
  - destruct (Z.leb_spec (Task.priority h) (Task.priority k)) as [Hhk|Hkh];
      destruct (Z.leb_spec (Task.priority x) (Task.priority h)) as [Hxh|Hhx];
      simpl;
      repeat match goal with
             | |- context [?a <=? ?b] => destruct (Z.leb_spec a b); try lia
             end;
      simpl; rewrite ?IH; try done.
Qed.

Lemma sortByPriority_snoc l k :
  sortByPriority (l ++ [k]) = placeLast k (sortByPriority l).
Proof.
  induction l as [|x l IH]; [done|]. simpl.
  by rewrite IH, insertByPriority_placeLast.
Qed.

Lemma sortByPriority_push l k :
  sortByPriority (sortByPriority l ++ [k]) = sortByPriority (l ++ [k]).
Proof.
  rewrite !sortByPriority_snoc.
  by rewrite (sortByPriority_of_sorted _ (sortByPriority_sorted l)).
Qed.

Lemma run_cons s a s1 acts : step s a = Some s1 → run s (a :: acts) = run s1 acts.
Proof. intros Hstep. simpl. by rewrite Hstep. Qed.

Lemma run_app a : ∀ s b, run s (a ++ b) = run s a ≫= (fun s' => run s' b).
Proof.
  induction a as [|x a IH]; intros s b; simpl; [done|].
  destruct (step s x); [apply IH|done].
Qed.

Lemma processQueue_full s :
  (maxConcurrentTasks s ≤ size (runningTasks s))%nat → processQueue s = s.
Proof.
  intros Hfull. unfold processQueue.
  by destruct (Nat.leb_spec (maxConcurrentTasks s) (size (runningTasks s)));
    [|lia].
Qed.

(** While the running map is full, enqueueing only sorts the new tasks
    into the queue. *)
Lemma enqueue_while_full acts : ∀ s l,
  forallb enqueuesKnown acts = true →
  (maxConcurrentTasks s ≤ size (runningTasks s))%nat →
  taskQueue s = sortByPriority l →
  run s acts
  = Some (mkState (sortByPriority (l ++ enqueuedTasks acts)) (runningTasks s)
                  (maxConcurrentTasks s) (awaiting s) (retryTimers s)
                  (notices s) (reportsDir s)).
Proof.
  induction acts as [|a acts IH]; intros s l Hacts Hfull Hq.
  - simpl. rewrite app_nil_r, <- Hq. by destruct s.
  - simpl in Hacts. apply andb_true_iff in Hacts as [Ha Hacts].
    destruct a as [idNow suffix ty opts now| | |]; try done.
    simpl. rewrite processQueue_full by done.
    rewrite (IH _ (l ++ [newTask (generateTaskId idNow suffix) ty opts now]));
      simpl; try done.
    + unfold enqueuedTasks. simpl. by rewrite <- app_assoc.
    + by rewrite Hq, sortByPriority_push.
Qed.

Lemma knownType_succeeds k c :
  knownType (Task.type k) = true → exitsOk c = true →
  ∃ r, executeTask k c = inl r.
Proof.
  unfold knownType, executeTask. destruct (commandFor (Task.type k)); [|done].
  intros _. destruct c as [[[| |]|] out err now| |]; try done. eauto.
Qed.

(** With one slot, every completion hands the slot to the head of the
    queue: the queue is dispatched front to back. *)
Lemma drain_single_slot children : ∀ s k0 q,
  maxConcurrentTasks s = 1%nat →
  awaiting s = [k0] →
  runningTasks s = {[Task.id k0 := k0]} →
  taskQueue s = q →
  forallb (fun k => knownType (Task.type k)) (k0 :: q) = true →
  forallb exitsOk children = true →
  (length children ≤ length q)%nat →
  ∃ s', run s (Settle 0 <$> children) = Some s'
        ∧ dispatched (notices s')
          = dispatched (notices s) ++ take (length children) q
        ∧ taskQueue s' = drop (length children) q.
Proof.
  induction children as [|c children IH]; intros s k0 q Hb Haw Hrun Hq Hknown Hok Hlen.
  - exists s. simpl. by rewrite app_nil_r.
  - simpl in Hok, Hknown, Hlen.
    apply andb_true_iff in Hok as [Hc Hok].
    apply andb_true_iff in Hknown as [Hk0 Hknown].
    destruct q as [|k1 q]; [simpl in Hlen; lia|].
    simpl in Hknown.
    destruct (knownType_succeeds k0 c Hk0 Hc) as [r Hr].
    simpl. rewrite Haw. simpl. rewrite Hr. unfold resume, releaseSlot.
    rewrite Hrun, delete_singleton_eq. unfold processQueue at 1. simpl.
    rewrite Hb, map_size_empty, Hq. simpl.
    edestruct (IH (mkState q (<[Task.id k1:=k1]> ∅) 1%nat ([] ++ [k1])
                           (retryTimers s)
                           ((notices s ++ [taskCompleted k0 r]) ++ [taskStarted k1])
                           (reportsDir s)) k1 q)
      as (s' & Hs' & Hd & Hq'); simpl; try done; [simpl in Hlen; lia|].
    exists s'. simpl in *. split; [done|]. split; [|done].
    rewrite Hd, !dispatched_app. simpl. by rewrite app_nil_r, <- app_assoc.
Qed.

Lemma enqueuedTasks_known acts :
  forallb enqueuesKnown acts = true →
  length (enqueuedTasks acts) = length acts
  ∧ forallb (fun k => knownType (Task.type k)) (enqueuedTasks acts) = true.
Proof.
  induction acts as [|a acts IH]; [done|]. intros Hacts. simpl in Hacts.
  apply andb_true_iff in Hacts as [Ha Hacts]. destruct (IH Hacts) as [Hl Hk].
  destruct a as [idNow suffix ty opts now| | |]; try done.
  change (enqueuedTasks (Enqueue idNow suffix ty opts now :: acts))
    with (newTask (generateTaskId idNow suffix) ty opts now :: enqueuedTasks acts).
  split; [simpl; by rewrite Hl|].
  simpl in *. by rewrite Ha, Hk.
Qed.

(** C2, as the code has it: on a new orchestrator with one slot the first
    task enqueued is dispatched at once, whatever its priority; the fresh
    tasks enqueued while it runs are dispatched, one at each completion,
    in ascending priority value, and tasks of equal priority in the order
    of their enqueueing. *)
Theorem waiting_tasks_dispatched_by_priority (first : Action)
    (acts : list Action) (children : list ChildOutcome) :
  enqueuesKnown first = true →
  forallb enqueuesKnown acts = true →
  forallb exitsOk children = true →
  length children = length acts →
  ∃ s, run (newOrchestrator 1) (first :: acts ++ (Settle 0 <$> children)) = Some s
       ∧ dispatched (notices s)
         = enqueuedTasks [first] ++ sortByPriority (enqueuedTasks acts)
       ∧ StronglySorted byPriority (sortByPriority (enqueuedTasks acts))
       ∧ ∀ p, List.filter (hasPriority p) (sortByPriority (enqueuedTasks acts))
              = List.filter (hasPriority p) (enqueuedTasks acts).
Proof.
  intros Hfirst Hacts Hok Hlen.
  destruct first as [idNow suffix ty opts now| | |]; try done.
  set (k0 := newTask (generateTaskId idNow suffix) ty opts now).
  set (s1 := mkState [] {[Task.id k0 := k0]} 1%nat [k0] 0%nat [taskStarted k0] []).
  assert (step (newOrchestrator 1) (Enqueue idNow suffix ty opts now) = Some s1)
    as Hstep by done.
  destruct (enqueuedTasks_known acts Hacts) as [Hlen' Hknown].
  pose proof (enqueue_while_full acts s1 [] Hacts) as Hfill.
  simpl in Hfill. rewrite map_size_singleton in Hfill.
  specialize (Hfill (le_n _) eq_refl).
  assert (forallb (fun k => knownType (Task.type k))
                  (k0 :: sortByPriority (enqueuedTasks acts)) = true) as Hall.
  { simpl in Hfirst. simpl. fold (knownType ty). rewrite Hfirst. simpl.
    apply forallb_forall. intros k Hin.
    rewrite forallb_forall in Hknown. apply Hknown.
    apply list_elem_of_In. apply list_elem_of_In in Hin.
    by rewrite sortByPriority_perm in Hin. }
  assert (length children ≤ length (sortByPriority (enqueuedTasks acts)))%nat
    as Hfits.
  { by rewrite (Permutation_length (sortByPriority_perm _)), Hlen', Hlen. }
  destruct (drain_single_slot children
              (mkState (sortByPriority (enqueuedTasks acts))
                       {[Task.id k0 := k0]} 1%nat [k0] 0%nat [taskStarted k0] [])
              k0 (sortByPriority (enqueuedTasks acts))
              eq_refl eq_refl eq_refl eq_refl Hall Hok Hfits)
    as (s & Hs & Hd & _).
  exists s. split.
  - rewrite (run_cons _ _ _ _ Hstep), run_app, Hfill. exact Hs.
  - split; [|split; [apply sortByPriority_sorted|intros; apply sortByPriority_stable]].
    rewrite Hd. simpl. rewrite take_ge; [done|].
    by rewrite (Permutation_length (sortByPriority_perm _)), Hlen', Hlen.
Qed.

Lemma waiting_tasks_dispatched_by_priority_witness :
  (fun s => Task.priority <$> dispatched (notices s))
    <$> run (newOrchestrator 1)
            (occupySlot :: enqueue513 ++ (Settle 0 <$> [exitedOk; exitedOk; exitedOk]))
  = Some [7; 1; 3; 5].
Proof.
  destruct (waiting_tasks_dispatched_by_priority
              occupySlot enqueue513 [exitedOk; exitedOk; exitedOk]
              eq_refl eq_refl eq_refl eq_refl) as (s & Hs & Hd & _).
  rewrite Hs. simpl. rewrite Hd. reflexivity.
Defined.

(** C2, as stated, fails: on an idle orchestrator with one slot the task
    of priority 5, enqueued first, is dispatched at once; the dispatch
    order of priorities 5, 1, 3 is 5, 1, 3. *)
Lemma idle_orchestrator_dispatches_first_enqueued :
  (fun s => Task.priority <$> dispatched (notices s))
    <$> run (newOrchestrator 1)
            (enqueue513 ++ (Settle 0 <$> [exitedOk; exitedOk; exitedOk]))
  = Some [5; 1; 3]
  ∧ [5; 1; 3] ≠ [1; 3; 5].
Proof. by vm_compute. Qed.

(** *** Retry accounting *)

Lemma attempts_snoc i ns n :
  attempts i (ns ++ [n]) = (attempts i ns + if isStartOf i n then 1 else 0)%nat.
Proof.
  unfold attempts. rewrite List.filter_app, length_app. simpl.
  by destruct (isStartOf i n).
Qed.

Lemma failures_snoc i ns n :
  failures i (ns ++ [n]) = (failures i ns + if isFailureOf i n then 1 else 0)%nat.
Proof.
  unfold failures. rewrite List.filter_app, length_app. simpl.
  by destruct (isFailureOf i n).
Qed.

Ltac count_snoc :=
  rewrite ?attempts_snoc, ?failures_snoc; simpl;
  repeat match goal with
         | |- context [String.eqb ?a ?b] => destruct (String.eqb_spec a b)
         end.

Lemma retry_inv_perm U aw aw' q q' ns :
  aw ≡ₚ aw' → q ≡ₚ q' → retry_inv U aw q ns → retry_inv U aw' q' ns.
Proof.
  intros Ha Hq [Hnd Hiss Hb Hqu Haw Hf Hu].
  split; unfold taskIds in *; intros; rewrite <- ?Ha, <- ?Hq in *; eauto.
Qed.

Lemma failed_issued U aw q ns k e :
  retry_inv U aw q ns → taskFailed k e ∈ ns → Task.id k ∈ U.
Proof.
  intros Hinv Hin. destruct (decide (Task.id k ∈ U)) as [|Hout]; [done|].
  destruct (ri_unissued _ _ _ _ Hinv _ Hout) as [_ H0].
  destruct (ri_failed _ _ _ _ Hinv _ _ Hin) as (_ & _ & H1 & _). congruence.
Qed.

Lemma retry_inv_enqueue U aw q ns k :
  retry_inv U aw q ns → Task.id k ∉ U → Task.retryCount k = 0 →
  retry_inv ({[Task.id k]} ∪ U) aw (k :: q) ns.
Proof.
  intros Hinv Hfresh Hrc. pose proof Hinv as [Hnd Hiss Hb Hqu Haw Hf Hu].
  assert (Task.id k ∉ taskIds (aw ++ q)) as Hnew.
  { intros (k' & Hid & Hin)%list_elem_of_fmap. apply Hfresh. rewrite Hid. eauto. }
  split.
  - unfold taskIds in *. rewrite <- Permutation_middle. simpl.
    by apply NoDup_cons.
  - intros k'. rewrite <- Permutation_middle.
    intros [->|Hin]%elem_of_cons; [set_solver|]. apply elem_of_union_r. eauto.
  - intros k'. rewrite <- Permutation_middle.
    intros [->|Hin]%elem_of_cons; [|by eauto]. lia.
  - intros k' [->|Hin]%elem_of_cons; [|by eauto].
    destruct (Hu _ Hfresh) as [-> ->]. lia.
  - done.
  - intros k' e Hin. destruct (Hf _ _ Hin) as (Hout & Hrest). split; [|done].
    unfold taskIds in *. rewrite <- Permutation_middle. simpl.
    intros [Heq|Hin']%elem_of_cons; [|done].
    apply Hfresh. rewrite <- Heq. by eapply failed_issued.
  - intros i Hi. apply Hu. set_solver.
Qed.

(** Among tasks with distinct ids, those other than [k] have another id. *)
Lemma other_id k (l : list Task.t) k' :
  NoDup (taskIds (k :: l)) → k' ∈ l → Task.id k' ≠ Task.id k.
Proof.
  unfold taskIds. simpl. intros [Hk _]%NoDup_cons Hin Heq. apply Hk.
  rewrite <- Heq. by apply list_elem_of_fmap_2.
Qed.

Lemma retry_inv_dispatch U aw q ns k :
  retry_inv U aw (k :: q) ns →
  retry_inv U (k :: aw) q (ns ++ [taskStarted k]).
Proof.
  intros Hinv. pose proof Hinv as [Hnd Hiss Hb Hqu Haw Hf Hu].
  assert (aw ++ k :: q ≡ₚ k :: aw ++ q) as Hperm
    by (by rewrite <- Permutation_middle).
  assert (NoDup (taskIds (k :: aw ++ q))) as Hnd'.
  { unfold taskIds in *. by rewrite <- Hperm. }
  split.
  - done.
  - intros k' Hin. apply Hiss. by rewrite Hperm.
  - intros k' Hin. apply Hb. by rewrite Hperm.
  - intros k' Hin.
    assert (Task.id k' ≠ Task.id k) by (eapply other_id; [done|set_solver]).
    destruct (Hqu k' ltac:(set_solver)). by count_snoc; [|lia].
  - intros k' [->|Hin]%elem_of_cons.
    + destruct (Hqu k ltac:(set_solver)). count_snoc; [lia|done].
    + assert (Task.id k' ≠ Task.id k) by (eapply other_id; [done|set_solver]).
      destruct (Haw k' Hin). by count_snoc; [|lia].
  - intros k' e [Hin|Hin]%elem_of_app; [|by apply list_elem_of_singleton in Hin].
    destruct (Hf _ _ Hin) as (Hout & Hrest).
    assert (Task.id k' ≠ Task.id k).
    { intros Heq. apply Hout. rewrite Heq. unfold taskIds.
      apply list_elem_of_fmap_2. set_solver. }
    split.
    + unfold taskIds in *. by rewrite <- Hperm.
    + by count_snoc; [|rewrite !Nat.add_0_r].
  - intros i Hi. destruct (Hu _ Hi).
    assert (Task.id k ≠ i).
    { intros <-. apply Hi, Hiss. set_solver. }
    by count_snoc; [|lia].
Qed.

(** An activation that ends without a terminal failure: the task leaves
    the tasks in execution and the notice [n] is neither a start nor a
    failure. *)
Lemma retry_inv_leave U aw q ns k n :
  retry_inv U (k :: aw) q ns →
  (∀ i, isStartOf i n = false ∧ isFailureOf i n = false) →
  retry_inv U aw q (ns ++ [n]).
Proof.
  intros [Hnd Hiss Hb Hqu Haw Hf Hu] Hn.
  assert (∀ i, attempts i (ns ++ [n]) = attempts i ns
               ∧ failures i (ns ++ [n]) = failures i ns) as Hsame.
  { intros i. destruct (Hn i) as [Hs Hfl].
    rewrite attempts_snoc, failures_snoc, Hs, Hfl. lia. }
  split.
  - unfold taskIds in *. simpl in Hnd. by apply NoDup_cons in Hnd as [_ ?].
  - intros k' Hin. apply Hiss. set_solver.
  - intros k' Hin. apply Hb. set_solver.
  - intros k' Hin. destruct (Hsame (Task.id k')) as [-> ->]. eauto.
  - intros k' Hin. destruct (Hsame (Task.id k')) as [-> ->].
    apply Haw. set_solver.
  - intros k' e [Hin|Hin]%elem_of_app.
    + destruct (Hsame (Task.id k')) as [-> ->].
      destruct (Hf _ _ Hin) as (Hout & Hrest). split; [|done].
      intros Hin'. apply Hout. unfold taskIds in *. simpl. set_solver.
    + apply list_elem_of_singleton in Hin. subst n.
      destruct (Hn (Task.id k')) as [_ Hfl]. simpl in Hfl.
      by rewrite String.eqb_refl in Hfl.
  - intros i Hi. destruct (Hsame i) as [-> ->]. eauto.
Qed.

Lemma retry_inv_retry U aw q ns k :
  retry_inv U (k :: aw) q ns →
  Task.retryCount k < Task.maxRetries k →
  retry_inv U aw (Task.retried k :: q) (ns ++ [retrying (Task.retried k)]).
Proof.
  intros Hinv Hlt. pose proof Hinv as [Hnd Hiss Hb Hqu Haw Hf Hu].
  assert (retry_inv U aw q (ns ++ [retrying (Task.retried k)])) as Hleft.
  { eapply retry_inv_leave; [done|]. by intros i. }
  destruct Hleft as [Hnd' Hiss' Hb' Hqu' Haw' Hf' Hu'].
  assert (aw ++ Task.retried k :: q ≡ₚ Task.retried k :: aw ++ q) as Hperm
    by (by rewrite <- Permutation_middle).
  destruct (Hb k ltac:(set_solver)) as [H0 _].
  destruct (Haw k ltac:(set_solver)) as [Hat Hfl].
  split.
  - unfold taskIds in *. by rewrite Hperm.
  - intros k'. rewrite Hperm. intros [->|Hin]%elem_of_cons; [|by eauto].
    apply (Hiss k). set_solver.
  - intros k'. rewrite Hperm. intros [->|Hin]%elem_of_cons; [|by eauto].
    simpl. lia.
  - intros k' [->|Hin]%elem_of_cons; [|by eauto].
    rewrite attempts_snoc, failures_snoc. simpl. lia.
  - done.
  - intros k' e Hin. destruct (Hf' _ _ Hin) as (Hout & Hrest). split; [|done].
    unfold taskIds in *. rewrite Hperm. simpl.
    intros [Heq|Hin']%elem_of_cons; [|done].
    apply elem_of_app in Hin as [Hin|Hin];
      [|by apply list_elem_of_singleton in Hin].
    destruct (Hf _ _ Hin) as (Hout' & _). apply Hout'. rewrite Heq. simpl.
    set_solver.
  - done.
Qed.

Lemma retry_inv_fail U aw q ns k e :
  retry_inv U (k :: aw) q ns →
  ¬ Task.retryCount k < Task.maxRetries k →
  retry_inv U aw q (ns ++ [taskFailed k e]).
Proof.
  intros Hinv Hge. pose proof Hinv as [Hnd Hiss Hb Hqu Haw Hf Hu].
  assert (NoDup (taskIds (k :: aw ++ q))) as Hnd' by done.
  destruct (Hb k ltac:(set_solver)) as [H0 Hle].
  destruct (Haw k ltac:(set_solver)) as [Hat Hfl].
  split.
  - unfold taskIds in *. simpl in Hnd. by apply NoDup_cons in Hnd as [_ ?].
  - intros k' Hin. apply Hiss. set_solver.
  - intros k' Hin. apply Hb. set_solver.
  - intros k' Hin.
    assert (Task.id k' ≠ Task.id k) by (eapply other_id; [done|set_solver]).
    destruct (Hqu k' Hin). by count_snoc; [|lia].
  - intros k' Hin.
    assert (Task.id k' ≠ Task.id k) by (eapply other_id; [done|set_solver]).
    destruct (Haw k' ltac:(set_solver)). by count_snoc; [|lia].
  - intros k' e' [Hin|Hin]%elem_of_app.
    + destruct (Hf _ _ Hin) as (Hout & Hrest).
      assert (Task.id k ≠ Task.id k').
      { intros Heq. apply Hout. rewrite <- Heq. unfold taskIds. simpl.
        set_solver. }
      split; [|by count_snoc; [|rewrite !Nat.add_0_r]].
      intros Hin'. apply Hout. unfold taskIds in *. simpl. set_solver.
    + apply list_elem_of_singleton in Hin. injection Hin as -> ->.
      split; [|count_snoc; [|done]; repeat split; lia].
      unfold taskIds in *. simpl in Hnd'. by apply NoDup_cons in Hnd' as [? _].
  - intros i Hi. destruct (Hu _ Hi).
    assert (Task.id k ≠ i).
    { intros <-. apply Hi, Hiss. set_solver. }
    by count_snoc; [|lia].
Qed.

Lemma processQueue_retry_wf U s : retry_wf U s → retry_wf U (processQueue s).
Proof.
  unfold retry_wf. intros Hinv.
  destruct (processQueue_cases s) as [[-> _]|(k & q & Hq & _ & ->)]; [done|].
  simpl. rewrite Hq in Hinv. apply retry_inv_dispatch in Hinv.
  eapply retry_inv_perm; [|done|exact Hinv]. apply Permutation_cons_append.
Qed.

Lemma step_retry_wf U s a s' :
  retry_wf U s → step s a = Some s' →
  (∀ i, issuedId a = Some i → i ∉ U) →
  retry_wf (list_to_set (issuedIds [a]) ∪ U) s'.
Proof.
  intros Hwf Hstep Hfresh.
  destruct a as [idNow suffix ty opts now|i child| |[name content]];
    simpl in Hstep.
  - injection Hstep as <-.
    replace (list_to_set (issuedIds [Enqueue idNow suffix ty opts now]) ∪ U)
      with ({[generateTaskId idNow suffix]} ∪ U) by (simpl; set_solver).
    apply processQueue_retry_wf. unfold retry_wf. simpl.
    eapply retry_inv_perm;
      [done|symmetry; etrans; [apply sortByPriority_perm|];
            symmetry; apply Permutation_cons_append|].
    by apply (retry_inv_enqueue U _ _ _
                (newTask (generateTaskId idNow suffix) ty opts now));
      [|apply Hfresh|].
  - replace (list_to_set (issuedIds [Settle i child]) ∪ U) with U
      by (simpl; set_solver).
    destruct (awaiting s !! i) as [k|] eqn:Hi; [|done]. injection Hstep as <-.
    pose proof (delete_Permutation _ _ _ Hi) as Hperm.
    assert (retry_inv U (k :: delete i (awaiting s)) (taskQueue s) (notices s))
      as Hinv by (by eapply retry_inv_perm; [| |exact Hwf]).
    unfold resume, releaseSlot.
    destruct (executeTask k child) as [r|e];
      [|destruct (Z.ltb_spec (Task.retryCount k) (Task.maxRetries k))].
    + apply processQueue_retry_wf. unfold retry_wf. simpl.
      eapply retry_inv_leave; [done|]. by intros j.
    + unfold retry_wf. simpl. by apply retry_inv_retry.
    + apply processQueue_retry_wf. unfold retry_wf. simpl.
      apply retry_inv_fail; [done|lia].
  - replace (list_to_set (issuedIds [TimerFires]) ∪ U) with U
      by (simpl; set_solver).
    destruct (retryTimers s); [done|]. injection Hstep as <-.
    by apply processQueue_retry_wf.
  - replace (list_to_set (issuedIds [ProbeWrites (name, content)]) ∪ U) with U
      by (simpl; set_solver).
    by injection Hstep as <-.
Qed.

Lemma retry_inv_mono U U' aw q ns :
  U' = U → retry_inv U aw q ns → retry_inv U' aw q ns.
Proof. by intros ->. Qed.

Lemma run_retry_wf acts : ∀ U s s',
  retry_wf U s → run s acts = Some s' →
  NoDup (issuedIds acts) → (∀ i, i ∈ issuedIds acts → i ∉ U) →
  retry_wf (list_to_set (issuedIds acts) ∪ U) s'.
Proof.
  induction acts as [|a acts IH]; intros U s s' Hwf Hrun Hnd Hfresh;
    simpl in Hrun.
  - injection Hrun as <-. eapply retry_inv_mono; [|exact Hwf]. set_solver.
  - destruct (step s a) as [s1|] eqn:Hstep; [|done].
    assert (issuedIds (a :: acts) = issuedIds [a] ++ issuedIds acts) as Hsplit.
    { unfold issuedIds. simpl. by destruct (issuedId a). }
    rewrite Hsplit in *. apply NoDup_app in Hnd as (_ & Hdisj & Hnd).
    eapply retry_inv_mono;
      [|eapply (IH _ s1 s'); [eapply step_retry_wf| | |]; eauto].
    + rewrite list_to_set_app_L. set_solver.
    + intros i Hi. apply Hfresh. unfold issuedIds. simpl. rewrite Hi. set_solver.
    + intros i Hi [Hin|Hin]%elem_of_union.
      * apply elem_of_list_to_set in Hin. by eapply Hdisj.
      * eapply Hfresh; [|done]. set_solver.
Qed.

Lemma newOrchestrator_retry_wf bound : retry_wf ∅ (newOrchestrator bound).
Proof.
  split; simpl; try (intros; set_solver); try constructor; done.
Qed.

(** *** Where the tasks are *)

Lemma completedTasks_snoc ns n :
  completedTasks (ns ++ [n])
  = completedTasks ns
    ++ match n with taskCompleted k _ => [k] | _ => [] end.
Proof.
  unfold completedTasks. rewrite omap_app. f_equal. by destruct n.
Qed.

Lemma failedTasks_snoc ns n :
  failedTasks (ns ++ [n])
  = failedTasks ns ++ match n with taskFailed k _ => [k] | _ => [] end.
Proof.
  unfold failedTasks. rewrite omap_app. f_equal. by destruct n.
Qed.

Lemma processQueue_whereabouts s :
  whereabouts (processQueue s) ≡ₚ whereabouts s.
Proof.
  destruct (processQueue_cases s) as [[-> _]|(k & q & Hq & _ & ->)]; [done|].
  unfold whereabouts. simpl.
  rewrite Hq, completedTasks_snoc, failedTasks_snoc, !app_nil_r.
  solve_Permutation.
Qed.

(** A step moves the tasks about and adds the task of an enqueue; it
    drops none and, apart from the retry count, changes none. *)
Lemma step_whereabouts s a s' :
  step s a = Some s' →
  asEnqueued <$> whereabouts s'
  ≡ₚ (asEnqueued <$> whereabouts s) ++ enqueuedTasks [a].
Proof.
  intros Hstep.
  destruct a as [idNow suffix ty opts now|i child| |[name content]];
    simpl in Hstep.
  - injection Hstep as <-. rewrite processQueue_whereabouts.
    unfold whereabouts. simpl. rewrite sortByPriority_perm.
    rewrite !fmap_app. simpl. solve_Permutation.
  - destruct (awaiting s !! i) as [k|] eqn:Hi; [|done]. injection Hstep as <-.
    pose proof (delete_Permutation _ _ _ Hi) as Hperm.
    assert (asEnqueued <$> whereabouts s
            ≡ₚ asEnqueued k
               :: (asEnqueued <$> taskQueue s ++ delete i (awaiting s)
                   ++ completedTasks (notices s) ++ failedTasks (notices s)))
      as ->.
    { unfold whereabouts. rewrite Hperm at 1. rewrite !fmap_app. simpl.
      solve_Permutation. }
    simpl. rewrite app_nil_r. unfold resume, releaseSlot.
    destruct (executeTask k child) as [r|e];
      [|destruct (Task.retryCount k <? Task.maxRetries k)];
      rewrite ?processQueue_whereabouts; unfold whereabouts; simpl;
      rewrite completedTasks_snoc, failedTasks_snoc, ?app_nil_r;
      rewrite !fmap_app; simpl; solve_Permutation.
  - destruct (retryTimers s); [done|]. injection Hstep as <-.
    rewrite processQueue_whereabouts. simpl. by rewrite app_nil_r.
  - injection Hstep as <-. simpl. by rewrite app_nil_r.
Qed.

Lemma enqueuedTasks_cons a acts :
  enqueuedTasks (a :: acts) = enqueuedTasks [a] ++ enqueuedTasks acts.
Proof. unfold enqueuedTasks. simpl. by destruct (enqueuedTask a). Qed.

Lemma run_whereabouts acts : ∀ s s',
  run s acts = Some s' →
  asEnqueued <$> whereabouts s'
  ≡ₚ (asEnqueued <$> whereabouts s) ++ enqueuedTasks acts.
Proof.
  induction acts as [|a acts IH]; intros s s' Hrun; simpl in Hrun.
  - injection Hrun as <-. by rewrite app_nil_r.
  - destruct (step s a) as [s1|] eqn:Hstep; [|done].
    rewrite (IH _ _ Hrun), (step_whereabouts _ _ _ Hstep).
    by rewrite (enqueuedTasks_cons a acts), app_assoc.
Qed.

Lemma issuedIds_enqueuedTasks acts :
  issuedIds acts = taskIds (enqueuedTasks acts).
Proof.
  unfold issuedIds, enqueuedTasks, taskIds.
  induction acts as [|[idNow suffix ty opts now|i c| |f] acts IH];
    cbn [omap list_omap issuedId enqueuedTask fmap list_fmap];
    [done|rewrite IH..]; done.
Qed.

(** The step in which an activation meets a failure with its retry count
    at or above [maxRetries]: the terminal failure of its task is
    announced, the activation is gone, and nothing enters the queue,
    whose head may be dispatched into the freed slot. *)
Lemma terminal_failure_step s i k c e :
  awaiting s !! i = Some k →
  executeTask k c = inr e →
  Task.maxRetries k ≤ Task.retryCount k →
  ∃ s' started,
    step s (Settle i c) = Some s'
    ∧ taskFailed k e ∈ notices s'
    ∧ failedTasks (notices s') = failedTasks (notices s) ++ [k]
    ∧ taskQueue s = started ++ taskQueue s'
    ∧ awaiting s' = delete i (awaiting s) ++ started.
Proof.
  intros Hi He Hle. simpl. rewrite Hi, He. unfold resume.
  destruct (Z.ltb_spec (Task.retryCount k) (Task.maxRetries k)); [lia|].
  unfold releaseSlot.
  match goal with |- context [processQueue ?m] => set (mid := m) end.
  destruct (processQueue_cases mid) as [[Heq _]|(k1 & q & Hq & _ & Heq)];
    rewrite Heq.
  - exists mid, []. subst mid. simpl.
    rewrite failedTasks_snoc, app_nil_r. split; [done|].
    split; [set_solver|done].
  - eexists _, [k1]. split; [done|]. subst mid. simpl in *.
    rewrite !failedTasks_snoc, app_nil_r. split; [set_solver|done].
Qed.


(** *** A task that fails at every attempt *)

Lemma rejects_inr k c : rejects k c = true → ∃ e, executeTask k c = inr e.
Proof. unfold rejects. destruct (executeTask k c); [done|eauto]. Qed.

Lemma processQueue_idle s :
  taskQueue s = [] → processQueue s = s.
Proof.
  intros Hq. unfold processQueue. rewrite Hq.
  by destruct (maxConcurrentTasks s <=? size (runningTasks s))%nat.
Qed.

(** A task alone in the orchestrator whose every attempt fails: it is
    retried while its retry count is below [maxRetries], each time from
    the retry timer, and then its terminal failure is announced. *)
Lemma exhaust_retries children : ∀ c0 k s,
  awaiting s = [k] →
  runningTasks s = {[Task.id k := k]} →
  taskQueue s = [] →
  (0 < maxConcurrentTasks s)%nat →
  Z.of_nat (length children)
  = Z.max 0 (Task.maxRetries k - Task.retryCount k) →
  forallb (rejects k) (c0 :: children) = true →
  ∃ s' e,
    run s (Settle 0 c0 :: retryRounds children) = Some s'
    ∧ (∃ c, c ∈ c0 :: children ∧ executeTask k c = inr e)
    ∧ notices s'
      = notices s ++ retryNotices k (length children)
                  ++ [taskFailed (Nat.iter (length children) Task.retried k) e]
    ∧ awaiting s' = [] ∧ taskQueue s' = [] ∧ runningTasks s' = ∅.
Proof.
  induction children as [|c1 children IH];
    intros c0 k s Haw Hrun Hq Hpos Hlen Hrej;
    simpl in Hrej; apply andb_true_iff in Hrej as [Hc0 Hrej];
    destruct (rejects_inr _ _ Hc0) as [e He].
  - simpl in Hlen. simpl. rewrite Haw. simpl. rewrite He. unfold resume.
    destruct (Z.ltb_spec (Task.retryCount k) (Task.maxRetries k)); [lia|].
    unfold releaseSlot. rewrite processQueue_idle by done.
    eexists _, e. split; [done|]. split; [exists c0; split; [set_solver|done]|].
    simpl. by rewrite Hrun, delete_singleton_eq.
  - rewrite length_cons, Nat2Z.inj_succ in Hlen.
    set (k' := Task.retried k).
    set (s2 := mkState [] {[Task.id k' := k']} (maxConcurrentTasks s) [k']
                       (retryTimers s)
                       ((notices s ++ [retrying k']) ++ [taskStarted k'])
                       (reportsDir s)).
    assert (run s [Settle 0 c0; TimerFires] = Some s2) as Hs2.
    { simpl. rewrite Haw. simpl. rewrite He. unfold resume.
      destruct (Z.ltb_spec (Task.retryCount k) (Task.maxRetries k)); [|lia].
      simpl. unfold processQueue. simpl.
      rewrite Hrun, delete_singleton_eq, map_size_empty, Hq.
      destruct (Nat.leb_spec (maxConcurrentTasks s) 0); [lia|].
      by rewrite insert_empty. }
    destruct (IH c1 k' s2) as (s' & e' & Hs' & (c & Hc & He') & Hn & Hrest);
      try done; [simpl; lia|].
    exists s', e'.
    change (Settle 0 c0 :: retryRounds (c1 :: children))
      with ([Settle 0 c0; TimerFires] ++ Settle 0 c1 :: retryRounds children).
    rewrite run_app, Hs2. split; [done|].
    split; [exists c; split; [set_solver|done]|]. split; [|done].
    rewrite Hn. cbn [length retryNotices]. rewrite Nat.iter_succ_r.
    simpl. by rewrite <- !app_assoc.
Qed.

Lemma attempts_retryNotices k n :
  attempts (Task.id k) (retryNotices k n) = n.
Proof.
  revert k. induction n as [|n IH]; intros k; [done|].
  unfold attempts in *. simpl. rewrite String.eqb_refl. simpl.
  f_equal. apply (IH (Task.retried k)).
Qed.

Lemma failures_retryNotices k n :
  failures (Task.id k) (retryNotices k n) = 0%nat.
Proof.
  revert k. induction n as [|n IH]; intros k; [done|].
  unfold failures in *. simpl. apply (IH (Task.retried k)).
Qed.

Lemma retryCount_iter n k :
  Task.retryCount (Nat.iter n Task.retried k) = Task.retryCount k + Z.of_nat n
  ∧ Task.id (Nat.iter n Task.retried k) = Task.id k.
Proof.
  induction n as [|n [IHrc IHid]]; [simpl; split; [lia|done]|].
  rewrite Nat2Z.inj_succ. simpl. rewrite IHrc. split; [lia|done].
Qed.

(** A task enqueued on a new orchestrator, whose every attempt fails. *)
Lemma always_failing_task bound idNow suffix ty opts now c0 children :
  (0 < bound)%nat →
  let k := newTask (generateTaskId idNow suffix) ty opts now in
  Z.of_nat (length children) = Z.max 0 (Task.maxRetries k) →
  forallb (rejects k) (c0 :: children) = true →
  ∃ s e,
    run (newOrchestrator bound)
        (Enqueue idNow suffix ty opts now :: Settle 0 c0 :: retryRounds children)
    = Some s
    ∧ (∃ c, c ∈ c0 :: children ∧ executeTask k c = inr e)
    ∧ notices s
      = taskStarted k :: retryNotices k (length children)
        ++ [taskFailed (Nat.iter (length children) Task.retried k) e]
    ∧ attempts (Task.id k) (notices s) = S (length children)
    ∧ failures (Task.id k) (notices s) = 1%nat
    ∧ awaiting s = [] ∧ taskQueue s = [] ∧ runningTasks s = ∅.
Proof.
  intros Hpos k Hlen Hrej.
  set (s1 := mkState [] {[Task.id k := k]} bound [k] 0%nat [taskStarted k] []).
  assert (step (newOrchestrator bound) (Enqueue idNow suffix ty opts now)
          = Some s1) as Hstep.
  { simpl. unfold processQueue. simpl. rewrite map_size_empty.
    destruct (Nat.leb_spec bound 0); [lia|]. by rewrite insert_empty. }
  assert (Z.of_nat (length children)
          = Z.max 0 (Task.maxRetries k - Task.retryCount k))
    as Hlen' by (change (Task.retryCount k) with 0; lia).
  destruct (exhaust_retries children c0 k s1 eq_refl eq_refl eq_refl Hpos
              Hlen' Hrej)
    as (s & e & Hs & He & Hn & Haw & Hq & Hmap).
  exists s, e. rewrite (run_cons _ _ _ _ Hstep).
  split; [done|]. split; [done|]. split; [by rewrite Hn|].
  destruct (retryCount_iter (length children) k) as [_ Hid].
  split; [|split; [|done]]; rewrite Hn; simpl notices.
  - change (taskStarted k :: ?l) with ([taskStarted k] ++ l).
    unfold attempts. rewrite !List.filter_app, !length_app.
    fold (attempts (Task.id k) (retryNotices k (length children))).
    rewrite attempts_retryNotices. simpl. rewrite String.eqb_refl. simpl. lia.
  - change (taskStarted k :: ?l) with ([taskStarted k] ++ l).
    unfold failures. rewrite !List.filter_app, !length_app.
    fold (failures (Task.id k) (retryNotices k (length children))).
    rewrite failures_retryNotices. simpl. rewrite Hid, String.eqb_refl. done.
Qed.




(** *** Unknown task types *)

Lemma unknown_type_rejects k c :
  knownType (Task.type k) = false →
  executeTask k c = inr (UnknownTaskType (Task.type k)).
Proof.
  unfold knownType, executeTask. by destruct (commandFor (Task.type k)).
Qed.

(** C4, as the code has it: every attempt of a task of an unknown type
    fails at once with the unknown-task-type error, and [processQueue]
    handles that failure like any other: while the retry count is below
    [maxRetries] the task goes back to the head of the queue with its
    retry count incremented; the failure met with the retry count at or
    above [maxRetries] is terminal and puts nothing into the queue; so a
    task enqueued alone is attempted [maxRetries] + 1 times when its
    [maxRetries] is not negative, and once when it is negative, before
    its [taskFailed] is announced. *)
Theorem unknown_type_retried_like_any_failure (taskType : string) :
  knownType taskType = false →
  (∀ k c, Task.type k = taskType →
          executeTask k c = inr (UnknownTaskType taskType))
  ∧ (∀ k s i c,
        Task.type k = taskType →
        awaiting s !! i = Some k →
        Task.retryCount k < Task.maxRetries k →
        ∃ s', step s (Settle i c) = Some s'
              ∧ taskQueue s' = Task.retried k :: taskQueue s
              ∧ notices s' = notices s ++ [retrying (Task.retried k)])
  ∧ (∀ k s i c,
        Task.type k = taskType →
        awaiting s !! i = Some k →
        Task.maxRetries k ≤ Task.retryCount k →
        ∃ s' started,
          step s (Settle i c) = Some s'
          ∧ taskFailed k (UnknownTaskType taskType) ∈ notices s'
          ∧ failedTasks (notices s') = failedTasks (notices s) ++ [k]
          ∧ taskQueue s = started ++ taskQueue s'
          ∧ awaiting s' = delete i (awaiting s) ++ started)
  ∧ (∀ bound idNow suffix opts now c0 children,
        (0 < bound)%nat →
        let k := newTask (generateTaskId idNow suffix) taskType opts now in
        Z.of_nat (length children) = Z.max 0 (Task.maxRetries k) →
        ∃ s,
          run (newOrchestrator bound)
              (Enqueue idNow suffix taskType opts now
               :: Settle 0 c0 :: retryRounds children) = Some s
          ∧ notices s
            = taskStarted k :: retryNotices k (length children)
              ++ [taskFailed (Nat.iter (length children) Task.retried k)
                             (UnknownTaskType taskType)]
          ∧ Z.of_nat (attempts (Task.id k) (notices s))
            = Z.max 0 (Task.maxRetries k) + 1
          ∧ failures (Task.id k) (notices s) = 1%nat
          ∧ awaiting s = [] ∧ taskQueue s = [] ∧ runningTasks s = ∅).
Proof.
  intros Hunknown. split; [|split; [|split]].
  - intros k c <-. by apply unknown_type_rejects.
  - intros k s i c <- Hi Hlt. simpl. rewrite Hi.
    rewrite unknown_type_rejects by done. unfold resume.
    destruct (Z.ltb_spec (Task.retryCount k) (Task.maxRetries k)); [|lia].
    eexists. split; [done|]. done.
  - intros k s i c <- Hi Hle.
    pose proof (unknown_type_rejects k c Hunknown) as He.
    exact (terminal_failure_step s i k c _ Hi He Hle).
  - intros bound idNow suffix opts now c0 children Hpos k Hlen.
    assert (∀ c, executeTask k c = inr (UnknownTaskType taskType)) as Hrej
      by (intros c; by apply (unknown_type_rejects k)).
    destruct (always_failing_task bound idNow suffix taskType opts now c0
                children Hpos Hlen)
      as (s & e & Hs & (c & _ & He) & Hn & Hat & Hfl & Hrest).
    { apply forallb_forall. intros c _. unfold rejects. fold k.
      by rewrite Hrej. }
    fold k in He, Hat, Hfl. rewrite Hrej in He. injection He as <-.
    exists s. split; [done|]. split; [done|]. split; [|done].
    rewrite Hat. lia.
Qed.

Lemma unknown_type_retried_like_any_failure_witness :
  ∃ s, run defaultOrchestrator
           (bogusFirstAttempt ++ retryRounds [exitedOk; exitedOk; exitedOk])
       = Some s
       ∧ Z.of_nat (attempts (Task.id bogusTask) (notices s)) = 4
       ∧ failures (Task.id bogusTask) (notices s) = 1%nat.
Proof.
  destruct (proj2 (proj2 (proj2
              (unknown_type_retried_like_any_failure "bogus" eq_refl)))
              3%nat 1700000000001 "k3j9x0q2a" Options.empty 1700000000001
              exitedOk [exitedOk; exitedOk; exitedOk] ltac:(lia) eq_refl)
    as (s & Hs & _ & Hat & Hfl & _).
  exists s. split; [exact Hs|]. split; [exact Hat|exact Hfl].
Defined.

(** C4, as stated, fails: after the first attempt of a task of an unknown
    type no terminal failure is announced; the task is back in the queue
    with retry count 1, and the retry timer starts its second attempt. *)
Lemma unknown_type_reenqueued :
  taskQueue <$> run defaultOrchestrator bogusFirstAttempt
    = Some [Task.retried bogusTask]
  ∧ notices <$> run defaultOrchestrator bogusFirstAttempt
    = Some [taskStarted bogusTask; retrying (Task.retried bogusTask)]
  ∧ notices <$> run defaultOrchestrator (bogusFirstAttempt ++ [TimerFires])
    = Some [ taskStarted bogusTask; retrying (Task.retried bogusTask);
             taskStarted (Task.retried bogusTask) ]
  ∧ Task.retryCount (Task.retried bogusTask) = 1.
Proof. by vm_compute. Qed.

(** *** Report storage *)

Lemma processQueue_reportsDir s : reportsDir (processQueue s) = reportsDir s.
Proof.
  by destruct (processQueue_cases s) as [[-> _]|(k & q & _ & _ & ->)].
Qed.

Lemma step_reportsDir s a s' :
  step s a = Some s' → isProbeWrite a = false → reportsDir s' = reportsDir s.
Proof.
  intros Hstep Ha.
  destruct a as [idNow suffix ty opts now|i child| |[name content]];
    simpl in Hstep; try done.
  - injection Hstep as <-. by rewrite processQueue_reportsDir.
  - destruct (awaiting s !! i) as [k|]; [|done]. injection Hstep as <-.
    unfold resume, releaseSlot.
    by destruct (executeTask k child) as [r|e];
      [|destruct (Task.retryCount k <? Task.maxRetries k)];
      rewrite ?processQueue_reportsDir.
  - destruct (retryTimers s); [done|]. injection Hstep as <-.
    by rewrite processQueue_reportsDir.
Qed.

Lemma processQueue_notices s n : n ∈ notices s → n ∈ notices (processQueue s).
Proof.
  destruct (processQueue_cases s) as [[-> _]|(k & q & _ & _ & ->)]; [done|].
  simpl. set_solver.
Qed.

(** C6, as the code has it: a terminal outcome is announced, by
    [taskCompleted] or [taskFailed], and nothing else: no transition of
    the orchestrator writes to report storage, whose files come from the
    probe processes alone. *)
Theorem terminal_outcome_announced_not_persisted :
  (∀ s i k c s',
      awaiting s !! i = Some k →
      step s (Settle i c) = Some s' →
      reportsDir s' = reportsDir s
      ∧ match executeTask k c with
        | inl result => taskCompleted k result ∈ notices s'
        | inr error =>
            if Task.retryCount k <? Task.maxRetries k
            then retrying (Task.retried k) ∈ notices s'
            else taskFailed k error ∈ notices s'
        end)
  ∧ (∀ s acts s',
        run s acts = Some s' →
        forallb (fun a => negb (isProbeWrite a)) acts = true →
        reportsDir s' = reportsDir s).
Proof.
  split.
  - intros s i k c s' Hi Hstep.
    split; [by eapply step_reportsDir|].
    simpl in Hstep. rewrite Hi in Hstep. injection Hstep as <-.
    unfold resume, releaseSlot.
    destruct (executeTask k c) as [r|e];
      [|destruct (Task.retryCount k <? Task.maxRetries k)];
      try apply processQueue_notices; simpl; set_solver.
  - intros s acts. revert s.
    induction acts as [|a acts IH]; intros s s' Hrun Hall; simpl in Hrun.
    + by injection Hrun as <-.
    + simpl in Hall. apply andb_true_iff in Hall as [Ha Hall].
      destruct (step s a) as [s1|] eqn:Hstep; [|done].
      rewrite (IH _ _ Hrun Hall). eapply step_reportsDir; [done|].
      by destruct (isProbeWrite a).
Qed.

Lemma terminal_outcome_announced_not_persisted_witness :
  ∃ s, run defaultOrchestrator fiveQueued = Some s ∧ reportsDir s = [].
Proof.
  eexists. split; [vm_compute; reflexivity|].
  apply (proj2 terminal_outcome_announced_not_persisted
           defaultOrchestrator fiveQueued);
    [vm_compute; reflexivity|reflexivity].
Defined.

(** C6, as stated, fails: the task of an unknown type is attempted four
    times and its terminal failure is announced, and report storage is as
    empty afterwards as it was before. *)
Lemma terminal_failure_leaves_no_record :
  (fun s => List.last (notices s) (taskStarted bogusTask))
    <$> run defaultOrchestrator bogusToTheEnd
    = Some (taskFailed (Nat.iter 3 Task.retried bogusTask)
                       (UnknownTaskType "bogus"))
  ∧ reportsDir <$> run defaultOrchestrator bogusToTheEnd = Some [].
Proof. by vm_compute. Qed.

(** *** The status view *)

Lemma append_ms_nonempty s : String.eqb (s +:+ "ms") "" = false.
Proof. by destruct s. Qed.

(** C7: [getStatus] reads the latest performance report only (score 60 of
    t3; the maximum is 70), but a result without [loadTime] shows as
    ["undefinedms"], not as the placeholder ["--"]: in
    [x + 'ms' || '--'] the sum is a non-empty string for every [x], so
    the placeholder is never taken. *)
Theorem perf_load_placeholder_never_taken :
  getStatus threeRuns = [("perf-score", JNum 60); ("perf-load", JStr "1840ms")]
  ∧ getStatus fourRuns
    = [("perf-score", JStr "--"); ("perf-load", JStr "undefinedms")]
  ∧ ∀ x, jsOr (plusMs x) (JStr "--") = plusMs x.
Proof.
  split; [by vm_compute|]. split; [by vm_compute|].
  intros x. unfold jsOr, plusMs. simpl. by rewrite append_ms_nonempty.
Qed.

(** *** The scheduler *)

Lemma startScheduler_timers scheduling tm :
  tm ∈ startScheduler scheduling ↔
  ∃ taskType schedule,
    (taskType, schedule) ∈ scheduling
    ∧ enabled schedule = true
    ∧ tm = mkTimer (interval schedule * 1000) taskType
                   (Options.mk (Some 3) None None).
Proof.
  unfold startScheduler. rewrite list_elem_of_omap. split.
  - intros ([ty e] & Hin & Htm). exists ty, e.
    destruct (enabled e); [|done]. by injection Htm as <-.
  - intros (ty & e & Hin & Hen & ->). exists (ty, e). by rewrite Hen.
Qed.

(** C9, as the code has it: every enabled entry gets a timer of period
    [interval] seconds whose firing enqueues a task of the entry's type
    with priority 3, whatever priority the entry has; an entry that is
    not enabled gets no timer. *)
Theorem scheduler_enqueues_enabled_at_priority_3
    (scheduling : list (string * ScheduleEntry)) :
  (∀ taskType schedule,
      (taskType, schedule) ∈ scheduling →
      enabled schedule = true →
      ∃ tm, tm ∈ startScheduler scheduling
            ∧ timerTask tm = taskType
            ∧ periodMs tm = interval schedule * 1000
            ∧ ∀ idNow suffix now,
                timerFiring tm idNow suffix now
                = Enqueue idNow suffix taskType (Options.mk (Some 3) None None) now
                ∧ Task.priority (firedTask tm idNow suffix now) = 3)
  ∧ (∀ tm, tm ∈ startScheduler scheduling →
           ∃ schedule, (timerTask tm, schedule) ∈ scheduling
                       ∧ enabled schedule = true).
Proof.
  split.
  - intros ty e Hin Hen.
    exists (mkTimer (interval e * 1000) ty (Options.mk (Some 3) None None)).
    split; [apply startScheduler_timers; eauto|done].
  - intros tm (ty & e & Hin & Hen & ->)%startScheduler_timers. eauto.
Qed.

Lemma scheduler_enqueues_enabled_at_priority_3_witness :
  ∃ tm, tm ∈ startScheduler configJsonScheduling
        ∧ timerTask tm = "securityScan"
        ∧ periodMs tm = 3600000
        ∧ Task.priority (firedTask tm 1700000000001 "k3j9x0q2a" 1700000000001) = 3.
Proof.
  destruct (proj1 (scheduler_enqueues_enabled_at_priority_3 configJsonScheduling)
              "securityScan" (mkEntry 3600 true (Some 2)))
    as (tm & Hin & Hty & Hp & Hfire).
  - set_solver.
  - reflexivity.
  - exists tm. split; [exact Hin|]. split; [exact Hty|]. split; [exact Hp|].
    apply Hfire.
Defined.

(** C9, as stated, fails: the entry [healthCheck] of [config.json] has
    priority 1, and the task that its timer enqueues has priority 3. *)
Lemma scheduler_ignores_entry_priority :
  lookupField "healthCheck" configJsonScheduling = Some (mkEntry 300 true (Some 1))
  ∧ head (startScheduler configJsonScheduling)
    = Some (mkTimer 300000 "healthCheck" (Options.mk (Some 3) None None))
  ∧ Task.priority
      (firedTask (mkTimer 300000 "healthCheck" (Options.mk (Some 3) None None))
                 1700000000001 "k3j9x0q2a" 1700000000001) = 3
  ∧ (3 ≠ 1).
Proof. by vm_compute. Qed.

(** *** Options at zero *)

Lemma processQueue_tasks s :
  awaiting (processQueue s) ++ taskQueue (processQueue s)
  = awaiting s ++ taskQueue s.
Proof.
  destruct (processQueue_cases s) as [[-> _]|(k & q & Hq & _ & ->)]; [done|].
  simpl. by rewrite Hq, <- app_assoc.
Qed.



(** *** Two reports in a row *)

Lemma lookupField_otherGroups type groups :
  notComprehensive type = true →
  lookupField type (otherGroups groups) = lookupField type groups.
Proof.
  intros Hty. induction groups as [|[n g] groups IH]; [done|]. simpl.
  destruct (String.eqb_spec n type) as [->|Hne].
  - rewrite Hty. simpl. by rewrite String.eqb_refl.
  - destruct (notComprehensive n); [|done]. simpl.
    by destruct (String.eqb_spec n type).
Qed.

Lemma setField_otherGroups type g groups :
  notComprehensive type = true →
  otherGroups (setField type g groups) = setField type g (otherGroups groups).
Proof.
  intros Hty. induction groups as [|[n g'] groups IH]; simpl.
  - unfold otherGroups. simpl. by rewrite Hty.
  - destruct (String.eqb_spec n type) as [->|Hne]; unfold otherGroups in *; simpl.
    + rewrite Hty. simpl. by rewrite String.eqb_refl.
    + destruct (notComprehensive n) eqn:Hn; simpl; [|done].
      destruct (String.eqb_spec n type); [done|]. by rewrite IH.
Qed.

Lemma setField_comprehensive type g groups :
  notComprehensive type = false →
  otherGroups (setField type g groups) = otherGroups groups.
Proof.
  intros Hty. induction groups as [|[n g'] groups IH]; unfold otherGroups in *;
    simpl.
  - by rewrite Hty.
  - destruct (String.eqb_spec n type) as [->|Hne]; simpl.
    + by rewrite Hty.
    + by rewrite IH.
Qed.

(** A comprehensive report in the directory touches its own group only. *)
Lemma collectStep_comprehensive clock groups tick f :
  notComprehensive (typeOfReport (fst f)) = false →
  otherGroups (fst (collectStep clock (groups, tick) f)) = otherGroups groups.
Proof.
  intros Hty. unfold collectStep. destruct (snd f) as [content|]; [|done].
  case_bool_decide; [by destruct (strictMember content "timestamp")|].
  destruct (strictMember content "timestamp") as [ts|]; simpl.
  - destruct (truthy ts); simpl; by rewrite !setField_comprehensive.
  - by rewrite setField_comprehensive.
Qed.

(** A file with a timestamp of its own is collected without the clock. *)
Lemma collectStep_stamped clock groups tick f :
  notComprehensive (typeOfReport (fst f)) = true →
  stampedFile f = true →
  otherGroups (fst (collectStep clock (groups, tick) f))
  = collectStamped (otherGroups groups) f.
Proof.
  intros Hty Hst. unfold collectStamped, collectStep, stampedFile in *.
  destruct (snd f) as [content|]; [|done].
  case_bool_decide; [by destruct (strictMember content "timestamp")|].
  unfold ownTimestamp in Hst.
  rewrite lookupField_otherGroups by done.
  destruct (strictMember content "timestamp") as [ts|]; simpl.
  - rewrite Hst. simpl. by rewrite !setField_otherGroups.
  - by rewrite setField_otherGroups.
Qed.

Lemma otherFiles_cons f dir :
  otherFiles (f :: dir)
  = if notComprehensive (typeOfReport (fst f)) then f :: otherFiles dir
    else otherFiles dir.
Proof. done. Qed.

Lemma collect_otherGroups clock dir : ∀ groups tick,
  forallb stampedFile (otherFiles dir) = true →
  otherGroups (fst (fold_left (collectStep clock) dir (groups, tick)))
  = fold_left collectStamped (otherFiles dir) (otherGroups groups).
Proof.
  induction dir as [|f dir IH]; intros groups tick Hst; [done|].
  rewrite otherFiles_cons in *. cbn [fold_left].
  destruct (collectStep clock (groups, tick) f) as [groups1 tick1] eqn:Hstep.
  destruct (notComprehensive (typeOfReport (fst f))) eqn:Hty.
  - cbn [forallb] in Hst. apply andb_true_iff in Hst as [Hf Hst].
    cbn [fold_left]. rewrite (IH _ _ Hst). f_equal.
    rewrite <- (collectStep_stamped clock groups tick f Hty Hf).
    by rewrite Hstep.
  - rewrite (IH _ _ Hst). f_equal.
    rewrite <- (collectStep_comprehensive clock groups tick f Hty).
    by rewrite Hstep.
Qed.

Lemma otherGroups_sorted groups :
  otherGroups (prod_map id sortByTimestamp <$> groups)
  = prod_map id sortByTimestamp <$> otherGroups groups.
Proof.
  induction groups as [|[n g] groups IH]; [done|].
  unfold otherGroups in *. rewrite fmap_cons. cbn [List.filter].
  change (prod_map id sortByTimestamp (n, g)).1 with n.
  change (n, g).1 with n.
  destruct (notComprehensive n); rewrite ?fmap_cons, IH; done.
Qed.

(** Writing a comprehensive report leaves the other files as they are. *)
Lemma otherFiles_writeFile now content dir :
  otherFiles (writeFile (comprehensiveName now) content dir) = otherFiles dir.
Proof.
  assert (notComprehensive (typeOfReport (comprehensiveName now)) = false)
    as Hty by done.
  induction dir as [|[n c] dir IH]; cbn [writeFile].
  - rewrite otherFiles_cons. cbn [fst]. by rewrite Hty.
  - destruct (String.eqb_spec n (comprehensiveName now)) as [->|Hne];
      rewrite !otherFiles_cons; cbn [fst].
    + by rewrite Hty.
    + by rewrite IH.
Qed.

Lemma generateReport_otherGroups clock tick dir :
  forallb stampedFile (otherFiles dir) = true →
  otherGroups (reports (generateReport clock tick dir).1.1)
  = prod_map id sortByTimestamp <$> fold_left collectStamped (otherFiles dir) [].
Proof.
  intros Hst. unfold generateReport.
  pose proof (collect_otherGroups clock dir [] tick Hst) as Hc.
  destruct (fold_left (collectStep clock) dir ([], tick)) as [groups tick1].
  simpl in *. by rewrite otherGroups_sorted, Hc.
Qed.

Lemma generateReport_dir clock tick dir :
  ∃ now, (generateReport clock tick dir).1.2
         = writeFile (comprehensiveName now)
                     (Some (reportJson (generateReport clock tick dir).1.1)) dir.
Proof.
  unfold generateReport.
  destruct (fold_left (collectStep clock) dir ([], tick)) as [groups tick1].
  simpl. eauto.
Qed.

(** C8, as the code has it: when every stored result other than the
    comprehensive reports carries a timestamp of its own, two calls of
    [generateReport()] in a row give the same [reports] content apart
    from the group [comprehensive], which holds the reports that the
    calls themselves stored: each call writes its report into the
    directory that the next call reads. *)
Theorem reports_equal_apart_from_comprehensive (clock : Clock) (tick : nat)
    (dir : list ReportFile) :
  forallb stampedFile (otherFiles dir) = true →
  otherGroups (snd (reportsTwice clock tick dir))
  = otherGroups (fst (reportsTwice clock tick dir))
  ∧ ∃ now, (generateReport clock tick dir).1.2
           = writeFile (comprehensiveName now)
                       (Some (reportJson (generateReport clock tick dir).1.1))
                       dir.
Proof.
  intros Hst. split; [|apply generateReport_dir].
  unfold reportsTwice.
  pose proof (generateReport_otherGroups clock tick dir Hst) as H1.
  destruct (generateReport_dir clock tick dir) as [now Hdir].
  destruct (generateReport clock tick dir) as [[r1 dir1] tick1].
  simpl in *. subst dir1.
  pose proof (generateReport_otherGroups clock tick1
                (writeFile (comprehensiveName now) (Some (reportJson r1)) dir))
    as H2.
  rewrite otherFiles_writeFile in H2. specialize (H2 Hst).
  destruct (generateReport clock tick1 _) as [[r2 dir2] tick2].
  simpl in *. by rewrite H1, H2.
Qed.

Lemma reports_equal_apart_from_comprehensive_witness :
  otherGroups (snd (reportsTwice tickingClock 0 oneVisualRun))
  = otherGroups (fst (reportsTwice tickingClock 0 oneVisualRun)).
Proof.
  exact (proj1 (reports_equal_apart_from_comprehensive
                  tickingClock 0 oneVisualRun eq_refl)).
Defined.

(** C8, as stated, fails: the second of two calls in a row finds the
    report of the first call in the directory and lists it in a group of
    its own. *)
Lemma second_report_lists_the_first :
  groupNames (fst (reportsTwice tickingClock 0 oneVisualRun)) = ["visual"]
  ∧ groupNames (snd (reportsTwice tickingClock 0 oneVisualRun))
    = ["visual"; "comprehensive"]
  ∧ filesOfGroup "comprehensive" (snd (reportsTwice tickingClock 0 oneVisualRun))
    = ["comprehensive_1700000005001.json"]
  ∧ fst (reportsTwice tickingClock 0 oneVisualRun)
    ≠ snd (reportsTwice tickingClock 0 oneVisualRun).
Proof. by vm_compute. Qed.

(** * Further properties of the dispatcher *)

(** *** No task is lost *)

Lemma length_settled (l : list Task.t) i k :
  l !! i = Some k → length l = S (length (delete i l)).
Proof.
  intros Hi. by rewrite (Permutation_length (delete_Permutation _ _ _ Hi)).
Qed.

Lemma issuedIds_cons a acts :
  issuedIds (a :: acts) = issuedIds [a] ++ issuedIds acts.
Proof. unfold issuedIds. simpl. by destruct (issuedId a). Qed.

Lemma taskIds_asEnqueued (l : list Task.t) :
  taskIds (asEnqueued <$> l) = taskIds l.
Proof. unfold taskIds. rewrite <- list_fmap_compose. by apply list_fmap_ext. Qed.

Lemma completions_length ns : completions ns = length (completedTasks ns).
Proof.
  unfold completions, completedTasks.
  induction ns as [|[] ns IH]; simpl; by rewrite ?IH.
Qed.

Lemma terminalFailures_length ns :
  terminalFailures ns = length (failedTasks ns).
Proof.
  unfold terminalFailures, failedTasks.
  induction ns as [|[] ns IH]; simpl; by rewrite ?IH.
Qed.

(** X1: no task is lost or duplicated: after every run from a new
    orchestrator the ids that [queueTask] has handed out are, each as
    many times as it was handed out, the ids of the tasks in the queue,
    of the tasks in execution, of the tasks whose completion was
    announced and of the tasks whose terminal failure was announced,
    taken together; so the number of enqueue steps is the number of
    tasks in these four places. *)
Theorem every_task_accounted (bound : nat) (acts : list Action) (s : State) :
  run (newOrchestrator bound) acts = Some s →
  issuedIds acts
  ≡ₚ taskIds (taskQueue s) ++ taskIds (awaiting s)
     ++ taskIds (completedTasks (notices s))
     ++ taskIds (failedTasks (notices s))
  ∧ length (issuedIds acts) = accounted s.
Proof.
  intros Hrun.
  assert (issuedIds acts
          ≡ₚ taskIds (taskQueue s) ++ taskIds (awaiting s)
             ++ taskIds (completedTasks (notices s))
             ++ taskIds (failedTasks (notices s))) as Hperm.
  { rewrite issuedIds_enqueuedTasks.
    pose proof (run_whereabouts acts _ _ Hrun) as Hw. simpl in Hw.
    unfold taskIds at 1. rewrite <- Hw.
    fold (taskIds (asEnqueued <$> whereabouts s)).
    rewrite taskIds_asEnqueued. unfold whereabouts, taskIds.
    by rewrite !fmap_app. }
  split; [done|].
  rewrite (Permutation_length Hperm). unfold accounted, taskIds.
  rewrite !length_app, !length_fmap, completions_length,
    terminalFailures_length. lia.
Qed.

Lemma every_task_accounted_witness :
  ∃ s, run (newOrchestrator 2) fiveQueued = Some s
       ∧ issuedIds fiveQueued
         ≡ₚ taskIds (taskQueue s) ++ taskIds (awaiting s)
            ++ taskIds (completedTasks (notices s))
            ++ taskIds (failedTasks (notices s))
       ∧ length (issuedIds fiveQueued) = accounted s.
Proof.
  eexists. split; [vm_compute; reflexivity|].
  apply (every_task_accounted 2 fiveQueued). vm_compute. reflexivity.
Defined.

(** *** No slot idles while a task waits *)

Lemma processQueue_idleSlots s :
  size (runningTasks s) = length (awaiting s) →
  idleSlots (processQueue s) = pred (idleSlots s)
  ∧ retryTimers (processQueue s) = retryTimers s.
Proof.
  intros Hsize.
  destruct (processQueue_cases s) as [[-> [Hfull|Hq]]|(k & q & Hq & Hlt & ->)];
    unfold idleSlots; simpl.
  - split; [|done]. lia.
  - split; [|done]. rewrite Hq. simpl. lia.
  - rewrite Hq, length_app. simpl. split; [|done]. lia.
Qed.

Lemma step_idleSlots U s a s' :
  ids_wf U s → step s a = Some s' →
  (∀ i, issuedId a = Some i → i ∉ U) →
  (idleSlots s ≤ retryTimers s)%nat →
  (idleSlots s' ≤ retryTimers s')%nat.
Proof.
  intros Hwf Hstep Hfresh Hinv.
  destruct a as [idNow suffix ty opts now|i child| |[name content]];
    simpl in Hstep.
  - injection Hstep as <-.
    pose proof (enqueue_ids_wf U s (newTask (generateTaskId idNow suffix) ty opts now)
                  Hwf (Hfresh _ eq_refl)) as Hwf1.
    destruct (processQueue_idleSlots _ (ids_wf_size _ _ Hwf1)) as [-> ->].
    unfold idleSlots in *. simpl.
    rewrite (Permutation_length (sortByPriority_perm _)), length_app. simpl. lia.
  - destruct (awaiting s !! i) as [k|] eqn:Hi; [|done]. injection Hstep as <-.
    pose proof (length_settled _ _ _ Hi) as Hlen.
    unfold resume, releaseSlot.
    destruct (executeTask k child) as [r|e];
      [|destruct (Task.retryCount k <? Task.maxRetries k)].
    + destruct (processQueue_idleSlots
                  (mkState (taskQueue s) (delete (Task.id k) (runningTasks s))
                           (maxConcurrentTasks s) (delete i (awaiting s))
                           (retryTimers s) (notices s ++ [taskCompleted k r])
                           (reportsDir s))) as [-> ->].
      { eapply ids_wf_size, settle_ids_wf; eauto. }
      unfold idleSlots in *. simpl. lia.
    + unfold idleSlots in *. simpl. lia.
    + destruct (processQueue_idleSlots
                  (mkState (taskQueue s) (delete (Task.id k) (runningTasks s))
                           (maxConcurrentTasks s) (delete i (awaiting s))
                           (retryTimers s) (notices s ++ [taskFailed k e])
                           (reportsDir s))) as [-> ->].
      { eapply ids_wf_size, settle_ids_wf; eauto. }
      unfold idleSlots in *. simpl. lia.
  - destruct (retryTimers s) as [|n] eqn:Ht; [done|]. injection Hstep as <-.
    destruct (processQueue_idleSlots
                (mkState (taskQueue s) (runningTasks s) (maxConcurrentTasks s)
                         (awaiting s) n (notices s) (reportsDir s))) as [-> ->].
    { simpl. by eapply ids_wf_size. }
    unfold idleSlots in *. simpl. lia.
  - injection Hstep as <-. done.
Qed.

Lemma run_idleSlots acts : ∀ U s s',
  ids_wf U s → run s acts = Some s' →
  NoDup (issuedIds acts) → (∀ i, i ∈ issuedIds acts → i ∉ U) →
  (idleSlots s ≤ retryTimers s)%nat →
  (idleSlots s' ≤ retryTimers s')%nat.
Proof.
  induction acts as [|a acts IH]; intros U s s' Hwf Hrun Hnd Hfresh Hinv;
    simpl in Hrun.
  - by injection Hrun as <-.
  - destruct (step s a) as [s1|] eqn:Hstep; [|done].
    assert (issuedIds (a :: acts) = issuedIds [a] ++ issuedIds acts) as Hsplit.
    { unfold issuedIds. simpl. by destruct (issuedId a). }
    rewrite Hsplit in *. apply NoDup_app in Hnd as (_ & Hdisj & Hnd).
    assert (∀ i, issuedId a = Some i → i ∉ U) as Hfresh1.
    { intros i Hi. apply Hfresh. unfold issuedIds. simpl. rewrite Hi. set_solver. }
    eapply (IH (list_to_set (issuedIds [a]) ∪ U) s1 s');
      [by eapply step_ids_wf|done|done| |by eapply step_idleSlots].
    intros i Hi [Hin|Hin]%elem_of_union.
    + apply elem_of_list_to_set in Hin. by eapply Hdisj.
    + eapply Hfresh; [|done]. set_solver.
Qed.

(** X2: the dispatcher is work-conserving up to the retry delay: when no
    id is handed out twice, in every reachable state the number of queued
    tasks that a free slot could take is at most the number of pending
    retry timers; with no timer pending, a task waits only while every
    slot is taken. *)
Theorem no_idle_slot_without_timer (bound : nat) (acts : list Action)
    (s : State) :
  run (newOrchestrator bound) acts = Some s →
  NoDup (issuedIds acts) →
  (idleSlots s ≤ retryTimers s)%nat
  ∧ (retryTimers s = 0%nat → taskQueue s ≠ [] → length (awaiting s) = bound).
Proof.
  intros Hrun Hnd.
  assert (idleSlots s ≤ retryTimers s)%nat as Hidle.
  { eapply (run_idleSlots acts ∅); eauto using newOrchestrator_ids_wf.
    - set_solver.
    - unfold idleSlots. simpl. lia. }
  split; [done|]. intros Ht Hq.
  pose proof (executions_bounded bound acts s Hrun Hnd) as Hexec.
  destruct (run_size acts bound _ _ Hrun eq_refl) as [Hb _];
    [simpl; rewrite map_size_empty; lia|].
  unfold idleSlots in Hidle. rewrite Hb, Ht in Hidle.
  destruct (taskQueue s); [done|]. simpl in Hidle. lia.
Qed.

Lemma no_idle_slot_without_timer_witness :
  ∃ s, run (newOrchestrator 2) fiveQueued = Some s
       ∧ (idleSlots s ≤ retryTimers s)%nat.
Proof.
  eexists. split; [vm_compute; reflexivity|].
  apply (no_idle_slot_without_timer 2 fiveQueued); [vm_compute; reflexivity|].
  refine (bool_decide_unpack _ _). vm_compute. exact I.
Defined.

(** *** Free slots take tasks in the order of their enqueueing *)

Lemma enqueue_into_free_slots acts : ∀ s,
  forallb isEnqueue acts = true →
  taskQueue s = [] →
  (size (runningTasks s) ≤ length (awaiting s))%nat →
  (length (awaiting s) + length acts ≤ maxConcurrentTasks s)%nat →
  ∃ s', run s acts = Some s'
        ∧ awaiting s' = awaiting s ++ enqueuedTasks acts
        ∧ taskQueue s' = []
        ∧ dispatched (notices s') = dispatched (notices s) ++ enqueuedTasks acts.
Proof.
  induction acts as [|a acts IH]; intros s Hall Hq Hsize Hroom.
  - exists s. by rewrite !app_nil_r.
  - simpl in Hall. apply andb_true_iff in Hall as [Ha Hall].
    destruct a as [idNow suffix ty opts now| | |]; try done.
    set (k := newTask (generateTaskId idNow suffix) ty opts now).
    simpl in Hroom.
    set (s1 := mkState [] (<[Task.id k := k]> (runningTasks s))
                       (maxConcurrentTasks s) (awaiting s ++ [k])
                       (retryTimers s) (notices s ++ [taskStarted k])
                       (reportsDir s)).
    assert (step s (Enqueue idNow suffix ty opts now) = Some s1) as Hstep.
    { simpl. rewrite Hq. simpl. unfold processQueue. simpl.
      by destruct (Nat.leb_spec (maxConcurrentTasks s) (size (runningTasks s)));
        [lia|]. }
    destruct (IH s1 Hall eq_refl) as (s' & Hs' & Haw & Hq' & Hd).
    { subst s1. cbn [runningTasks awaiting]. rewrite map_size_insert, length_app.
      cbn [length]. destruct (runningTasks s !! Task.id k); simpl; lia. }
    { subst s1. cbn [runningTasks awaiting maxConcurrentTasks].
      rewrite length_app. simpl. lia. }
    exists s'. rewrite (run_cons _ _ _ _ Hstep). split; [done|].
    change (enqueuedTasks (Enqueue idNow suffix ty opts now :: acts))
      with (k :: enqueuedTasks acts).
    simpl in Haw, Hd. rewrite Haw, Hd, dispatched_app, <- !app_assoc. done.
Qed.

(** X3: while slots are free priority plays no part: tasks enqueued on a
    new orchestrator, no more of them than it has slots, are all
    dispatched at once, in the order of their enqueueing. *)
Theorem free_slots_take_enqueue_order (bound : nat) (acts : list Action) :
  forallb isEnqueue acts = true →
  (length acts ≤ bound)%nat →
  ∃ s, run (newOrchestrator bound) acts = Some s
       ∧ awaiting s = enqueuedTasks acts
       ∧ dispatched (notices s) = enqueuedTasks acts
       ∧ taskQueue s = [].
Proof.
  intros Hall Hlen.
  destruct (enqueue_into_free_slots acts (newOrchestrator bound) Hall eq_refl)
    as (s & Hs & Haw & Hq & Hd); simpl; [rewrite map_size_empty; lia|lia|].
  exists s. done.
Qed.

Lemma free_slots_take_enqueue_order_witness :
  (fun s => Task.priority <$> awaiting s)
    <$> run defaultOrchestrator enqueue513 = Some [5; 1; 3].
Proof.
  destruct (free_slots_take_enqueue_order 3 enqueue513 eq_refl ltac:(simpl; lia))
    as (s & Hs & Haw & _).
  unfold defaultOrchestrator. rewrite Hs. simpl. rewrite Haw. reflexivity.
Defined.

(** *** Stopping *)

(** X4: [stopAllTasks] clears the books and nothing else.  The
    executions go on: the next task enqueued is dispatched at once, on
    top of them, so that more than [maxConcurrentTasks] tasks can be in
    execution; a stopped task that completes is still announced; and a
    stopped task that fails below its retry ceiling is put back into the
    emptied queue. *)
Theorem stopAllTasks_leaves_executions (s : State) :
  taskQueue (stopAllTasks s) = []
  ∧ runningTasks (stopAllTasks s) = ∅
  ∧ (∀ taskId taskType options now,
        (0 < maxConcurrentTasks s)%nat →
        let s' := snd (queueTask taskId taskType options now (stopAllTasks s)) in
        awaiting s' = awaiting s ++ [newTask taskId taskType options now]
        ∧ taskQueue s' = [])
  ∧ (∀ i k c result,
        awaiting s !! i = Some k →
        executeTask k c = inl result →
        ∃ s', step (stopAllTasks s) (Settle i c) = Some s'
              ∧ taskCompleted k result ∈ notices s')
  ∧ (∀ i k c,
        awaiting s !! i = Some k →
        rejects k c = true →
        Task.retryCount k < Task.maxRetries k →
        ∃ s', step (stopAllTasks s) (Settle i c) = Some s'
              ∧ taskQueue s' = [Task.retried k]
              ∧ retryTimers s' = S (retryTimers s)).
Proof.
  split; [done|]. split; [done|]. split; [|split].
  - intros taskId ty opts now Hpos. simpl. unfold processQueue. simpl.
    rewrite map_size_empty.
    by destruct (Nat.leb_spec (maxConcurrentTasks s) 0); [lia|].
  - intros i k c r Hi Hr. simpl. rewrite Hi, Hr. eexists. split; [done|].
    unfold resume, releaseSlot. apply processQueue_notices. simpl. set_solver.
  - intros i k c Hi Hrej Hlt. simpl. rewrite Hi.
    destruct (rejects_inr _ _ Hrej) as [e ->]. unfold resume.
    destruct (Z.ltb_spec (Task.retryCount k) (Task.maxRetries k)); [|lia].
    eexists. split; [done|]. done.
Qed.

Lemma stopAllTasks_leaves_executions_witness :
  run (newOrchestrator 1) [occupySlot] = Some occupiedState
  ∧ ∃ s', step (stopAllTasks occupiedState) (Settle 0 exitedWith1) = Some s'
          ∧ taskQueue s' = [Task.retried allTask].
Proof.
  split; [vm_compute; reflexivity|].
  destruct (proj2 (proj2 (proj2 (proj2
              (stopAllTasks_leaves_executions occupiedState))))
              0%nat allTask exitedWith1 eq_refl eq_refl eq_refl)
    as (s' & Hs' & Hq & _).
  exists s'. split; [exact Hs'|exact Hq].
Defined.

(** *** A retried task and the next sort *)

Lemma insertByPriority_split k q :
  ∃ before after,
    insertByPriority k q = before ++ k :: after
    ∧ q = before ++ after
    ∧ Forall (fun h => Task.priority h < Task.priority k) before.
Proof.
  induction q as [|h q (before & after & Hins & Hq & Hlt)]; simpl.
  - exists [], []. by repeat split.
  - destruct (Z.leb_spec (Task.priority k) (Task.priority h)).
    + exists [], (h :: q). by repeat split.
    + exists (h :: before), after. rewrite Hins, Hq. split; [done|].
      split; [done|]. by constructor.
Qed.

(** X5: the task at the head of the queue, where a failed task is put
    back for its retry, keeps its place through the sort of the next
    enqueue against every task of the same or a greater priority value:
    in the order of dispatch after that enqueue, only tasks of a strictly
    lower priority value stand before it. *)
Theorem head_yields_to_lower_values_only (s : State) (k : Task.t)
    (q : list Task.t) (taskId taskType : string) (options : Options.t)
    (now : Z) :
  taskQueue s = k :: q →
  let s' := snd (queueTask taskId taskType options now s) in
  ∃ before after,
    awaiting s' ++ taskQueue s' = awaiting s ++ before ++ k :: after
    ∧ Forall (fun h => Task.priority h < Task.priority k) before
    ∧ before ++ after ≡ₚ q ++ [newTask taskId taskType options now].
Proof.
  intros Hq s'. unfold s', queueTask. simpl. rewrite processQueue_tasks.
  simpl. rewrite Hq. simpl.
  destruct (insertByPriority_split k
              (sortByPriority (q ++ [newTask taskId taskType options now])))
    as (before & after & -> & Hsorted & Hlt).
  exists before, after. split; [done|]. split; [done|].
  by rewrite <- Hsorted, sortByPriority_perm.
Qed.

Lemma head_yields_to_lower_values_only_witness :
  let s' := snd (queueTask "task_1700000000009_h7g6f5d4s" "content"
                           (withPriority 5) 1700000000009 retryPendingState) in
  ∃ before after,
    awaiting s' ++ taskQueue s' = before ++ Task.retried slowTask :: after
    ∧ Forall (fun h => Task.priority h < 5) before.
Proof.
  destruct (head_yields_to_lower_values_only
              retryPendingState (Task.retried slowTask) [urgentTask]
              "task_1700000000009_h7g6f5d4s" "content" (withPriority 5)
              1700000000009 eq_refl) as (before & after & Hs' & Hlt & _).
  exists before, after. split; [exact Hs'|exact Hlt].
Defined.

(** * Properties of names and of the reports directory *)

Lemma typeOfReport_clean name : hasUnderscore (typeOfReport name) = false.
Proof.
  induction name as [|c rest IH]; [done|]. simpl.
  destruct (Ascii.eqb c "_") eqn:Hc; [done|]. simpl. by rewrite Hc.
Qed.

Lemma typeOfReport_segment t rest :
  hasUnderscore t = false → typeOfReport (t +:+ "_" +:+ rest) = t.
Proof.
  induction t as [|c t IH]; [done|]. simpl.
  destruct (Ascii.eqb c "_"); [done|]. simpl. intros Ht. by rewrite IH.
Qed.

Lemma afterUnderscore_segment t rest :
  hasUnderscore t = false → afterUnderscore (t +:+ "_" +:+ rest) = rest.
Proof.
  induction t as [|c t IH]; [done|]. simpl.
  destruct (Ascii.eqb c "_"); [done|]. simpl. intros Ht. by rewrite IH.
Qed.

Lemma typeOfReport_whole name :
  hasUnderscore name = false → typeOfReport name = name.
Proof.
  induction name as [|c rest IH]; [done|]. simpl.
  destruct (Ascii.eqb c "_"); [done|]. simpl. intros Ht. by rewrite IH.
Qed.

(** X6: the type of a report file is the first segment of its name: it
    holds no underscore, it is what stands before the first underscore,
    and a name without underscore is its own type.  So
    [security_scan_<time>.json] is of type [security], the type that
    [getStatus] looks for. *)
Theorem typeOfReport_first_segment :
  (∀ name, hasUnderscore (typeOfReport name) = false)
  ∧ (∀ t rest, hasUnderscore t = false →
               typeOfReport (t +:+ "_" +:+ rest) = t)
  ∧ (∀ name, hasUnderscore name = false → typeOfReport name = name).
Proof.
  split; [apply typeOfReport_clean|].
  split; [apply typeOfReport_segment|apply typeOfReport_whole].
Qed.

Lemma typeOfReport_first_segment_witness :
  typeOfReport ("security" +:+ "_" +:+ "scan_1700000002000.json") = "security"
  ∧ typeOfReport "dashboard.html" = "dashboard.html".
Proof.
  split.
  - apply (proj1 (proj2 typeOfReport_first_segment)). reflexivity.
  - apply (proj2 (proj2 typeOfReport_first_segment)). reflexivity.
Defined.

(** *** Task ids *)

Lemma digits_clean d : hasUnderscore (NilEmpty.string_of_uint d) = false.
Proof. induction d; simpl; done. Qed.

Lemma decimal_clean n : hasUnderscore (decimal n) = false.
Proof.
  unfold decimal, NilZero.string_of_int, NilZero.string_of_uint.
  destruct (Z.to_int n) as [d|d]; destruct d; simpl; try done;
    apply digits_clean.
Qed.

Lemma decimal_inj n m : decimal n = decimal m → n = m.
Proof.
  unfold decimal. intros Heq. apply DecimalZ.to_int_inj.
  assert (∀ z, Z.to_int z ≠ Decimal.Pos Decimal.Nil
               ∧ Z.to_int z ≠ Decimal.Neg Decimal.Nil) as Hnil.
  { intros [|p|p]; simpl; split; try done;
      intros [= H]; by apply DecimalPos.Unsigned.to_uint_nonnil in H. }
  destruct (Hnil n) as [Hn1 Hn2], (Hnil m) as [Hm1 Hm2].
  pose proof (NilZero.isi _ Hn1 Hn2) as Hn.
  pose proof (NilZero.isi _ Hm1 Hm2) as Hm.
  rewrite Heq in Hn. congruence.
Qed.

Lemma append_inj_l prefix a b : prefix +:+ a = prefix +:+ b → a = b.
Proof. induction prefix as [|c prefix IH]; simpl; [done|]. intros [= H]. auto. Qed.

(** X7: [generateTaskId] gives different ids whenever the clock reading
    or the random suffix differ. *)
Theorem generateTaskId_inj (now1 now2 : Z) (suffix1 suffix2 : string) :
  generateTaskId now1 suffix1 = generateTaskId now2 suffix2 →
  now1 = now2 ∧ suffix1 = suffix2.
Proof.
  unfold generateTaskId. fold (decimal now1). fold (decimal now2).
  intros Heq%append_inj_l.
  pose proof (f_equal typeOfReport Heq) as Hty.
  pose proof (f_equal afterUnderscore Heq) as Hrest.
  rewrite !typeOfReport_segment in Hty by apply decimal_clean.
  rewrite !afterUnderscore_segment in Hrest by apply decimal_clean.
  split; [by apply decimal_inj|done].
Qed.

Lemma generateTaskId_inj_witness :
  1700000000001 = 1700000000001 ∧ "k3j9x0q2a" = "k3j9x0q2a".
Proof.
  exact (generateTaskId_inj 1700000000001 1700000000001 "k3j9x0q2a" "k3j9x0q2a"
           eq_refl).
Defined.

(** *** Files *)

Lemma lookupField_setField_eq {A} name (v : A) fields :
  lookupField name (setField name v fields) = Some v.
Proof.
  induction fields as [|[n w] fields IH]; simpl.
  - by rewrite String.eqb_refl.
  - destruct (String.eqb_spec n name) as [->|Hne]; simpl.
    + by rewrite String.eqb_refl.
    + by destruct (String.eqb_spec n name).
Qed.

Lemma lookupField_setField_ne {A} name other (v : A) fields :
  other ≠ name →
  lookupField other (setField name v fields) = lookupField other fields.
Proof.
  intros Hne. induction fields as [|[n w] fields IH]; simpl.
  - by destruct (String.eqb_spec name other).
  - destruct (String.eqb_spec n name) as [->|Hn]; simpl.
    + by destruct (String.eqb_spec name other).
    + by rewrite IH.
Qed.

Lemma writeFile_setField name content dir :
  writeFile name content dir = setField name content dir.
Proof.
  induction dir as [|[n c] dir IH]; [done|]. simpl. by rewrite IH.
Qed.

(** X8: [generateReport] stores the report that it returns: the report
    reads back from the directory under its name
    [comprehensive_<time>.json], and every other file reads as before. *)
Theorem generateReport_stores_its_report (clock : Clock) (tick : nat)
    (dir : list ReportFile) :
  ∃ now,
    readReport (generateReport clock tick dir).1.2 (comprehensiveName now)
    = Some (reportJson (generateReport clock tick dir).1.1)
    ∧ ∀ other, other ≠ comprehensiveName now →
               readReport (generateReport clock tick dir).1.2 other
               = readReport dir other.
Proof.
  destruct (generateReport_dir clock tick dir) as [now ->]. exists now.
  unfold readReport. rewrite writeFile_setField. split.
  - by rewrite lookupField_setField_eq.
  - intros other Hne. by rewrite lookupField_setField_ne.
Qed.

(** *** The order of file names *)

Lemma ascii_compare_refl c : Ascii.compare c c = Eq.
Proof. unfold Ascii.compare. apply N.compare_refl. Qed.

Lemma ascii_compare_trans a b c :
  Ascii.compare a b = Lt → Ascii.compare b c = Lt → Ascii.compare a c = Lt.
Proof.
  unfold Ascii.compare. rewrite !N.compare_lt_iff. lia.
Qed.

Lemma string_compare_trans a : ∀ b c,
  String.compare a b = Lt → String.compare b c = Lt → String.compare a c = Lt.
Proof.
  induction a as [|x a IH]; intros [|y b] [|z c]; simpl; try done.
  destruct (Ascii.compare x y) eqn:Hxy; try done;
    destruct (Ascii.compare y z) eqn:Hyz; try done.
  - apply Ascii.compare_eq_iff in Hxy, Hyz. subst.
    rewrite ascii_compare_refl. apply IH.
  - apply Ascii.compare_eq_iff in Hxy. subst. by rewrite Hyz.
  - apply Ascii.compare_eq_iff in Hyz. subst. by rewrite Hxy.
  - by rewrite (ascii_compare_trans _ _ _ Hxy Hyz).
Qed.

Lemma string_compare_refl a : String.compare a a = Eq.
Proof.
  induction a as [|x a IH]; [done|]. simpl. by rewrite ascii_compare_refl.
Qed.

Lemma string_leb_iff a b :
  String.leb a b = true ↔ a = b ∨ String.compare a b = Lt.
Proof.
  unfold String.leb. destruct (String.compare a b) eqn:Hc; split; try done;
    try (intros [->|?]; [by rewrite string_compare_refl in Hc|done]).
  - left. by apply String.compare_eq_iff.
  - auto.
Qed.

Lemma string_leb_trans a b c :
  String.leb a b = true → String.leb b c = true → String.leb a c = true.
Proof.
  rewrite !string_leb_iff. intros [->|Hab] [->|Hbc]; auto.
  right. by eapply string_compare_trans.
Qed.

Lemma string_ltb_leb a b : String.ltb a b = true → String.leb a b = true.
Proof. unfold String.ltb, String.leb. by destruct (String.compare a b). Qed.

Lemma string_not_ltb_leb a b : String.ltb a b = false → String.leb b a = true.
Proof.
  unfold String.ltb, String.leb. rewrite (String.compare_antisym b a).
  by destruct (String.compare a b).
Qed.

Lemma string_leb_empty a : String.leb "" a = true.
Proof. by destruct a. Qed.

(** *** The latest report of each type *)

Lemma lookupField_None {A} name (fields : list (string * A)) :
  lookupField name fields = None ↔ name ∉ fst <$> fields.
Proof.
  induction fields as [|[n v] fields IH]; simpl; [set_solver|].
  destruct (String.eqb_spec n name) as [->|Hne]; [set_solver|].
  rewrite IH. set_solver.
Qed.

Lemma lookupField_elem {A} name (v : A) fields :
  lookupField name fields = Some v → (name, v) ∈ fields.
Proof.
  induction fields as [|[n w] fields IH]; simpl; [done|].
  destruct (String.eqb_spec n name) as [->|Hne]; [|set_solver].
  intros [= ->]. set_solver.
Qed.

Lemma setField_key_elem {A} name (v : A) fields k :
  k ∈ fst <$> setField name v fields ↔ k = name ∨ k ∈ fst <$> fields.
Proof.
  induction fields as [|[n w] fields IH]; simpl; [set_solver|].
  destruct (String.eqb_spec n name) as [->|Hne]; simpl; [set_solver|].
  rewrite elem_of_cons, IH, elem_of_cons. naive_solver.
Qed.

Lemma setField_keys {A} name (v : A) fields :
  NoDup (fst <$> fields) → NoDup (fst <$> setField name v fields).
Proof.
  induction fields as [|[n w] fields IH]; simpl.
  - intros _. apply NoDup_singleton.
  - intros [Hn Hnd]%NoDup_cons.
    destruct (String.eqb_spec n name) as [->|Hne]; simpl.
    + by apply NoDup_cons.
    + apply NoDup_cons. split; [|by apply IH].
      rewrite setField_key_elem. naive_solver.
Qed.

Lemma latest_replace seen acc report :
  latest_inv seen acc →
  (∀ cur, lookupField (typeOfReport report) acc = Some cur →
          String.eqb cur "" || String.ltb cur report = true) →
  latest_inv (seen ++ [report]) (setField (typeOfReport report) report acc).
Proof.
  intros (Hmax & Hnone & Hnd) Hcond. set (type := typeOfReport report) in *.
  split; [|split; [|by apply setField_keys]].
  - intros t n. destruct (decide (t = type)) as [->|Hne].
    + rewrite lookupField_setField_eq. intros [= <-].
      split; [set_solver|]. split; [done|].
      intros m [Hm|Hm%list_elem_of_singleton]%elem_of_app Hty.
      * destruct (lookupField type acc) as [cur|] eqn:Hcur.
        -- destruct (Hmax _ _ Hcur) as (_ & _ & Hle).
           eapply string_leb_trans; [by apply Hle|].
           destruct (orb_prop _ _ (Hcond _ eq_refl)) as [->%String.eqb_eq|Hlt].
           ++ apply string_leb_empty.
           ++ by apply string_ltb_leb.
        -- by destruct (Hnone _ Hcur m Hm).
      * subst m. apply string_leb_iff. by left.
    + rewrite lookupField_setField_ne by done. intros Hn.
      destruct (Hmax _ _ Hn) as (Hin & Hty & Hle).
      split; [set_solver|]. split; [done|].
      intros m [Hm|Hm%list_elem_of_singleton]%elem_of_app Hm';
        [by apply Hle|]. subst m. by subst t.
  - intros t. destruct (decide (t = type)) as [->|Hne].
    + by rewrite lookupField_setField_eq.
    + rewrite lookupField_setField_ne by done.
      intros Hn m [Hm|Hm%list_elem_of_singleton]%elem_of_app;
        [by eapply Hnone|].
      subst m. by intros <-.
Qed.

Lemma latest_keep seen acc report cur :
  latest_inv seen acc →
  lookupField (typeOfReport report) acc = Some cur →
  String.ltb cur report = false →
  latest_inv (seen ++ [report]) acc.
Proof.
  intros (Hmax & Hnone & Hnd) Hcur Hnlt. split; [|split; [|done]].
  - intros t n Hn. destruct (Hmax _ _ Hn) as (Hin & Hty & Hle).
    split; [set_solver|]. split; [done|].
    intros m [Hm|Hm%list_elem_of_singleton]%elem_of_app Hm'; [by apply Hle|].
    subst m. rewrite Hm' in Hcur. rewrite Hcur in Hn. injection Hn as <-.
    by apply string_not_ltb_leb.
  - intros t Hn m [Hm|Hm%list_elem_of_singleton]%elem_of_app;
      [by eapply Hnone|].
    subst m. intros <-. congruence.
Qed.

Lemma latestStep_inv seen acc report :
  latest_inv seen acc → latest_inv (seen ++ [report]) (latestStep acc report).
Proof.
  intros Hinv. unfold latestStep.
  destruct (lookupField (typeOfReport report) acc) as [cur|] eqn:Hcur.
  - destruct (String.eqb cur "" || String.ltb cur report) eqn:Hcond.
    + apply latest_replace; [done|]. intros cur' Hcur'. congruence.
    + apply orb_false_iff in Hcond as [_ Hnlt]. by eapply latest_keep.
  - apply latest_replace; [done|]. intros cur' Hcur'. congruence.
Qed.

Lemma latestReports_inv names : ∀ seen acc,
  latest_inv seen acc →
  latest_inv (seen ++ names) (fold_left latestStep names acc).
Proof.
  induction names as [|r names IH]; intros seen acc Hinv; simpl.
  - by rewrite app_nil_r.
  - rewrite (assoc_L (++) seen [r] names : seen ++ r :: names = (seen ++ [r]) ++ names).
    by apply IH, latestStep_inv.
Qed.

Lemma latestReportsOf_inv dir :
  latest_inv (fst <$> dir) (latestReportsOf dir).
Proof.
  unfold latestReportsOf.
  apply (latestReports_inv (map fst dir) [] []).
  split; [done|]. split; [set_solver|constructor].
Qed.

(** The greatest name of a type is the one that [getStatus] keeps. *)
Lemma latestReportsOf_greatest dir type name :
  name ∈ fst <$> dir →
  typeOfReport name = type →
  (∀ m, m ∈ fst <$> dir → typeOfReport m = type → String.leb m name = true) →
  lookupField type (latestReportsOf dir) = Some name.
Proof.
  intros Hin Hty Hmax.
  destruct (latestReportsOf_inv dir) as (Hgreatest & Hnone & _).
  destruct (lookupField type (latestReportsOf dir)) as [n|] eqn:Hn.
  - destruct (Hgreatest _ _ Hn) as (Hin' & Hty' & Hle). f_equal.
    apply String.leb_antisym; [by apply Hmax|by apply Hle].
  - by destruct (Hnone _ Hn name Hin).
Qed.

(** *** The status view, field by field *)

Lemma lookupField_assignAll {A} key (updates : list (string * A)) : ∀ fields,
  NoDup (fst <$> updates) →
  lookupField key (assignAll updates fields)
  = match lookupField key updates with
    | Some v => Some v
    | None => lookupField key fields
    end.
Proof.
  unfold assignAll.
  induction updates as [|[n v] updates IH]; intros fields Hnd; [done|].
  simpl in Hnd. apply NoDup_cons in Hnd as [Hn Hnd]. simpl.
  rewrite (IH _ Hnd). destruct (String.eqb_spec n key) as [->|Hne].
  - apply lookupField_None in Hn. rewrite Hn.
    by rewrite lookupField_setField_eq.
  - rewrite lookupField_setField_ne by done. done.
Qed.

Lemma statusFields_keys type reportData updates :
  statusFields type reportData = Some updates →
  fst <$> updates = statusKeys type.
Proof.
  unfold statusFields, statusKeys.
  destruct (String.eqb type "performance");
    [|destruct (String.eqb type "security");
      [|destruct (String.eqb type "content")]];
    destruct (first reportData); simpl; intros [= <-]; done.
Qed.

Lemma statusKeys_NoDup type : NoDup (statusKeys type).
Proof.
  unfold statusKeys.
  destruct (String.eqb type "performance");
    [|destruct (String.eqb type "security");
      [|destruct (String.eqb type "content")]];
    by refine (bool_decide_unpack _ _).
Qed.

Lemma statusKeys_disjoint type type' key :
  type ≠ type' → key ∈ statusKeys type → key ∉ statusKeys type'.
Proof.
  unfold statusKeys. intros Hne.
  destruct (String.eqb_spec type "performance") as [->|?];
    [|destruct (String.eqb_spec type "security") as [->|?];
      [|destruct (String.eqb_spec type "content") as [->|?]]];
    (destruct (String.eqb_spec type' "performance") as [->|?];
     [|destruct (String.eqb_spec type' "security") as [->|?];
       [|destruct (String.eqb_spec type' "content") as [->|?]]]);
    try done; set_solver.
Qed.

Lemma statusOf_keys dir entry :
  statusOf dir entry = [] ∨ fst <$> statusOf dir entry = statusKeys (fst entry).
Proof.
  unfold statusOf. destruct (readReport dir (snd entry)) as [d|]; [|by left].
  destruct (statusFields (fst entry) d) as [u|] eqn:Hu; [|by left].
  right. by eapply statusFields_keys.
Qed.

Lemma statusOf_NoDup dir entry : NoDup (fst <$> statusOf dir entry).
Proof.
  destruct (statusOf_keys dir entry) as [->| ->];
    [constructor|apply statusKeys_NoDup].
Qed.

Lemma getStatus_fold dir :
  getStatus dir
  = fold_left (fun status entry => assignAll (statusOf dir entry) status)
              (latestReportsOf dir) [].
Proof.
  unfold getStatus. generalize (@nil (string * JsVal)).
  induction (latestReportsOf dir) as [|[type reportFile] entries IH];
    intros status; [done|].
  simpl. rewrite IH. f_equal. unfold statusOf. simpl.
  destruct (readReport dir reportFile) as [d|]; [|done].
  by destruct (statusFields type d).
Qed.

(** The entries of the other types leave the fields of a type alone. *)
Lemma fold_status_others dir type key entries : ∀ status,
  type ∉ fst <$> entries →
  key ∈ statusKeys type →
  lookupField key
    (fold_left (fun status entry => assignAll (statusOf dir entry) status)
               entries status)
  = lookupField key status.
Proof.
  induction entries as [|entry entries IH]; intros status Hout Hkey; [done|].
  simpl. rewrite IH by set_solver.
  rewrite lookupField_assignAll by apply statusOf_NoDup.
  assert (lookupField key (statusOf dir entry) = None) as ->; [|done].
  apply lookupField_None.
  destruct (statusOf_keys dir entry) as [->| ->]; [set_solver|].
  eapply statusKeys_disjoint; [|done]. set_solver.
Qed.

Lemma fold_status_owner dir type reportFile key entries : ∀ status,
  NoDup (fst <$> entries) →
  (type, reportFile) ∈ entries →
  key ∈ statusKeys type →
  lookupField key
    (fold_left (fun status entry => assignAll (statusOf dir entry) status)
               entries status)
  = match lookupField key (statusOf dir (type, reportFile)) with
    | Some v => Some v
    | None => lookupField key status
    end.
Proof.
  induction entries as [|entry entries IH]; intros status Hnd Hin Hkey;
    [set_solver|].
  simpl in Hnd. apply NoDup_cons in Hnd as [Hhead Hnd]. simpl.
  apply elem_of_cons in Hin as [<-|Hin].
  - rewrite (fold_status_others dir type key) by done.
    by rewrite lookupField_assignAll by apply statusOf_NoDup.
  - rewrite (IH _ Hnd Hin Hkey).
    rewrite lookupField_assignAll by apply statusOf_NoDup.
    assert (lookupField key (statusOf dir entry) = None) as ->; [|done].
    apply lookupField_None.
    destruct (statusOf_keys dir entry) as [->| ->]; [set_solver|].
    eapply statusKeys_disjoint; [|done].
    intros Heq. apply Hhead. rewrite <- Heq.
    by apply (list_elem_of_fmap_2 fst _ (type, reportFile)).
Qed.

(** X9: [getStatus] takes every field of a report type from the one file
    of that type whose name is greatest in the order of strings, the
    latest for names that end in timestamps of equal length; the older
    files of the type play no part.  When that file cannot be read or
    holds [null], the fields of its type are absent from the status. *)
Theorem getStatus_reads_greatest_name (dir : list ReportFile)
    (type name key : string) :
  key ∈ statusKeys type →
  name ∈ fst <$> dir →
  typeOfReport name = type →
  (∀ m, m ∈ fst <$> dir → typeOfReport m = type → String.leb m name = true) →
  lookupField key (getStatus dir)
  = fieldOfReport type key (readReport dir name).
Proof.
  intros Hkey Hin Hty Hmax.
  pose proof (latestReportsOf_greatest dir type name Hin Hty Hmax) as Hlatest.
  destruct (latestReportsOf_inv dir) as (_ & _ & Hnd).
  rewrite getStatus_fold.
  rewrite (fold_status_owner dir type name key _ [] Hnd
             (lookupField_elem _ _ _ Hlatest) Hkey).
  unfold statusOf, fieldOfReport. simpl.
  destruct (readReport dir name) as [d|]; simpl; [|done].
  destruct (statusFields type d) as [u|]; simpl; [|done].
  by destruct (lookupField key u).
Qed.

Lemma getStatus_reads_greatest_name_witness :
  lookupField "perf-score" (getStatus threeRuns) = Some (JNum 60).
Proof.
  rewrite (getStatus_reads_greatest_name threeRuns "performance"
             "performance_1700000003000.json" "perf-score").
  - reflexivity.
  - set_solver.
  - set_solver.
  - reflexivity.
  - intros m Hm _. simpl in Hm.
    repeat (apply elem_of_cons in Hm as [->|Hm]; [reflexivity|]).
    by apply elem_of_nil in Hm.
Defined.

(** * Properties of the comprehensive report *)

Lemma insertByTimestamp_perm e l : insertByTimestamp e l ≡ₚ e :: l.
Proof.
  induction l as [|h l IH]; simpl; [done|].
  destruct (timestampDiff e h <=? 0); [done|].
  rewrite IH. apply Permutation_swap.
Qed.

Lemma sortByTimestamp_perm l : sortByTimestamp l ≡ₚ l.
Proof.
  induction l as [|e l IH]; simpl; [done|].
  by rewrite insertByTimestamp_perm, IH.
Qed.

Lemma entriesOf_cons n g (groups : list (string * list ReportEntry)) :
  entriesOf ((n, g) :: groups) = g ++ entriesOf groups.
Proof. done. Qed.

Lemma entriesOf_setField type g groups :
  (length (entriesOf (setField type g groups))
   + length (default [] (lookupField type groups))
   = length (entriesOf groups) + length g)%nat.
Proof.
  induction groups as [|[n g'] groups IH]; cbn [setField lookupField].
  - rewrite entriesOf_cons, length_app. simpl. lia.
  - destruct (String.eqb_spec n type) as [->|Hne];
      rewrite !entriesOf_cons, !length_app; simpl; lia.
Qed.

Lemma lookupField_default_elem type (groups : list (string * list ReportEntry))
    e :
  e ∈ default [] (lookupField type groups) →
  ∃ g, lookupField type groups = Some g ∧ e ∈ g.
Proof.
  destruct (lookupField type groups) as [g|]; simpl; [eauto|set_solver].
Qed.

(** Entering a group again under its type changes nothing that matters. *)
Lemma collect_inv_reenter seen groups type :
  collect_inv seen groups →
  collect_inv seen
    (setField type (default [] (lookupField type groups)) groups).
Proof.
  intros (Hnd & Hsound & Hall & Hcount).
  assert (∀ t, default [] (lookupField t
                 (setField type (default [] (lookupField type groups)) groups))
               = default [] (lookupField t groups)) as Hsame.
  { intros t. destruct (decide (t = type)) as [->|Hne].
    - by rewrite lookupField_setField_eq.
    - by rewrite lookupField_setField_ne. }
  split; [by apply setField_keys|]. split; [|split].
  - intros t g e Hg He.
    assert (e ∈ default [] (lookupField t groups)) as He'
      by (by rewrite <- Hsame, Hg).
    apply lookupField_default_elem in He' as (g' & Hg' & He'').
    by eapply Hsound.
  - intros f Hf Hl. destruct (Hall f Hf Hl) as (g & e & Hg & He & Hfe).
    destruct (decide (typeOfReport (fst f) = type)) as [<-|Hne].
    + rewrite lookupField_setField_eq, Hg. simpl. eauto.
    + rewrite lookupField_setField_ne by done. eauto.
  - pose proof (entriesOf_setField type
                  (default [] (lookupField type groups)) groups). lia.
Qed.

Lemma collect_inv_more seen groups f :
  collect_inv seen groups → listed f = false →
  collect_inv (seen ++ [f]) groups.
Proof.
  intros (Hnd & Hsound & Hall & Hcount) Hl. split; [done|]. split; [|split].
  - intros t g e Hg He. destruct (Hsound _ _ _ Hg He). set_solver.
  - intros f' [Hf'|Hf'%list_elem_of_singleton]%elem_of_app Hl';
      [by apply Hall|]. subst f'. congruence.
  - rewrite length_app. simpl. lia.
Qed.

Lemma collectStep_inv clock seen groups tick f :
  collect_inv seen groups →
  collect_inv (seen ++ [f]) (fst (collectStep clock (groups, tick) f)).
Proof.
  intros Hinv. unfold collectStep.
  destruct f as [name content]. simpl.
  destruct content as [content|];
    [|by apply collect_inv_more].
  case_bool_decide as Hinh.
  { assert (collect_inv (seen ++ [(name, Some content)]) groups) as Hmore.
    { apply collect_inv_more; [done|]. unfold listed. simpl.
      by rewrite bool_decide_eq_true_2. }
    by destruct (strictMember content "timestamp"). }
  set (type := typeOfReport name).
  set (group := default [] (lookupField type groups)).
  pose proof (collect_inv_reenter seen groups type Hinv) as Hre.
  fold group in Hre.
  destruct (strictMember content "timestamp") as [ts|] eqn:Hts.
  2: { simpl. apply collect_inv_more; [done|]. unfold listed. simpl.
       by rewrite Hts, andb_false_r. }
  assert (∃ stamp tick',
            (if truthy ts then (ts, tick) else (JNum (clock tick), S tick))
            = (stamp, tick')) as (stamp & tick' & ->)
    by (destruct (truthy ts); eauto).
  simpl.
  destruct Hre as (Hnd & Hsound & Hall & Hcount).
  assert (lookupField type (setField type group groups) = Some group) as Hgroup
    by apply lookupField_setField_eq.
  split; [by apply setField_keys|]. split; [|split].
  - intros t g e. destruct (decide (t = type)) as [->|Hne].
    + rewrite lookupField_setField_eq. intros [= <-].
      intros [He|He%list_elem_of_singleton]%elem_of_app.
      * destruct (Hsound _ _ _ Hgroup He). set_solver.
      * subst e. simpl. split; [done|set_solver].
    + rewrite lookupField_setField_ne by done. intros Hg He.
      destruct (Hsound _ _ _ Hg He). set_solver.
  - intros f' [Hf'|Hf'%list_elem_of_singleton]%elem_of_app Hl'.
    + destruct (Hall f' Hf' Hl') as (g & e & Hg & He & Hfe).
      destruct (decide (typeOfReport (fst f') = type)) as [Heq|Hne].
      * rewrite Heq in *. rewrite lookupField_setField_eq.
        rewrite Hgroup in Hg. injection Hg as <-.
        exists (group ++ [mkReportEntry name stamp content]), e.
        split; [done|]. split; [set_solver|done].
      * rewrite lookupField_setField_ne by done. eauto.
    + subst f'. simpl. fold type. rewrite lookupField_setField_eq.
      exists (group ++ [mkReportEntry name stamp content]),
             (mkReportEntry name stamp content).
      split; [done|]. split; [set_solver|done].
  - pose proof (entriesOf_setField type
                  (group ++ [mkReportEntry name stamp content])
                  (setField type group groups)) as Hlen.
    rewrite Hgroup in Hlen. simpl in Hlen.
    rewrite !length_app in *. simpl in *. lia.
Qed.

Lemma collect_inv_fold clock dir : ∀ seen groups tick,
  collect_inv seen groups →
  collect_inv (seen ++ dir)
              (fst (fold_left (collectStep clock) dir (groups, tick))).
Proof.
  induction dir as [|f dir IH]; intros seen groups tick Hinv; cbn [fold_left].
  - by rewrite app_nil_r.
  - destruct (collectStep clock (groups, tick) f) as [groups1 tick1] eqn:Hstep.
    replace (seen ++ f :: dir) with ((seen ++ [f]) ++ dir)
      by (by rewrite <- app_assoc).
    apply IH. pose proof (collectStep_inv clock seen groups tick f Hinv) as H1.
    by rewrite Hstep in H1.
Qed.

Lemma lookupField_sorted type (groups : list (string * list ReportEntry)) :
  lookupField type (prod_map id sortByTimestamp <$> groups)
  = sortByTimestamp <$> lookupField type groups.
Proof.
  induction groups as [|[n g] groups IH]; [done|].
  rewrite fmap_cons. simpl. by destruct (String.eqb n type).
Qed.

Lemma keys_sorted (groups : list (string * list ReportEntry)) :
  fst <$> (prod_map id sortByTimestamp <$> groups) = fst <$> groups.
Proof.
  induction groups as [|[n g] groups IH]; [done|].
  rewrite !fmap_cons. simpl. by rewrite IH.
Qed.

Lemma entriesOf_sorted (groups : list (string * list ReportEntry)) :
  length (entriesOf (prod_map id sortByTimestamp <$> groups))
  = length (entriesOf groups).
Proof.
  induction groups as [|[n g] groups IH]; [done|].
  rewrite fmap_cons. change (prod_map id sortByTimestamp (n, g))
    with (n, sortByTimestamp g).
  rewrite !entriesOf_cons, !length_app, IH.
  by rewrite (Permutation_length (sortByTimestamp_perm g)).
Qed.

(** *** The order of enumeration *)

Lemma insertByIndex_perm {A} (field : string * A) l :
  insertByIndex field l ≡ₚ field :: l.
Proof.
  induction l as [|h l IH]; [done|]. simpl.
  destruct (indexOf field <? indexOf h); [done|].
  by rewrite IH, Permutation_swap.
Qed.

Lemma propertyOrder_perm {A} (fields : list (string * A)) :
  propertyOrder fields ≡ₚ fields.
Proof.
  unfold propertyOrder.
  assert (foldr insertByIndex [] (List.filter isArrayIndex fields)
          ≡ₚ List.filter isArrayIndex fields) as ->.
  { induction (List.filter isArrayIndex fields) as [|h l IH]; [done|].
    simpl. by rewrite insertByIndex_perm, IH. }
  induction fields as [|h l IH]; [done|]. simpl.
  destruct (isArrayIndex h); simpl.
  - by rewrite IH.
  - by rewrite <- Permutation_middle, IH.
Qed.

(** Names that are not array indices are enumerated in the order of
    their creation. *)
Lemma propertyOrder_names {A} (fields : list (string * A)) :
  Forall (fun field => isArrayIndex field = false) fields →
  propertyOrder fields = fields.
Proof.
  intros Hall. unfold propertyOrder.
  assert (List.filter isArrayIndex fields = []) as ->.
  { induction Hall as [|x l Hx Hl IH]; [done|]. simpl. by rewrite Hx. }
  simpl. induction Hall as [|x l Hx Hl IH]; [done|].
  simpl. rewrite Hx. simpl. by rewrite IH.
Qed.

Lemma maxOf_perm l l' : l ≡ₚ l' → maxOf l = maxOf l'.
Proof.
  induction 1 as [|x l l' _ IH|x y l|l1 l2 l3 _ IH1 _ IH2];
    [done| | |congruence].
  - simpl. by rewrite IH.
  - simpl. destruct (toNumber x) as [a|], (toNumber y) as [b|],
      (maxOf l) as [| |m]; try done; f_equal; lia.
Qed.

Lemma generateReport_reports clock tick dir :
  ∃ groups,
    collect_inv dir groups
    ∧ reports (generateReport clock tick dir).1.1
      = prod_map id sortByTimestamp <$> groups
    ∧ totalReports (summary (generateReport clock tick dir).1.1) = length dir
    ∧ latestActivity (summary (generateReport clock tick dir).1.1)
      = maxOf (timestamp <$> concat
                 (snd <$> (prod_map id sortByTimestamp <$> groups))).
Proof.
  unfold generateReport.
  pose proof (collect_inv_fold clock dir [] [] tick) as Hinv.
  destruct (fold_left (collectStep clock) dir ([], tick)) as [groups tick1].
  exists groups. simpl in *. split.
  { apply Hinv.
    split; [constructor|]. split; [done|]. split; [set_solver|done]. }
  split; [done|]. split; [done|].
  apply maxOf_perm. by rewrite propertyOrder_perm.
Qed.

(** X10: the [reports] of [generateReport] list the directory faithfully:
    each type has one group; every entry of a group is a readable file of
    the directory, of the type of the group, with its content; every file
    that is readable (and whose content is not [null], and whose type is
    not a name inherited from [Object.prototype]) has its entry; and
    [totalReports] counts all the files, so that it is never less than
    the number of entries. *)
Theorem generateReport_lists_the_directory (clock : Clock) (tick : nat)
    (dir : list ReportFile) :
  let r := (generateReport clock tick dir).1.1 in
  NoDup (fst <$> reports r)
  ∧ (∀ type g e, lookupField type (reports r) = Some g → e ∈ g →
                 typeOfReport (file e) = type
                 ∧ (file e, Some (data e)) ∈ dir)
  ∧ (∀ f, f ∈ dir → listed f = true →
          ∃ g e, lookupField (typeOfReport (fst f)) (reports r) = Some g
                 ∧ e ∈ g ∧ file e = fst f ∧ snd f = Some (data e))
  ∧ totalReports (summary r) = length dir
  ∧ (length (entriesOf (reports r)) ≤ totalReports (summary r))%nat.
Proof.
  destruct (generateReport_reports clock tick dir)
    as (groups & (Hnd & Hsound & Hall & Hcount) & Hr & Htotal & _).
  simpl. rewrite Hr, Htotal. split; [by rewrite keys_sorted|].
  split; [|split; [|split; [done|by rewrite entriesOf_sorted]]].
  - intros type g e. rewrite lookupField_sorted.
    destruct (lookupField type groups) as [g0|] eqn:Hg0; [|done].
    simpl. intros [= <-]. rewrite sortByTimestamp_perm. by eapply Hsound.
  - intros f Hf Hl. destruct (Hall f Hf Hl) as (g & e & Hg & He & Hfe).
    exists (sortByTimestamp g), e. rewrite lookupField_sorted, Hg.
    split; [done|]. by rewrite sortByTimestamp_perm.
Qed.

(** *** The order of a group *)

Lemma timestampDiff_numeric a b :
  numericStamp a → numericStamp b → timestampDiff a b = stampOf b - stampOf a.
Proof.
  unfold numericStamp, timestampDiff, stampOf. by intros [x ->] [y ->].
Qed.

Lemma insertByTimestamp_sorted e l :
  numericStamp e → Forall numericStamp l →
  StronglySorted newerFirst l →
  StronglySorted newerFirst (insertByTimestamp e l).
Proof.
  intros He Hnum Hsorted. induction Hsorted as [|h l Hl IH Hh]; simpl.
  - repeat constructor.
  - apply Forall_cons in Hnum as [Hhn Hnum].
    rewrite (timestampDiff_numeric e h) by done.
    destruct (Z.leb_spec (stampOf h - stampOf e) 0).
    + constructor; [by constructor|]. constructor; [unfold newerFirst; lia|].
      eapply Forall_impl; [exact Hh|]. unfold newerFirst. intros; simpl in *; lia.
    + constructor; [by apply IH|]. rewrite insertByTimestamp_perm.
      constructor; [unfold newerFirst; lia|done].
Qed.

Lemma sortByTimestamp_sorted l :
  Forall numericStamp l → StronglySorted newerFirst (sortByTimestamp l).
Proof.
  induction l as [|e l IH]; simpl; [constructor|].
  intros [He Hl]%Forall_cons. apply insertByTimestamp_sorted; [done| |by apply IH].
  by rewrite sortByTimestamp_perm.
Qed.

(** X11: a group of the report whose timestamps are numbers is in the
    order latest first. *)
Theorem generateReport_groups_latest_first (clock : Clock) (tick : nat)
    (dir : list ReportFile) (type : string) (g : list ReportEntry) :
  lookupField type (reports (generateReport clock tick dir).1.1) = Some g →
  Forall numericStamp g →
  StronglySorted newerFirst g.
Proof.
  destruct (generateReport_reports clock tick dir) as (groups & _ & -> & _).
  rewrite lookupField_sorted.
  destruct (lookupField type groups) as [g0|]; [|done]. simpl.
  intros [= <-] Hnum. apply sortByTimestamp_sorted.
  by rewrite sortByTimestamp_perm in Hnum.
Qed.

Lemma generateReport_groups_latest_first_witness :
  ∃ g, lookupField "visual"
         (reports (generateReport tickingClock 0 threeVisualRuns).1.1) = Some g
       ∧ stampOf <$> g = [1700000002990; 1700000001990; 1700000000990]
       ∧ StronglySorted newerFirst g.
Proof.
  eexists. split; [vm_compute; reflexivity|]. split; [reflexivity|].
  apply (generateReport_groups_latest_first tickingClock 0 threeVisualRuns
           "visual").
  - vm_compute. reflexivity.
  - repeat constructor; by eexists.
Defined.

(** *** The latest activity *)

Lemma maxOf_numeric l :
  Forall (fun v => is_Some (toNumber v)) l →
  match maxOf l with
  | NaN => False
  | NegInfinity => l = []
  | Finite m =>
      (∀ v, v ∈ l → default 0 (toNumber v) ≤ m)
      ∧ ∃ v, v ∈ l ∧ toNumber v = Some m
  end.
Proof.
  induction l as [|v l IH]; [done|]. intros [[x Hx] Hl]%Forall_cons.
  specialize (IH Hl). simpl. rewrite Hx.
  destruct (maxOf l) as [| |m]; [done| |].
  - subst l. split; [|exists v; split; [set_solver|done]].
    intros v' Hv'%list_elem_of_singleton. subst v'. rewrite Hx. simpl. lia.
  - destruct IH as [Hle (w & Hw & Hwm)]. split.
    + intros v' [->|Hv']%elem_of_cons; [rewrite Hx; simpl; lia|].
      specialize (Hle _ Hv'). lia.
    + destruct (Z.max_spec x m) as [[_ ->]|[_ ->]].
      * exists w. split; [set_solver|done].
      * exists v. split; [set_solver|done].
Qed.

(** X12: when the timestamps of the entries are numbers, the
    [latestActivity] of the summary is the greatest of them, the
    timestamp of some entry; a report without entries has minus infinity
    there, which the stored file shows as [null]. *)
Theorem latestActivity_is_greatest_timestamp (clock : Clock) (tick : nat)
    (dir : list ReportFile) :
  let r := (generateReport clock tick dir).1.1 in
  Forall numericStamp (entriesOf (reports r)) →
  match latestActivity (summary r) with
  | NaN => False
  | NegInfinity =>
      entriesOf (reports r) = []
      ∧ lookupField "latestActivity"
          (match member (reportJson r) "summary" with
           | JObj fields => fields
           | _ => []
           end) = Some JNull
  | Finite m =>
      (∀ e, e ∈ entriesOf (reports r) → stampOf e ≤ m)
      ∧ ∃ e, e ∈ entriesOf (reports r) ∧ stampOf e = m
  end.
Proof.
  destruct (generateReport_reports clock tick dir)
    as (groups & _ & Hr & _ & Hmax).
  simpl. rewrite Hr. intros Hnum.
  pose proof (maxOf_numeric
                (timestamp <$> entriesOf (prod_map id sortByTimestamp <$> groups)))
    as Hspec.
  assert (latestActivity (summary (generateReport clock tick dir).1.1)
          = maxOf (timestamp
                     <$> entriesOf (prod_map id sortByTimestamp <$> groups)))
    as Heq by (by rewrite Hmax).
  unfold reportJson. simpl. rewrite Heq.
  destruct (maxOf _) as [| |m].
  - apply Hspec. by apply Forall_fmap.
  - split; [|done]. by eapply fmap_nil_inv, Hspec, Forall_fmap.
  - destruct Hspec as [Hle (v & Hv & Hvm)]; [by apply Forall_fmap|]. split.
    + intros e He. apply (Hle (timestamp e)). by apply list_elem_of_fmap_2.
    + apply list_elem_of_fmap in Hv as (e & -> & He). exists e.
      split; [done|]. unfold stampOf. by rewrite Hvm.
Qed.

Lemma latestActivity_is_greatest_timestamp_witness :
  Forall (fun e => stampOf e ≤ 1700000002990)
         (entriesOf (reports (generateReport tickingClock 0 threeVisualRuns).1.1)).
Proof.
  assert (latestActivity (summary (generateReport tickingClock 0 threeVisualRuns).1.1)
          = Finite 1700000002990) as Hlatest by (vm_compute; reflexivity).
  pose proof (latestActivity_is_greatest_timestamp tickingClock 0 threeVisualRuns)
    as Hmax.
  cbv zeta in Hmax. rewrite Hlatest in Hmax. apply Forall_forall, Hmax.
  assert (entriesOf (reports (generateReport tickingClock 0 threeVisualRuns).1.1)
          = [ mkReportEntry "visual_regression_1700000003000.json"
                            (JNum 1700000002990) (visualRun 1700000002990);
              mkReportEntry "visual_regression_1700000002000.json"
                            (JNum 1700000001990) (visualRun 1700000001990);
              mkReportEntry "visual_regression_1700000001000.json"
                            (JNum 1700000000990) (visualRun 1700000000990) ])
    as -> by (vm_compute; reflexivity).
  repeat constructor; by eexists.
Defined.

(** * Further properties of retries, outcomes and schedules *)

(** X13: the keys of the schedule tables of the repository, the one that
    [loadConfig] falls back to and the one of [config.json], are not task
    types that [executeTask] knows: every task that the scheduler
    enqueues from them is rejected with the unknown-task-type error at
    every attempt, and no probe is run for it. *)
Theorem scheduled_types_are_unknown (tm : IntervalTimer) :
  tm ∈ startScheduler defaultScheduling
  ∨ tm ∈ startScheduler configJsonScheduling →
  knownType (timerTask tm) = false
  ∧ ∀ idNow suffix now c,
      executeTask (firedTask tm idNow suffix now) c
      = inr (UnknownTaskType (timerTask tm)).
Proof.
  assert (knownType (timerTask tm) = false →
          ∀ idNow suffix now c,
            executeTask (firedTask tm idNow suffix now) c
            = inr (UnknownTaskType (timerTask tm))) as Hrej.
  { intros Hun idNow suffix now c.
    by apply (unknown_type_rejects (firedTask tm idNow suffix now)). }
  assert (knownType (timerTask tm) = false →
          knownType (timerTask tm) = false
          ∧ ∀ idNow suffix now c,
              executeTask (firedTask tm idNow suffix now) c
              = inr (UnknownTaskType (timerTask tm))) as Hboth by auto.
  intros [Hin|Hin]; apply Hboth; clear Hrej Hboth;
    apply startScheduler_timers in Hin as (ty & e & Hin & _ & ->);
    simpl;
    repeat (apply elem_of_cons in Hin as [[= -> _]|Hin]; [reflexivity|]);
    by apply elem_of_nil in Hin.
Qed.

Lemma scheduled_types_are_unknown_witness :
  executeTask
    (firedTask (mkTimer 300000 "healthCheck" (Options.mk (Some 3) None None))
               1700000000001 "k3j9x0q2a" 1700000000001) exitedOk
  = inr (UnknownTaskType "healthCheck").
Proof.
  apply (scheduled_types_are_unknown
           (mkTimer 300000 "healthCheck" (Options.mk (Some 3) None None))).
  left. apply startScheduler_timers.
  exists "healthCheck", (mkEntry 300 true None). split; [set_solver|done].
Defined.

(** X14: a task that fails at every attempt, alone on a new orchestrator,
    is executed [maxRetries] + 1 times, whatever [maxRetries] from 0 on
    the task has, one attempt per firing of the retry timer, and then
    its terminal failure is announced, once, leaving the queue, the
    executions and the running map empty. *)
Theorem failing_task_attempted_maxRetries_plus_1 (bound : nat) (idNow : Z)
    (suffix taskType : string) (options : Options.t) (now : Z)
    (c0 : ChildOutcome) (children : list ChildOutcome) :
  (0 < bound)%nat →
  let k := newTask (generateTaskId idNow suffix) taskType options now in
  Z.of_nat (length children) = Task.maxRetries k →
  forallb (rejects k) (c0 :: children) = true →
  ∃ s e,
    run (newOrchestrator bound)
        (Enqueue idNow suffix taskType options now
         :: Settle 0 c0 :: retryRounds children) = Some s
    ∧ Z.of_nat (attempts (Task.id k) (notices s)) = Task.maxRetries k + 1
    ∧ failures (Task.id k) (notices s) = 1%nat
    ∧ List.last (notices s) (taskStarted k)
      = taskFailed (Nat.iter (length children) Task.retried k) e
    ∧ Task.retryCount (Nat.iter (length children) Task.retried k)
      = Task.maxRetries k
    ∧ awaiting s = [] ∧ taskQueue s = [] ∧ runningTasks s = ∅.
Proof.
  intros Hpos k Hlen Hrej.
  assert (Z.of_nat (length children) = Z.max 0 (Task.maxRetries k)) as Hlen'
    by lia.
  destruct (always_failing_task bound idNow suffix taskType options now c0
              children Hpos Hlen' Hrej)
    as (s & e & Hs & _ & Hn & Hat & Hfl & Haw & Hq & Hmap).
  fold k in Hn, Hat, Hfl.
  exists s, e. split; [done|]. split; [rewrite Hat; lia|]. split; [done|].
  split; [|split; [|done]].
  - rewrite Hn.
    change (taskStarted k :: ?l ++ ?m) with ((taskStarted k :: l) ++ m).
    by rewrite last_last.
  - destruct (retryCount_iter (length children) k) as [-> _].
    change (Task.retryCount k) with 0. lia.
Qed.

Lemma failing_task_attempted_maxRetries_plus_1_witness :
  ∃ s, run defaultOrchestrator bogusToTheEnd = Some s
       ∧ Z.of_nat (attempts (Task.id bogusTask) (notices s)) = 4.
Proof.
  destruct (failing_task_attempted_maxRetries_plus_1 3 1700000000001
              "k3j9x0q2a" "bogus" Options.empty 1700000000001
              exitedOk [exitedOk; exitedOk; exitedOk]
              ltac:(lia) eq_refl eq_refl) as (s & e & Hs & Hat & _).
  exists s. split; [exact Hs|exact Hat].
Defined.

(** *** One outcome per task *)

Lemma outcomes_snoc i ns n :
  outcomes i (ns ++ [n])
  = (outcomes i ns + if isOutcomeOf i n then 1 else 0)%nat.
Proof.
  unfold outcomes. rewrite List.filter_app, length_app. simpl.
  by destruct (isOutcomeOf i n).
Qed.

Lemma outcome_inv_mono U U' s : U ⊆ U' → outcome_inv U s → outcome_inv U' s.
Proof. intros HU (Hnone & Hone & Hout). split; [done|split; [done|]]. set_solver. Qed.

Lemma processQueue_outcome_inv U s :
  outcome_inv U s → outcome_inv U (processQueue s).
Proof.
  intros (Hnone & Hone & Hout).
  destruct (processQueue_cases s) as [[-> _]|(k & q & Hq & _ & ->)]; [done|].
  unfold outcome_inv. simpl.
  assert (∀ i, outcomes i (notices s ++ [taskStarted k]) = outcomes i (notices s))
    as Hsame by (intros i; rewrite outcomes_snoc; simpl; lia).
  split; [|split]; intros; rewrite Hsame; auto.
  apply Hnone. rewrite Hq. rewrite <- app_assoc in *. done.
Qed.

(** The activation of task [k] ends with its outcome [n]. *)
Lemma settle_outcome_inv U s i k n b t d m :
  ids_wf U s → outcome_inv U s →
  awaiting s !! i = Some k →
  isOutcomeOf (Task.id k) n = true →
  (∀ j, isOutcomeOf j n = true → j = Task.id k) →
  outcome_inv U (mkState (taskQueue s) m b (delete i (awaiting s)) t
                         (notices s ++ [n]) d).
Proof.
  intros [Hnd Hiss _] (Hnone & Hone & Hout) Hi Hn Honly.
  pose proof (delete_Permutation _ _ _ Hi) as Hperm.
  assert (NoDup (taskIds (k :: delete i (awaiting s) ++ taskQueue s))) as Hnd'.
  { unfold taskIds in *. by rewrite Hperm in Hnd. }
  assert (k ∈ awaiting s ++ taskQueue s) as Hk by (rewrite Hperm; set_solver).
  unfold outcome_inv. simpl. split; [|split].
  - intros k' Hk'. rewrite outcomes_snoc.
    assert (Task.id k' ≠ Task.id k) as Hne by (by eapply other_id).
    destruct (isOutcomeOf (Task.id k') n) eqn:Hk'n;
      [by apply Honly in Hk'n|].
    rewrite Hnone; [done|]. rewrite Hperm. set_solver.
  - intros j. rewrite outcomes_snoc.
    destruct (isOutcomeOf j n) eqn:Hjn.
    + apply Honly in Hjn. subst j. rewrite (Hnone k Hk). lia.
    + specialize (Hone j). lia.
  - intros j Hj. rewrite outcomes_snoc.
    destruct (isOutcomeOf j n) eqn:Hjn.
    + apply Honly in Hjn. subst j. by destruct (Hj (Hiss k Hk)).
    + rewrite (Hout j Hj). done.
Qed.

Lemma step_outcome_inv U s a s' :
  ids_wf U s → outcome_inv U s → step s a = Some s' →
  (∀ i, issuedId a = Some i → i ∉ U) →
  outcome_inv (list_to_set (issuedIds [a]) ∪ U) s'.
Proof.
  intros Hwf Hinv Hstep Hfresh. pose proof Hinv as (Hnone & Hone & Hout).
  destruct a as [idNow suffix ty opts now|i child| |[name content]];
    simpl in Hstep.
  - injection Hstep as <-. apply processQueue_outcome_inv.
    unfold outcome_inv. simpl. split; [|split].
    + intros k. rewrite sortByPriority_perm, app_assoc.
      intros [Hk|Hk%list_elem_of_singleton]%elem_of_app; [by apply Hnone|].
      subst k. apply Hout. by apply Hfresh.
    + done.
    + intros j Hj. apply Hout. set_solver.
  - apply (outcome_inv_mono U); [set_solver|].
    destruct (awaiting s !! i) as [k|] eqn:Hi; [|done]. injection Hstep as <-.
    unfold resume, releaseSlot.
    destruct (executeTask k child) as [r|e];
      [|destruct (Task.retryCount k <? Task.maxRetries k)].
    + apply processQueue_outcome_inv.
      apply (settle_outcome_inv U s i k); try done; simpl.
      * apply String.eqb_refl.
      * by intros j <-%String.eqb_eq.
    + unfold outcome_inv. simpl.
      pose proof (delete_Permutation _ _ _ Hi) as Hperm.
      assert (k ∈ awaiting s ++ taskQueue s) as Hk
        by (rewrite Hperm; set_solver).
      assert (∀ j, outcomes j (notices s ++ [retrying (Task.retried k)])
                   = outcomes j (notices s)) as Hsame
        by (intros j; rewrite outcomes_snoc; simpl; lia).
      split; [|split]; intros; rewrite Hsame; auto.
      rewrite <- Permutation_middle in H.
      apply elem_of_cons in H as [->|H]; [exact (Hnone k Hk)|].
      apply Hnone. rewrite Hperm. set_solver.
    + apply processQueue_outcome_inv.
      apply (settle_outcome_inv U s i k); try done; simpl.
      * apply String.eqb_refl.
      * by intros j <-%String.eqb_eq.
  - apply (outcome_inv_mono U); [set_solver|].
    destruct (retryTimers s); [done|]. injection Hstep as <-.
    by apply processQueue_outcome_inv.
  - apply (outcome_inv_mono U); [set_solver|]. by injection Hstep as <-.
Qed.

Lemma run_outcome_inv acts : ∀ U s s',
  ids_wf U s → outcome_inv U s → run s acts = Some s' →
  NoDup (issuedIds acts) → (∀ i, i ∈ issuedIds acts → i ∉ U) →
  ∃ U', ids_wf U' s' ∧ outcome_inv U' s'.
Proof.
  induction acts as [|a acts IH]; intros U s s' Hwf Hinv Hrun Hnd Hfresh;
    simpl in Hrun.
  - injection Hrun as <-. eauto.
  - destruct (step s a) as [s1|] eqn:Hstep; [|done].
    rewrite issuedIds_cons in *. apply NoDup_app in Hnd as (_ & Hdisj & Hnd).
    assert (∀ i, issuedId a = Some i → i ∉ U) as Hfresh1.
    { intros i Hi. apply Hfresh. unfold issuedIds. simpl. rewrite Hi. set_solver. }
    eapply (IH (list_to_set (issuedIds [a]) ∪ U) s1 s');
      [by eapply step_ids_wf|by eapply step_outcome_inv|done|done|].
    intros i Hi [Hin|Hin]%elem_of_union.
    + apply elem_of_list_to_set in Hin. by eapply Hdisj.
    + eapply Hfresh; [|done]. set_solver.
Qed.

(** X15: when no id is handed out twice, a task has at most one terminal
    outcome, completion or terminal failure, and a task with an outcome
    is neither queued nor in execution in any later state: it is never
    dispatched again. *)
Theorem at_most_one_outcome (bound : nat) (acts : list Action) (s : State) :
  run (newOrchestrator bound) acts = Some s →
  NoDup (issuedIds acts) →
  (∀ i, (outcomes i (notices s) ≤ 1)%nat)
  ∧ (∀ k, k ∈ awaiting s ++ taskQueue s →
          outcomes (Task.id k) (notices s) = 0%nat).
Proof.
  intros Hrun Hnd.
  destruct (run_outcome_inv acts ∅ (newOrchestrator bound) s)
    as (U' & _ & Hnone & Hone & _); try done.
  - apply newOrchestrator_ids_wf.
  - unfold outcome_inv. simpl.
    split; [set_solver|split; intros; unfold outcomes; simpl; lia].
Qed.

Lemma at_most_one_outcome_witness :
  ∃ s, run (newOrchestrator 2) fiveQueued = Some s
       ∧ ∀ i, (outcomes i (notices s) ≤ 1)%nat.
Proof.
  eexists. split; [vm_compute; reflexivity|].
  apply (at_most_one_outcome 2 fiveQueued); [vm_compute; reflexivity|].
  refine (bool_decide_unpack _ _). vm_compute. exact I.
Defined.

(** * The configuration as it is parsed from disk *)

Lemma armAll_table (table : list (string * ScheduleEntry)) :
  Parsed.armAll (prod_map id scheduleJson <$> table)
  = (armed <$> startScheduler table, Returned).
Proof.
  induction table as [|[taskType e] table IH]; [reflexivity|].
  rewrite fmap_cons. cbn [prod_map id fst snd Parsed.armAll].
  unfold startScheduler in *. cbn [omap list_omap].
  rewrite IH. destruct e as [i [] p]; cbn; [|reflexivity].
  do 3 f_equal. unfold armed; cbn. f_equal. f_equal. lia.
Qed.

Lemma armAll_app_null before taskType after :
  Parsed.armAll (before ++ (taskType, JNull) :: after)
  = (fst (Parsed.armAll before),
     match snd (Parsed.armAll before) with Returned => Threw | c => c end).
Proof.
  induction before as [|[ty sch] before IH]; [reflexivity|].
  cbn [app Parsed.armAll].
  destruct (strictMember sch "enabled") as [en|]; [|reflexivity].
  destruct (truthy en); [|exact IH].
  rewrite IH. reflexivity.
Qed.

Lemma propertyOrder_fmap {A B} (f : A → B) (fields : list (string * A)) :
  propertyOrder (prod_map id f <$> fields)
  = prod_map id f <$> propertyOrder fields.
Proof.
  assert (∀ (e : string * A) l,
            insertByIndex (prod_map id f e) (prod_map id f <$> l)
            = prod_map id f <$> insertByIndex e l) as Hins.
  { intros e l. induction l as [|h l IH]; [done|].
    rewrite fmap_cons. cbn [insertByIndex].
    change (indexOf (prod_map id f e)) with (indexOf e).
    change (indexOf (prod_map id f h)) with (indexOf h).
    destruct (indexOf e <? indexOf h); [done|].
    by rewrite IH, fmap_cons. }
  unfold propertyOrder. rewrite fmap_app. f_equal.
  - induction fields as [|h l IH]; [done|].
    rewrite fmap_cons. cbn [List.filter].
    change (isArrayIndex (prod_map id f h)) with (isArrayIndex h).
    destruct (isArrayIndex h); [|done].
    cbn [foldr]. by rewrite IH, Hins.
  - induction fields as [|h l IH]; [done|].
    rewrite fmap_cons. cbn [List.filter].
    change (isArrayIndex (prod_map id f h)) with (isArrayIndex h).
    destruct (isArrayIndex h); cbn [negb]; [done|].
    by rewrite fmap_cons, IH.
Qed.

(** X16: on a configuration whose [scheduling] is a table of entries
    [{interval, enabled}] (with or without [priority]), whatever the other
    fields, [startScheduler] returns normally, having armed one timer per
    enabled entry with the delay [interval * 1000] and the callback
    [queueTask(taskType, {priority: 3})], in the order in which
    [Object.entries] goes through the table: the names that are array
    indices first, in ascending order, then the other names as they stand
    in the table.  For the configuration that [loadConfig] falls back to,
    and writes to disk, when the file cannot be read, these are the five
    timers of the default table in its order. *)
Theorem parsed_scheduler_arms_enabled_entries :
  (∀ table others,
     Parsed.startScheduler (configWith (schedulingJson table) others)
     = (armed <$> startScheduler (propertyOrder table), Returned))
  ∧ Parsed.loadConfig None = (defaultConfig, Some defaultConfig)
  ∧ Parsed.startScheduler defaultConfig
    = (armed <$> startScheduler defaultScheduling, Returned).
Proof.
  split; [|split; reflexivity].
  intros table others. unfold Parsed.startScheduler, configWith, schedulingJson.
  cbn [strictMember member lookupField]. rewrite String.eqb_refl.
  cbn [default from_option id objectEntries].
  rewrite propertyOrder_fmap. apply armAll_table.
Qed.

(** X17: [loadConfig] takes a configuration file that parses as it is,
    without a check and without the defaults; when such a configuration
    has no [scheduling], or [null] there, [startScheduler] throws before it
    arms any timer; when an entry of the table is [null], it throws at that
    entry, and the timers of the enabled entries that [Object.entries]
    lists before it stay armed while those of the entries after it are
    never armed. *)
Theorem unchecked_config_stops_the_scheduler :
  (∀ config,
     member config "scheduling" = JUndefined
     ∨ member config "scheduling" = JNull →
     Parsed.loadConfig (Some config) = (config, None)
     ∧ Parsed.startScheduler config = ([], Threw))
  ∧ (∀ fields table taskType after others,
       propertyOrder fields
       = (prod_map id scheduleJson <$> table) ++ (taskType, JNull) :: after →
       Parsed.startScheduler (configWith (JObj fields) others)
       = (armed <$> startScheduler table, Threw)).
Proof.
  split.
  - intros config Hno. split; [reflexivity|].
    unfold Parsed.startScheduler, strictMember.
    destruct config; try reflexivity;
      destruct Hno as [-> | ->]; reflexivity.
  - intros fields table taskType after others Horder.
    unfold Parsed.startScheduler, configWith.
    cbn [strictMember member lookupField]. rewrite String.eqb_refl.
    cbn [default from_option id objectEntries].
    rewrite Horder, armAll_app_null, armAll_table. reflexivity.
Qed.

Lemma unchecked_config_stops_the_scheduler_witness :
  Parsed.loadConfig (Some (JObj [("notifications", JNull)]))
  = (JObj [("notifications", JNull)], None)
  ∧ Parsed.startScheduler (JObj [("notifications", JNull)]) = ([], Threw).
Proof.
  apply (proj1 unchecked_config_stops_the_scheduler).
  left; reflexivity.
Defined.

(** * The scores of the probe *)

Lemma above_mono (x y : Q) (c : Z) :
  (x <= y)%Q → above x c = true → above y c = true.
Proof.
  unfold above. intros Hxy Hx.
  apply negb_true_iff in Hx. apply negb_true_iff.
  destruct (Qle_bool y (inject_Z c)) eqn:Hy; [|reflexivity].
  apply Qle_bool_iff in Hy.
  assert (Qle_bool x (inject_Z c) = true) as Hx'
    by (apply Qle_bool_iff; eapply Qle_trans; eassumption).
  congruence.
Qed.

Lemma totalSizeMB_mono (d d' : PerformanceData.t) :
  ResourceAnalysis.totalSize (PerformanceData.resourceAnalysis d)
  ≤ ResourceAnalysis.totalSize (PerformanceData.resourceAnalysis d') →
  (totalSizeMB d <= totalSizeMB d')%Q.
Proof.
  intros H. unfold totalSizeMB, Qdiv.
  repeat apply Qmult_le_compat_r; try (rewrite <- Zle_Qle; exact H);
    by vm_compute.
Qed.

Lemma score_as_penalties (data : PerformanceData.t) :
  PerformanceScore.score (calculatePerformanceScore data)
  = 100 - loadTimePenalty data - requestsPenalty data
    - sizePenalty data - lcpPenalty data.
Proof.
  unfold calculatePerformanceScore, loadTimePenalty, requestsPenalty,
    sizePenalty, lcpPenalty.
  cbn [PerformanceScore.score].
  repeat match goal with |- context [if ?b then _ else _] => destruct b end;
    reflexivity.
Qed.

Lemma penalties_range (data : PerformanceData.t) :
  loadTimePenalty data ∈ [0; 5; 10; 20]
  ∧ requestsPenalty data ∈ [0; 10; 15]
  ∧ sizePenalty data ∈ [0; 5; 10; 15]
  ∧ lcpPenalty data ∈ [0; 10; 20].
Proof.
  unfold loadTimePenalty, requestsPenalty, sizePenalty, lcpPenalty.
  repeat split;
    repeat match goal with |- context [if ?b then _ else _] => destruct b end;
    set_solver.
Qed.

Lemma loadTimePenalty_mono (d d' : PerformanceData.t) :
  PerformanceData.loadTime d ≤ PerformanceData.loadTime d' →
  loadTimePenalty d ≤ loadTimePenalty d'.
Proof.
  unfold loadTimePenalty. intros H.
  repeat match goal with
         | |- context [?a <? ?b] => destruct (Z.ltb_spec a b)
         end; lia.
Qed.

Lemma requestsPenalty_mono (d d' : PerformanceData.t) :
  ResourceAnalysis.totalRequests (PerformanceData.resourceAnalysis d)
  ≤ ResourceAnalysis.totalRequests (PerformanceData.resourceAnalysis d') →
  requestsPenalty d ≤ requestsPenalty d'.
Proof.
  unfold requestsPenalty. intros H.
  repeat match goal with
         | |- context [?a <? ?b] => destruct (Z.ltb_spec a b)
         end; lia.
Qed.

Lemma sizePenalty_mono (d d' : PerformanceData.t) :
  (totalSizeMB d <= totalSizeMB d')%Q → sizePenalty d ≤ sizePenalty d'.
Proof.
  unfold sizePenalty. intros H.
  pose proof (above_mono _ _ 5 H) as H5.
  pose proof (above_mono _ _ 2 H) as H2.
  pose proof (above_mono _ _ 1 H) as H1.
  destruct (above (totalSizeMB d) 5), (above (totalSizeMB d) 2),
    (above (totalSizeMB d) 1), (above (totalSizeMB d') 5),
    (above (totalSizeMB d') 2), (above (totalSizeMB d') 1);
    try lia; intuition discriminate.
Qed.

Lemma lcpPenalty_mono (d d' : PerformanceData.t) :
  (PerformanceData.lcp d <= PerformanceData.lcp d')%Q →
  lcpPenalty d ≤ lcpPenalty d'.
Proof.
  unfold lcpPenalty. intros H.
  pose proof (above_mono _ _ 4000 H) as H4.
  pose proof (above_mono _ _ 2500 H) as H2.
  destruct (above (PerformanceData.lcp d) 4000),
    (above (PerformanceData.lcp d) 2500),
    (above (PerformanceData.lcp d') 4000),
    (above (PerformanceData.lcp d') 2500);
    try lia; intuition discriminate.
Qed.

Lemma performance_score_bounds (data : PerformanceData.t) :
  30 ≤ PerformanceScore.score (calculatePerformanceScore data) ≤ 100.
Proof.
  rewrite score_as_penalties.
  destruct (penalties_range data) as (Hl & Hr & Hs & Hp).
  set_unfold. lia.
Qed.

(** X18: the performance score is a multiple of five between 30 and 100,
    whatever is measured, so the floor [Math.max(score, 0)] never takes
    effect and the category is the one of the score returned; both ends
    are reached. *)
Theorem performance_score_between_30_and_100 :
  (∀ data,
     let r := calculatePerformanceScore data in
     30 ≤ PerformanceScore.score r ≤ 100
     ∧ PerformanceScore.score r `mod` 5 = 0
     ∧ PerformanceScore.category r
       = if 90 <=? PerformanceScore.score r then "excellent"
         else if 70 <=? PerformanceScore.score r then "good"
         else if 50 <=? PerformanceScore.score r then "fair"
         else "poor")
  ∧ PerformanceScore.score (calculatePerformanceScore slowPage) = 30
  ∧ PerformanceScore.score (calculatePerformanceScore fastPage) = 100.
Proof.
  split; [|split; vm_compute; reflexivity].
  intros data r. split; [apply performance_score_bounds|].
  split.
  - subst r. rewrite score_as_penalties.
    destruct (penalties_range data) as (Hl & Hr & Hs & Hp).
    set_unfold.
    destruct Hl as [Hl | [Hl | [Hl | [Hl | []]]]],
      Hr as [Hr | [Hr | [Hr | []]]],
      Hs as [Hs | [Hs | [Hs | [Hs | []]]]],
      Hp as [Hp | [Hp | [Hp | []]]];
      rewrite Hl, Hr, Hs, Hp; reflexivity.
  - pose proof (performance_score_bounds data) as Hb. fold r in Hb.
    revert Hb. subst r. unfold calculatePerformanceScore.
    cbn [PerformanceScore.score PerformanceScore.category].
    intros Hb. rewrite Z.max_l by lia. reflexivity.
Qed.

(** X19: the performance score is antitone in what is measured: a page
    that takes no less time to load, issues no fewer requests, transfers
    no fewer bytes and paints its largest content no earlier than another
    never scores higher than it. *)
Theorem worse_page_never_scores_higher (d d' : PerformanceData.t) :
  noBetter d d' →
  PerformanceScore.score (calculatePerformanceScore d')
  ≤ PerformanceScore.score (calculatePerformanceScore d).
Proof.
  intros (Hl & Hr & Hs & Hp). rewrite !score_as_penalties.
  pose proof (loadTimePenalty_mono d d' Hl).
  pose proof (requestsPenalty_mono d d' Hr).
  pose proof (sizePenalty_mono d d' (totalSizeMB_mono d d' Hs)).
  pose proof (lcpPenalty_mono d d' Hp).
  lia.
Qed.

Lemma worse_page_never_scores_higher_witness :
  noBetter fastPage slowPage
  ∧ PerformanceScore.score (calculatePerformanceScore slowPage)
    ≤ PerformanceScore.score (calculatePerformanceScore fastPage).
Proof.
  assert (noBetter fastPage slowPage) as H.
  { unfold noBetter, fastPage, slowPage, Qle; cbn. lia. }
  split; [exact H|].
  apply (worse_page_never_scores_higher fastPage slowPage H).
Defined.

(** X20: in the status that [getStatus] derives from a performance report
    whose first result is a target that loaded, [perf-score] is the score
    that [calculatePerformanceScore] gave and [perf-load] the load time in
    milliseconds: because the score is never 0, the placeholder ["--"] of
    [score || '--'] is not shown for such a result. *)
Theorem loaded_target_shows_its_score (data : PerformanceData.t)
    (fields : list (string * JsVal)) (rest : list JsVal) :
  recordsPerformance fields data →
  statusFields "performance" (JArr (JObj fields :: rest))
  = Some [ ("perf-score",
            JNum (PerformanceScore.score (calculatePerformanceScore data)));
           ("perf-load",
            JStr (decimal (PerformanceData.loadTime data) +:+ "ms")) ].
Proof.
  intros [Hload Hscore].
  unfold statusFields. cbn [String.eqb Ascii.eqb Bool.eqb first hd mbind option_bind].
  cbn [optMember member]. rewrite Hload, Hscore.
  unfold jsOr, plusMs. cbn [truthy toStr].
  rewrite append_ms_nonempty.
  cbn [negb default from_option id performanceScoreJson optMember member
       lookupField String.eqb Ascii.eqb Bool.eqb truthy toStr].
  pose proof (performance_score_bounds data) as Hb.
  destruct (Z.eqb_spec (PerformanceScore.score (calculatePerformanceScore data)) 0)
    as [H0|_]; [lia|]. reflexivity.
Qed.

Lemma loaded_target_shows_its_score_witness :
  statusFields "performance"
    (JArr [ JObj [ ("url", JStr "https://localhost:8443");
                   ("loadTime", JNum 3400);
                   ("performanceScore",
                    performanceScoreJson (calculatePerformanceScore slowPage));
                   ("status", JStr "success") ] ])
  = Some [ ("perf-score", JNum 30); ("perf-load", JStr "3400ms") ].
Proof.
  apply (loaded_target_shows_its_score slowPage).
  split; reflexivity.
Defined.

(** ** The content score *)


Lemma pushIf_nil {A} (c : bool) (r : A) (l : list A) :
  pushIf c r l = [] → c = false ∧ l = [].
Proof.
  unfold pushIf. destruct c; [|by intros ->].
  intros H. by apply app_nil in H as [_ ?].
Qed.

(** Takes the conditions of the scoring apart and computes each case. *)
Ltac score_cases :=
  repeat match goal with
         | |- context [if ?b then _ else _] =>
             lazymatch b with
             | context [Z.leb] => fail
             | _ => destruct b
             end
         end.

Lemma ai_score_bounds (p : PageData.t) :
  0 ≤ Score.score (calculateAIScore p) ≤ 100.
Proof.
  unfold calculateAIScore. cbn [Score.score].
  score_cases; vm_compute; split; discriminate.
Qed.

Lemma ai_score_sum (p : PageData.t) :
  Score.score (calculateAIScore p) `mod` 5 = 0
  ∧ Score.category (calculateAIScore p)
    = (if 80 <=? Score.score (calculateAIScore p) then "excellent"
       else if 60 <=? Score.score (calculateAIScore p) then "good"
       else if 40 <=? Score.score (calculateAIScore p) then "fair"
       else "poor").
Proof.
  unfold calculateAIScore. cbn [Score.score Score.category].
  score_cases; vm_compute; split; reflexivity.
Qed.

Lemma ai_percentage (p : PageData.t) :
  Score.percentage (calculateAIScore p) = Score.score (calculateAIScore p).
Proof.
  unfold calculateAIScore. cbn [Score.score Score.percentage].
  score_cases; vm_compute; reflexivity.
Qed.

(** X21: the content score is a multiple of five between 0 and 100: the
    points that a page can earn add up to 100 exactly, so the cap
    [Math.min(score, maxScore)] never takes effect, the percentage is the
    score and the category is the one of the score returned; both ends
    are reached. *)
Theorem content_score_between_0_and_100 :
  (∀ pageData,
     let r := calculateAIScore pageData in
     0 ≤ Score.score r ≤ 100
     ∧ Score.score r `mod` 5 = 0
     ∧ Score.percentage r = Score.score r
     ∧ Score.category r
       = if 80 <=? Score.score r then "excellent"
         else if 60 <=? Score.score r then "good"
         else if 40 <=? Score.score r then "fair"
         else "poor")
  ∧ Score.score (calculateAIScore barePage) = 0
  ∧ Score.score (calculateAIScore fullPage) = 100.
Proof.
  split; [|split; vm_compute; reflexivity].
  intros p r. subst r.
  split; [apply ai_score_bounds|].
  split; [apply ai_score_sum|].
  split; [apply ai_percentage|apply ai_score_sum].
Qed.

Lemma no_recommendation_40 (pageData : PageData.t) :
  generateRecommendations pageData = [] →
  40 ≤ Score.score (calculateAIScore pageData)
  ∧ Score.category (calculateAIScore pageData) ≠ "poor".
Proof.
  intros Hnone.
  assert (40 ≤ Score.score (calculateAIScore pageData)) as H40.
  { unfold generateRecommendations in Hnone.
    apply pushIf_nil in Hnone as [_ Hnone].
    apply pushIf_nil in Hnone as [_ Hnone].
    apply pushIf_nil in Hnone as [_ Hnone].
    apply pushIf_nil in Hnone as [Hh1 Hnone].
    apply pushIf_nil in Hnone as [Hmeta Hnone].
    apply pushIf_nil in Hnone as [Htitle _].
    apply orb_false_iff in Htitle as [Ht1 Ht2].
    apply orb_false_iff in Hmeta as [Hm1 Hm2].
    apply negb_false_iff in Ht1, Hm1, Hh1.
    apply Z.ltb_ge in Ht2, Hm2.
    unfold calculateAIScore. cbn [Score.score].
    rewrite Ht1, Hm1, Hh1.
    replace (10 <? textLength (PageData.title pageData)) with true
      by (symmetry; apply Z.ltb_lt; lia).
    replace (50 <? textLength (PageData.metaDescription pageData)) with true
      by (symmetry; apply Z.ltb_lt; lia).
    cbn [andb].
    score_cases; vm_compute; discriminate. }
  split; [exact H40|].
  destruct (ai_score_sum pageData) as [_ ->].
  repeat match goal with
         | |- context [?a <=? ?b] => destruct (Z.leb_spec a b)
         end; try discriminate; lia.
Qed.

(** X22: a page for which [generateRecommendations] has nothing to
    recommend scores at least 40, so it is never in the category "poor",
    and there is such a page that scores 40 exactly; the converse fails,
    a page that earns all 100 points is still told to optimize a title of
    fewer than 30 characters. *)
Theorem no_recommendation_scores_at_least_40 :
  (∀ pageData,
     generateRecommendations pageData = [] →
     40 ≤ Score.score (calculateAIScore pageData)
     ∧ Score.category (calculateAIScore pageData) ≠ "poor")
  ∧ (generateRecommendations plainPage = []
     ∧ Score.score (calculateAIScore plainPage) = 40)
  ∧ (Score.score (calculateAIScore fullPage) = 100
     ∧ Recommendation.message <$> generateRecommendations fullPage
       = ["Optimize page title (30-60 characters recommended)"]).
Proof.
  split; [exact no_recommendation_40|].
  split; split; vm_compute; reflexivity.
Qed.

Lemma no_recommendation_scores_at_least_40_witness :
  generateRecommendations plainPage = []
  ∧ 40 ≤ Score.score (calculateAIScore plainPage)
  ∧ Score.category (calculateAIScore plainPage) ≠ "poor".
Proof.
  split; [vm_compute; reflexivity|].
  apply (proj1 no_recommendation_scores_at_least_40 plainPage).
  vm_compute; reflexivity.
Defined.

Lemma nonEmpty_length (t : Text) (c : Z) :
  0 ≤ c → nonEmpty t && (c <? textLength t) = false ↔ textLength t ≤ c.
Proof.
  intros Hc. unfold textLength. destruct t as [|x t]; cbn [nonEmpty andb length].
  - split; [lia|done].
  - rewrite Z.ltb_ge. done.
Qed.

Lemma ai_score_zero (p : PageData.t) :
  Score.score (calculateAIScore p) = 0 ↔ earnsNothing p.
Proof.
  unfold earnsNothing.
  rewrite <- (nonEmpty_length (PageData.title p) 10) by lia.
  rewrite <- (nonEmpty_length (PageData.metaDescription p) 50) by lia.
  rewrite <- (Z.ltb_ge 300), <- (Z.ltb_ge _ 10), <- (Z.ltb_ge _ 5).
  rewrite <- (Nat.ltb_ge 2).
  assert (PageData.images p = [] ↔ (0 <? length (PageData.images p))%nat = false)
    as -> by (by destruct (PageData.images p)).
  unfold calculateAIScore. cbn [Score.score].
  destruct (0 <? length (PageData.images p))%nat;
    rewrite ?andb_false_r, ?andb_true_r;
    score_cases; vm_compute; intuition discriminate.
Qed.

(** X23: in the status that [getStatus] derives from a content report,
    [ai-content] is the score that [calculateAIScore] gave to the first
    page, except that a score of 0 shows as the placeholder ["--"], as if
    there were no score; and the score is 0 exactly for a page that earns
    no point: title of at most 10 and description of at most 50
    characters, no H1, at most 300 words, at most 2 headings, no image, at
    least 10 scripts and at least 5 style sheets. *)
Theorem zero_content_score_shows_placeholder (pageData : PageData.t)
    (fields : list (string * JsVal)) (rest : list JsVal) :
  lookupField "aiScore" fields = Some (scoreJson (calculateAIScore pageData)) →
  fieldOfReport "content" "ai-content" (Some (JArr (JObj fields :: rest)))
  = Some (if Score.score (calculateAIScore pageData) =? 0 then JStr "--"
          else JNum (Score.score (calculateAIScore pageData)))
  ∧ (Score.score (calculateAIScore pageData) = 0 ↔ earnsNothing pageData).
Proof.
  intros Hscore. split; [|apply ai_score_zero].
  unfold fieldOfReport, statusFields.
  cbn [String.eqb Ascii.eqb Bool.eqb first hd mbind option_bind].
  cbn [lookupField String.eqb Ascii.eqb Bool.eqb].
  cbn [optMember member]. rewrite Hscore.
  cbn [default from_option id scoreJson optMember member lookupField
       String.eqb Ascii.eqb Bool.eqb].
  unfold jsOr. cbn [truthy].
  by destruct (Score.score (calculateAIScore pageData) =? 0).
Qed.

Lemma zero_content_score_shows_placeholder_witness :
  fieldOfReport "content" "ai-content"
    (Some (JArr [ JObj [ ("url", JStr "https://localhost:8443");
                         ("aiScore", scoreJson (calculateAIScore barePage)) ] ]))
  = Some (JStr "--")
  ∧ (Score.score (calculateAIScore barePage) = 0 ↔ earnsNothing barePage).
Proof.
  apply (zero_content_score_shows_placeholder barePage).
  reflexivity.
Defined.

(** ** The security score *)

Lemma checkHeaders_fold (headers : Headers) (table : list (string * string))
    (analysis : HeaderAnalysis.t) :
  Forall (fun entry => toLowerCase (fst entry) = fst entry) table →
  let missing :=
    List.filter (fun header => negb (hasHeader headers header))
                (fst <$> table) in
  let r := fold_left (checkHeader headers) table analysis in
  HeaderAnalysis.score r
  = HeaderAnalysis.score analysis
    + 10 * (Z.of_nat (length table) - Z.of_nat (length missing))
  ∧ HeaderAnalysis.issues r
    = HeaderAnalysis.issues analysis ++ (String.append "Missing " <$> missing)
  ∧ length (HeaderAnalysis.recommendations r)
    = (length (HeaderAnalysis.recommendations analysis) + length missing)%nat.
Proof.
  intros Hlow. revert analysis.
  induction Hlow as [|[header description] table Hh Hlow IH]; intros analysis.
  - cbn. rewrite app_nil_r. repeat split; lia.
  - cbn [fold_left fmap list_fmap fst List.filter].
    cbn [fst] in Hh.
    destruct (IH (checkHeader headers analysis (header, description)))
      as (Hs & Hi & Hr).
    cbn zeta in Hs, Hi, Hr. cbn zeta.
    rewrite Hs, Hi, Hr. unfold checkHeader. rewrite Hh, orb_diag.
    destruct (hasHeader headers header);
      cbn [negb HeaderAnalysis.score HeaderAnalysis.issues
           HeaderAnalysis.recommendations length fmap list_fmap].
    + repeat split; lia.
    + rewrite <- app_assoc, length_app. cbn [length app].
      repeat split; lia.
Qed.

Lemma securityHeaders_lower :
  Forall (fun entry => toLowerCase (fst entry) = fst entry) securityHeaders.
Proof. repeat constructor. Qed.

Lemma missingHeaders_length (headers : Headers) :
  (length (missingHeaders headers) ≤ 7)%nat.
Proof.
  unfold missingHeaders.
  etrans; [apply List.filter_length_le|]. by vm_compute.
Qed.

Lemma analyzeCSP_score (headers : Headers) :
  CspAnalysis.score (analyzeCSP headers) ∈ [0; 10; 20; 30; 40; 50]
  ∧ (CspAnalysis.present (analyzeCSP headers) = false →
     CspAnalysis.score (analyzeCSP headers) = 0).
Proof.
  unfold analyzeCSP. destruct (cspOf headers) as [csp|].
  - destruct (String.eqb csp ""); [split; [set_solver|done]|].
    destruct (includes "'unsafe-inline'" csp), (includes "'unsafe-eval'" csp),
      (includes "*" csp); cbn; (split; [set_solver|done]).
  - split; [set_solver|done].
Qed.

Lemma securityScoreOf_points headers jsIssues formIssues :
  securityScoreOf headers jsIssues formIssues
  = let score := securityPoints headers jsIssues formIssues in
    Score.mk (Z.min score 100) (percentageOf score 100)
             (if 80 <=? score then "secure"
              else if 60 <=? score then "moderate"
              else if 40 <=? score then "vulnerable"
              else "critical").
Proof.
  unfold securityScoreOf, calculateSecurityScore, securityPoints.
  cbv zeta. by rewrite Z.add_0_l.
Qed.

Lemma securityPoints_fives headers jsIssues formIssues :
  ∃ k, securityPoints headers jsIssues formIssues = 5 * k ∧ 0 ≤ k ≤ 20
       ∧ (CspAnalysis.present (analyzeCSP headers) = false → k ≤ 15).
Proof.
  unfold securityPoints.
  destruct (checkHeaders_fold headers securityHeaders (HeaderAnalysis.mk 0 [] [])
              securityHeaders_lower) as (Hs & _ & _).
  fold (analyzeSecurityHeaders headers) in Hs.
  fold (missingHeaders headers) in Hs.
  pose proof (missingHeaders_length headers) as Hm.
  cbn [HeaderAnalysis.score length securityHeaders] in Hs.
  destruct (analyzeCSP_score headers) as [Hc Hc0].
  set (m := Z.of_nat (length (missingHeaders headers))) in *.
  set (j := Z.of_nat (length jsIssues)).
  set (f := Z.of_nat (length formIssues)).
  assert (0 ≤ m ≤ 7) by lia. assert (0 ≤ j) by lia. assert (0 ≤ f) by lia.
  rewrite Hs.
  assert (∃ c5, Z.min (CspAnalysis.score (analyzeCSP headers) / 2) 25 = 5 * c5
                ∧ 0 ≤ c5 ≤ 5
                ∧ (CspAnalysis.present (analyzeCSP headers) = false → c5 = 0))
    as (c5 & -> & Hc5 & Hc50).
  { set_unfold.
    destruct Hc as [Hc | [Hc | [Hc | [Hc | [Hc | [Hc | []]]]]]]; rewrite Hc;
      [exists 0|exists 1|exists 2|exists 3|exists 4|exists 5];
      (split; [reflexivity|split; [lia|intros Hp; specialize (Hc0 Hp); lia]]). }
  exists (Z.min (2 * (7 - m)) 8 + c5 + Z.max (4 - j) 0 + Z.max (3 - f) 0).
  split; [lia|]. split; [lia|]. intros Hp. specialize (Hc50 Hp). lia.
Qed.

Lemma analyzeCSP_present (headers : Headers) :
  CspAnalysis.present (analyzeCSP headers)
  = hasHeader headers "content-security-policy"
    || hasHeader headers "content-security-policy-report-only".
Proof.
  unfold analyzeCSP, cspOf, hasHeader.
  destruct (lookupField "content-security-policy" headers) as [v|].
  - destruct (String.eqb v "") eqn:Hv; cbn [negb orb].
    + destruct (lookupField "content-security-policy-report-only" headers)
        as [w|]; [|done].
      destruct (String.eqb w ""); [done|].
      by destruct (includes "'unsafe-inline'" w),
        (includes "'unsafe-eval'" w), (includes "*" w).
    + rewrite Hv.
      by destruct (includes "'unsafe-inline'" v),
        (includes "'unsafe-eval'" v), (includes "*" v).
  - cbn [orb].
    destruct (lookupField "content-security-policy-report-only" headers)
      as [w|]; [|done].
    destruct (String.eqb w ""); [done|].
    by destruct (includes "'unsafe-inline'" w),
      (includes "'unsafe-eval'" w), (includes "*" w).
Qed.



(** X25: a response without a content security policy, enforced or
    report-only, never scores above 75, so its category is never
    "secure", whatever else is right about it. *)
Theorem no_policy_never_secure (headers : Headers)
    (jsIssues formIssues : list string) :
  hasHeader headers "content-security-policy" = false →
  hasHeader headers "content-security-policy-report-only" = false →
  Score.score (securityScoreOf headers jsIssues formIssues) ≤ 75
  ∧ Score.category (securityScoreOf headers jsIssues formIssues) ≠ "secure".
Proof.
  intros Hcsp Hro.
  assert (CspAnalysis.present (analyzeCSP headers) = false) as Hp
    by (by rewrite analyzeCSP_present, Hcsp, Hro).
  rewrite securityScoreOf_points. cbv zeta.
  cbn [Score.score Score.category].
  destruct (securityPoints_fives headers jsIssues formIssues)
    as (k & -> & Hk & Hk15).
  specialize (Hk15 Hp). split; [lia|].
  destruct (Z.leb_spec 80 (5 * k)); [lia|].
  by repeat match goal with |- context [if ?b then _ else _] => destruct b end.
Qed.

Lemma no_policy_never_secure_witness :
  Score.score (securityScoreOf noPolicyHeaders [] []) ≤ 75
  ∧ Score.category (securityScoreOf noPolicyHeaders [] []) ≠ "secure".
Proof.
  apply (no_policy_never_secure noPolicyHeaders [] []); reflexivity.
Defined.

(** X26: [analyzeSecurityHeaders] accounts for each of its seven headers
    once: it reports as missing exactly the headers that the response
    lacks or sends empty, in the order of its table, with one
    recommendation per issue, and gives ten points for each of the
    others.  The two analyses of one response can disagree: a policy sent
    as [content-security-policy-report-only] counts as present for
    [analyzeCSP] while [analyzeSecurityHeaders] reports the policy header
    as missing. *)
Theorem header_analysis_accounts_for_every_header (headers : Headers) :
  let a := analyzeSecurityHeaders headers in
  HeaderAnalysis.issues a = String.append "Missing " <$> missingHeaders headers
  ∧ length (HeaderAnalysis.recommendations a) = length (HeaderAnalysis.issues a)
  ∧ HeaderAnalysis.score a
    = 10 * (7 - Z.of_nat (length (missingHeaders headers)))
  ∧ 0 ≤ HeaderAnalysis.score a ≤ 70
  ∧ (hasHeader headers "content-security-policy" = false →
     hasHeader headers "content-security-policy-report-only" = true →
     CspAnalysis.present (analyzeCSP headers) = true
     ∧ "Missing content-security-policy" ∈ HeaderAnalysis.issues a).
Proof.
  intros a.
  destruct (checkHeaders_fold headers securityHeaders (HeaderAnalysis.mk 0 [] [])
              securityHeaders_lower) as (Hs & Hi & Hr).
  fold (analyzeSecurityHeaders headers) in Hs, Hi, Hr. fold a in Hs, Hi, Hr.
  fold (missingHeaders headers) in Hs, Hi, Hr.
  cbn [HeaderAnalysis.score HeaderAnalysis.issues
       HeaderAnalysis.recommendations length securityHeaders app] in Hs, Hi, Hr.
  pose proof (missingHeaders_length headers) as Hm.
  split; [done|]. split; [by rewrite Hr, Hi, length_fmap|].
  split; [rewrite Hs; lia|]. split; [rewrite Hs; lia|].
  intros Hcsp Hro. split; [by rewrite analyzeCSP_present, Hcsp, Hro|].
  rewrite Hi. apply list_elem_of_fmap.
  exists "content-security-policy". split; [done|].
  unfold missingHeaders. apply list_elem_of_In, List.filter_In.
  split; [|by rewrite Hcsp].
  apply list_elem_of_In. set_solver.
Qed.

Lemma header_analysis_accounts_for_every_header_witness :
  CspAnalysis.present (analyzeCSP reportOnlyHeaders) = true
  ∧ "Missing content-security-policy"
    ∈ HeaderAnalysis.issues (analyzeSecurityHeaders reportOnlyHeaders).
Proof.
  apply (header_analysis_accounts_for_every_header reportOnlyHeaders);
    reflexivity.
Defined.
